(** * LockFreeMemoryPool: a shallow embedding of [LockFreeMemoryPool.hpp]

    The pool preallocates one cache-line aligned block for [poolSize] objects
    of [sizeof(T)] bytes, threads every slot into a singly linked free list
    whose nodes are overlaid on the slots' leading bytes, pops from that list
    with a compare-and-swap loop and keeps a per-thread cache in front of it.

    Addresses and [std::size_t] values are integers in [0, 2^64); memory is a
    map from addresses to bytes, and a [FreeNode*] is stored as the eight
    little-endian bytes of its address.  Atomic accesses are sequentially
    consistent.  The memory map is total; where a property is about a call
    going wrong, following a node pointer that is null or outside the live
    blocks is an outcome of its own ([Wild]).

    The first part is the model: the functions of the header as state
    passing functions, the sequences of calls on one pool, the
    interleavings of the threads' atomic actions, and the demonstration
    program of [LockFreeMemoryPool.cpp].  The second part proves the pool's
    properties. *)

From Stdlib Require Import ZArith List Lia.
From coqutil Require Import Byte Word.LittleEndianList.
From stdpp Require Import gmap strings.

Local Open Scope Z_scope.

(** * Model *)

(** ** Machine parameters *)

(** [constexpr std::size_t CACHE_LINE = 64;] *)
Definition CACHE_LINE : Z := 64.

(** Width of [std::size_t] and of a pointer on the modelled target. *)
Definition SIZE_BITS : Z := 64.
Definition SIZE_MOD : Z := 2 ^ SIZE_BITS.

(** [struct FreeNode { FreeNode* next; };] holds exactly one pointer. *)
Definition sizeof_FreeNode : Z := 8.
Definition FreeNode_bytes : nat := 8.

Definition nullptr : Z := 0.

(** Unsigned [std::size_t] arithmetic, wrap-around written out. *)
Definition size_mul (a b : Z) : Z := (a * b) mod SIZE_MOD.
Definition size_add (a b : Z) : Z := (a + b) mod SIZE_MOD.
Definition size_sub (a b : Z) : Z := (a - b) mod SIZE_MOD.

(** Thread identities. *)
Definition tid := nat.

(** ** Byte-addressed memory *)

Definition Mem := Z -> byte.

Definition mem_set (m : Mem) (a : Z) (b : byte) : Mem :=
  fun x => if Z.eqb x a then b else m x.

Fixpoint store_bytes (m : Mem) (a : Z) (bs : list byte) : Mem :=
  match bs with
  | [] => m
  | b :: bs' => store_bytes (mem_set m a b) (a + 1) bs'
  end.

Fixpoint load_bytes (m : Mem) (a : Z) (n : nat) : list byte :=
  match n with
  | O => []
  | S n' => m a :: load_bytes m (a + 1) n'
  end.

(** Reading and writing the [next] field of the [FreeNode] at address [a]. *)
Definition load_ptr (m : Mem) (a : Z) : Z :=
  le_combine (load_bytes m a FreeNode_bytes).

Definition store_ptr (m : Mem) (a : Z) (v : Z) : Mem :=
  store_bytes m a (le_split FreeNode_bytes v).

(** ** Program state *)

(** The non-static data members of one pool object. *)
Record Pool := mkPool {
  buffer : Z;     (* std::byte* buffer *)
  freeList : Z    (* std::atomic<FreeNode*> freeList *)
}.

(** State outside the pool objects: memory, the live blocks of the C heap
    (base address to size), and the static [thread_local FreeNode* _localCache]
    of the instantiation [LockFreeMemoryPool<T, poolSize>], one value per
    thread.  A thread that never assigned it reads the initialiser
    [nullptr]. *)
Record World := mkWorld {
  mem : Mem;
  _localCache : gmap tid Z;
  blocks : gmap Z Z
}.

Definition get_localCache (t : tid) (w : World) : Z :=
  default nullptr (_localCache w !! t).

Definition set_localCache (t : tid) (v : Z) (w : World) : World :=
  {| mem := mem w;
     _localCache := <[t := v]> (_localCache w);
     blocks := blocks w |}.

Definition set_mem (m : Mem) (w : World) : World :=
  {| mem := m; _localCache := _localCache w; blocks := blocks w |}.

Definition set_blocks (bl : gmap Z Z) (w : World) : World :=
  {| mem := mem w; _localCache := _localCache w; blocks := bl |}.

(** ** Outcomes of an operation *)

Inductive Exn := bad_alloc.

(** [Ok] is a normal return, [Throw] an exception leaving the function,
    [Spin] a loop that has not exited within the given number of rounds. *)
Inductive Result (A : Type) :=
| Ok (a : A)
| Throw (e : Exn)
| Spin.
Arguments Ok {A} a.
Arguments Throw {A} e.
Arguments Spin {A}.

Definition M (A : Type) := World -> Result (A * World).

Definition ret {A} (a : A) : M A := fun w => Ok (a, w).
Definition throw {A} (e : Exn) : M A := fun _ => Throw e.
Definition bind {A B} (c : M A) (k : A -> M B) : M B :=
  fun w => match c w with
           | Ok (a, w') => k a w'
           | Throw e => Throw e
           | Spin => Spin
           end.
Definition gets {A} (f : World -> A) : M A := fun w => Ok (f w, w).
Definition modify (f : World -> World) : M unit := fun w => Ok (tt, f w).

Notation "'let*' x ':=' c 'in' k" := (bind c (fun x => k))
  (at level 10, x name, c at level 100, k at level 200).
Notation "c ;; k" := (bind c (fun _ => k))
  (at level 100, k at level 200, right associativity).

Section Pool.

(** Template parameters: [sizeof(T)] and [poolSize]. *)
Variable sizeT : Z.
Variable poolSize : nat.

(** [std::aligned_alloc] of the C library: from the live blocks, the
    alignment and the size to the base of a new block, or [None] where the
    library returns a null pointer. *)
Variable aligned_alloc : gmap Z Z -> Z -> Z -> option Z.

Definition std_aligned_alloc (alignment size : Z) : M Z :=
  fun w => match aligned_alloc (blocks w) alignment size with
           | Some b => Ok (b, set_blocks (<[b := size]> (blocks w)) w)
           | None => Ok (nullptr, w)
           end.

Definition std_free (p : Z) : M unit :=
  modify (fun w => set_blocks (delete p (blocks w)) w).

(** [static constexpr std::size_t total_bytes()] *)
Definition total_bytes : Z := size_mul (Z.of_nat poolSize) sizeT.

(** The size handed to [aligned_alloc] (constructor, lines 45-58). *)
Definition alloc_size : Z :=
  let size := total_bytes in
  if negb (size mod CACHE_LINE =? 0)
  then size_add size (size_sub CACHE_LINE (size mod CACHE_LINE))
  else size.

(** [buffer + i * sizeof(T)]: the offset is a [std::size_t] product, the
    pointer addition is taken in the integers. *)
Definition slot_addr (buf : Z) (i : nat) : Z :=
  buf + size_mul (Z.of_nat i) sizeT.

(** One round of the constructor's loop: overlay a node on slot [i], link it
    to the current head and make it the head. *)
Definition link_slot (buf : Z) (st : Mem * Z) (i : nat) : Mem * Z :=
  let '(m, head) := st in
  let node := slot_addr buf i in
  (store_ptr m node head, node).

Definition build_free_list (buf : Z) (m : Mem) : Mem * Z :=
  fold_left (link_slot buf) (seq 0 poolSize) (m, nullptr).

(** The constructor [LockFreeMemoryPool()], lines 43-73. *)
Definition construct : M Pool :=
  let* buf := std_aligned_alloc CACHE_LINE alloc_size in
  if buf =? nullptr then throw bad_alloc
  else
    let* m := gets mem in
    let '(m', head) := build_free_list buf m in
    modify (set_mem m') ;;
    ret {| buffer := buf; freeList := head |}.

(** The destructor [~LockFreeMemoryPool()], lines 75-78. *)
Definition destroy (p : Pool) : M unit :=
  std_free (buffer p).

(** [freeList.compare_exchange_weak(head, next, ...)] as one indivisible
    comparison and update: the flag, the updated [head] and the pool.  The
    spurious failure the weak form allows is an action of its own in the
    interleaved semantics below. *)
Definition compare_exchange_weak (p : Pool) (expected desired : Z)
  : bool * Z * Pool :=
  if freeList p =? expected
  then (true, expected, {| buffer := buffer p; freeList := desired |})
  else (false, freeList p, p).

(** The slow path's [while (head) { ... }]. *)
Fixpoint pop_global (fuel : nat) (head : Z) (p : Pool) (m : Mem)
  : option (Z * Pool) :=
  match fuel with
  | O => None
  | S fuel' =>
    if head =? nullptr then Some (nullptr, p)
    else
      let next := load_ptr m head in
      let '(ok, head', p') := compare_exchange_weak p head next in
      if ok then Some (head, p')
      else pop_global fuel' head' p' m
  end.

(** [T* allocate() noexcept], lines 87-112, called by thread [t]; [fuel]
    bounds the rounds of the loop. *)
Definition allocate (fuel : nat) (t : tid) (p : Pool) : M (Z * Pool) :=
  let* c := gets (get_localCache t) in
  if negb (c =? nullptr) then
    let n := c in
    let* m := gets mem in
    modify (set_localCache t (load_ptr m n)) ;;
    ret (n, p)
  else
    let* m := gets mem in
    let head := freeList p in
    match pop_global fuel head p m with
    | Some r => ret r
    | None => fun _ => Spin
    end.

(** [void deallocate(T* ptr) noexcept], lines 118-124, called by thread
    [t]. *)
Definition deallocate (t : tid) (p : Pool) (ptr : Z) : M unit :=
  let node := ptr in
  let* c := gets (get_localCache t) in
  let* m := gets mem in
  modify (set_mem (store_ptr m node c)) ;;
  modify (set_localCache t node).

End Pool.

(** ** Linked chains in memory *)

(** [chain m h l]: starting at [h] and following [next] fields in [m] visits
    exactly the nodes [l] and then reaches [nullptr]. *)
Fixpoint chain (m : Mem) (h : Z) (l : list Z) : Prop :=
  match l with
  | [] => h = nullptr
  | a :: l' => h = a /\ a <> nullptr /\ chain m (load_ptr m a) l'
  end.

(** The nodes reached from [h] within [fuel] hops. *)
Fixpoint walk (fuel : nat) (m : Mem) (h : Z) : list Z :=
  match fuel with
  | O => []
  | S fuel' => if h =? nullptr then [] else h :: walk fuel' m (load_ptr m h)
  end.

(** Two addresses whose [FreeNode] overlays do not share a byte. *)
Definition apart (a b : Z) : Prop :=
  a + sizeof_FreeNode <= b \/ b + sizeof_FreeNode <= a.

(** ** Well-formed instantiations *)

(** What the spec calls rounding up to a multiple of the cache line. *)
Definition round_up (n k : Z) : Z := ((n + k - 1) / k) * k.

(** The instantiation [LockFreeMemoryPool<T, poolSize>] is well formed when
    a slot can hold a [FreeNode] and the padded byte count of the block fits
    [std::size_t]. *)
Definition valid_instance (sizeT : Z) (poolSize : nat) : Prop :=
  sizeof_FreeNode <= sizeT /\
  Z.of_nat poolSize * sizeT <= SIZE_MOD - CACHE_LINE.

(** The contract of [std::aligned_alloc]: for a power-of-two alignment and a
    size that is a multiple of it, a returned block is not null, starts on a
    multiple of the alignment and lies inside the address space. *)
Definition aligned_alloc_contract
  (aligned_alloc : gmap Z Z -> Z -> Z -> option Z) : Prop :=
  forall (bl : gmap Z Z) (alignment size b : Z),
    (exists k, 0 <= k /\ alignment = 2 ^ k) ->
    size mod alignment = 0 ->
    aligned_alloc bl alignment size = Some b ->
    0 < b /\ b mod alignment = 0 /\ b + size <= SIZE_MOD.

(** ** The slots of a pool *)

(** The [poolSize] slot addresses of the block at [buf], lowest first. *)
Definition slots (sizeT : Z) (poolSize : nat) (buf : Z) : list Z :=
  map (slot_addr sizeT buf) (seq 0 poolSize).

(** A block as [aligned_alloc] hands it out. *)
Definition block_ok (sizeT : Z) (poolSize : nat) (buf : Z) : Prop :=
  0 < buf /\ buf + alloc_size sizeT poolSize <= SIZE_MOD.

(** ** Sequences of calls on one pool *)

(** What the callers do: a thread calls [allocate], a thread calls
    [deallocate], or the holder of a slot writes one of the slot's bytes. *)
Inductive Op :=
| Alloc (t : tid)
| Dealloc (t : tid) (ptr : Z)
| Write (a off : Z) (b : byte).

(** The pool, the world around it, and the addresses [allocate] has returned
    that have not been passed to [deallocate] since. *)
Record Sys := mkSys {
  pool : Pool;
  world : World;
  inuse : list Z
}.

(** The caller's side of the contract: [deallocate] takes a held address
    and a write stays inside a held slot. *)
Definition op_ok (sizeT : Z) (s : Sys) (o : Op) : Prop :=
  match o with
  | Alloc _ => True
  | Dealloc _ ptr => In ptr (inuse s)
  | Write a off _ => In a (inuse s) /\ 0 <= off < sizeT
  end.

Definition exec (fuel : nat) (s : Sys) (o : Op) : Sys :=
  match o with
  | Alloc t =>
    match allocate fuel t (pool s) (world s) with
    | Ok ((r, p'), w') =>
      {| pool := p'; world := w';
         inuse := if r =? nullptr then inuse s else r :: inuse s |}
    | _ => s
    end
  | Dealloc t ptr =>
    match deallocate t (pool s) ptr (world s) with
    | Ok (_, w') =>
      {| pool := pool s; world := w';
         inuse := remove Z.eq_dec ptr (inuse s) |}
    | _ => s
    end
  | Write a off b =>
    {| pool := pool s;
       world := set_mem (mem_set (mem (world s)) (a + off) b) (world s);
       inuse := inuse s |}
  end.

Fixpoint trace_ok (sizeT : Z) (fuel : nat) (s : Sys) (ops : list Op) : Prop :=
  match ops with
  | [] => True
  | o :: ops' => op_ok sizeT s o /\ trace_ok sizeT fuel (exec fuel s o) ops'
  end.

Definition run (fuel : nat) (s : Sys) (ops : list Op) : Sys :=
  fold_left (exec fuel) ops s.

(** The three places a slot can be, read off the state. *)
Definition global_free (poolSize : nat) (s : Sys) : list Z :=
  walk poolSize (mem (world s)) (freeList (pool s)).

Definition local_free (poolSize : nat) (s : Sys) (t : tid) : list Z :=
  walk poolSize (mem (world s)) (get_localCache t (world s)).

Inductive Owner := InGlobal | InLocal (t : tid) | InUse.

(** The pool invariant, with the two kinds of free list and the owner of
    every slot made explicit. *)
Record pool_inv (sizeT : Z) (poolSize : nat) (s : Sys)
  (G : list Z) (L : tid -> list Z) (own : Z -> option Owner) : Prop := {
  inv_block : block_ok sizeT poolSize (buffer (pool s));
  inv_global : chain (mem (world s)) (freeList (pool s)) G;
  inv_local : forall t,
    chain (mem (world s)) (get_localCache t (world s)) (L t);
  inv_nodup_G : List.NoDup G;
  inv_nodup_L : forall t, List.NoDup (L t);
  inv_nodup_U : List.NoDup (inuse s);
  inv_own_slots : forall a,
    In a (slots sizeT poolSize (buffer (pool s))) <-> own a <> None;
  inv_own_G : forall a, In a G <-> own a = Some InGlobal;
  inv_own_L : forall a t, In a (L t) <-> own a = Some (InLocal t);
  inv_own_U : forall a, In a (inuse s) <-> own a = Some InUse
}.

Definition cache_set (L : tid -> list Z) (t : tid) (l : list Z)
  : tid -> list Z :=
  fun t' => if decide (t' = t) then l else L t'.

(** The thread a call runs on. *)
Definition op_thread (o : Op) : option tid :=
  match o with
  | Alloc t | Dealloc t _ => Some t
  | Write _ _ _ => None
  end.

(** How a step changes the contents of the thread caches: [allocate] takes
    the head of the caller's cache (if any), [deallocate] puts its argument
    in front. *)
Definition step_caches (L : tid -> list Z) (o : Op) : tid -> list Z :=
  match o with
  | Alloc t => cache_set L t (tl (L t))
  | Dealloc t ptr => cache_set L t (ptr :: L t)
  | Write _ _ _ => L
  end.

Definition own_set (own : Z -> option Owner) (a : Z) (o : Owner)
  : Z -> option Owner :=
  fun x => if decide (x = a) then Some o else own x.

(** No thread has anything cached: the state of a process in which
    [deallocate] has not been called yet. *)
Definition caches_empty (w : World) : Prop :=
  forall t, get_localCache t w = nullptr.

(** The owner map of a new pool. *)
Definition own_fresh (sl : list Z) : Z -> option Owner :=
  fun a => if in_dec Z.eq_dec a sl then Some InGlobal else None.

(** ** The three-way partition of the slots *)

(** Every slot address is in the global list, in one thread's cache or held
    by a caller; nothing else is in any of the three; the three do not
    overlap, no two threads cache the same address and no list repeats
    one. *)
Definition partition_ok (sizeT : Z) (poolSize : nat) (s : Sys) : Prop :=
  let sl := slots sizeT poolSize (buffer (pool s)) in
  let Gf := global_free poolSize s in
  let Lf := local_free poolSize s in
  (forall a, In a sl <->
             In a Gf \/ (exists t, In a (Lf t)) \/ In a (inuse s)) /\
  (forall a, In a Gf -> ~ In a (inuse s)) /\
  (forall a t, In a Gf -> ~ In a (Lf t)) /\
  (forall a t, In a (Lf t) -> ~ In a (inuse s)) /\
  (forall a t t', In a (Lf t) -> In a (Lf t') -> t = t') /\
  List.NoDup Gf /\ (forall t, List.NoDup (Lf t)) /\ List.NoDup (inuse s).

(** ** Observing calls *)

(** Consecutive [allocate] calls, one per listed thread, with the results in
    call order. *)
Fixpoint alloc_seq (fuel : nat) (ts : list tid) (p : Pool) (w : World)
  : list Z * Pool * World :=
  match ts with
  | [] => ([], p, w)
  | t :: ts' =>
    match allocate fuel t p w with
    | Ok ((r, p'), w') =>
      let '(rs, p'', w'') := alloc_seq fuel ts' p' w' in (r :: rs, p'', w'')
    | _ => ([], p, w)
    end
  end.

(** What [allocate] would return to thread [t] in state [s]. *)
Definition alloc_result (fuel : nat) (t : tid) (s : Sys) : option Z :=
  match allocate fuel t (pool s) (world s) with
  | Ok ((r, _), _) => Some r
  | _ => None
  end.

(** Byte [k] of the stored representation of pointer [v]. *)
Definition ptr_byte (v : Z) (k : nat) : byte :=
  byte.of_Z (Z.shiftr v (8 * Z.of_nat k)).

(** ** A concrete process: the demonstration program's pool *)

(** A bump allocator in the role of the C library: every block starts on the
    next multiple of the alignment above all live blocks. *)
Definition heap_top (bl : gmap Z Z) : Z :=
  Z.max 4096 (map_fold (fun b sz acc => Z.max acc (b + sz)) 0 bl).

Definition bump_aligned_alloc (bl : gmap Z Z) (alignment size : Z) : option Z :=
  let top := heap_top bl in
  let b := top + (alignment - top mod alignment) in
  if (0 <? alignment) && (0 <=? size) && (b + size <=? SIZE_MOD)
  then Some b else None.

(** Process start: zeroed memory, no live block, no thread has touched its
    cache. *)
Definition start_world : World :=
  {| mem := fun _ => Byte.x00; _localCache := ∅; blocks := ∅ |}.

(** [LockFreeMemoryPool<Order, 4>] with [sizeof(Order) = 64]. *)
Definition order_pool : Pool := {| buffer := 4160; freeList := 4352 |}.

Definition order_world : World :=
  set_mem (fst (build_free_list 64 4 4160 (mem start_world)))
    (set_blocks (<[4160 := 256]> (blocks start_world)) start_world).

Definition order_sys : Sys :=
  {| pool := order_pool; world := order_world; inuse := [] |}.

(** Two threads; the callers fill the slots they hold, hand one slot from
    thread 0 to thread 1, and the pool runs dry in between. *)
Definition order_trace : list Op :=
  [Alloc 0%nat; Alloc 1%nat; Write 4352 0 Byte.xff; Write 4288 63 Byte.x2a;
   Alloc 0%nat; Alloc 0%nat; Alloc 1%nat;
   Dealloc 1%nat 4352; Dealloc 1%nat 4160; Dealloc 0%nat 4224;
   Alloc 1%nat; Alloc 0%nat; Alloc 0%nat].

(** The demonstration pool after thread 0 has taken all four slots and a
    fifth call has failed. *)
Definition order_drained : Sys :=
  run 1 order_sys
    [Alloc 0%nat; Alloc 0%nat; Alloc 0%nat; Alloc 0%nat; Alloc 0%nat].

(** The demonstration pool with one slot held by thread 0, one in the cache
    of thread 1 and two left in the global list. *)
Definition order_mixed : Sys :=
  run 1 order_sys [Alloc 0%nat; Alloc 1%nat; Dealloc 1%nat 4288].

(** A second [LockFreeMemoryPool<Order, 4>] next to the first one. *)
Definition second_pool : Pool := {| buffer := 4480; freeList := 4672 |}.

Definition second_world : World :=
  set_mem (fst (build_free_list 64 4 4480 (mem order_world)))
    (set_blocks (<[4480 := 256]> (blocks order_world)) order_world).

(** ** Interleaved threads: every statement is an atomic action *)

Module Conc.

(** Where a thread stands inside [allocate] or [deallocate]. *)
Inductive PC :=
| Idle                          (* not inside a call *)
| FastPop (n : Z)               (* line 90 done: [n = _localCache] *)
| AllocLoop (head : Z)          (* at [while (head)], [head] loaded *)
| AllocCas (head next : Z)      (* line 98 done, about to compare-and-swap *)
| DeallocCalled (ptr : Z)       (* [deallocate(ptr)] entered *)
| DeallocStored (ptr : Z).      (* line 122 done: [node->next] written *)

Record CState := mkCState {
  sys : Sys;
  pcs : tid -> PC
}.

(** The atomic actions: every statement of the two functions is one, the
    weak compare-and-swap may also fail for no reason, and the holder of a
    slot may write its bytes. *)
Inductive Event :=
| EvFastRead (t : tid)              (* [if (_localCache)] taken, line 90 *)
| EvFastPop (t : tid)               (* lines 91-92 *)
| EvLoadHead (t : tid)              (* [if] not taken, line 96 *)
| EvTest (t : tid)                  (* line 97, then line 98 or line 111 *)
| EvCas (t : tid)                   (* line 101, and line 106 on success *)
| EvSpurious (t : tid)              (* line 101 failing spuriously *)
| EvCallDealloc (t : tid) (ptr : Z) (* [deallocate(ptr)] is called *)
| EvDeallocStore (t : tid)          (* line 122 *)
| EvDeallocSet (t : tid)            (* line 123 *)
| EvWrite (a off : Z) (b : byte).   (* a caller writes into a slot it holds *)

Definition set_pc (pc : tid -> PC) (t : tid) (c : PC) : tid -> PC :=
  fun t' => if decide (t' = t) then c else pc t'.

(** The slot a thread is in the middle of deallocating. *)
Definition dealloc_of (c : PC) : option Z :=
  match c with
  | DeallocCalled a | DeallocStored a => Some a
  | _ => None
  end.

(** When an action can happen.  The callers' obligations are part of it:
    [deallocate] is called on a held slot that is not being deallocated
    already, and nobody writes to a slot that has been passed to
    [deallocate]. *)
Definition enabled (sizeT : Z) (s : CState) (e : Event) : Prop :=
  match e with
  | EvFastRead t =>
    pcs s t = Idle /\ get_localCache t (world (sys s)) <> nullptr
  | EvFastPop t => exists n, pcs s t = FastPop n
  | EvLoadHead t =>
    pcs s t = Idle /\ get_localCache t (world (sys s)) = nullptr
  | EvTest t => exists h, pcs s t = AllocLoop h
  | EvCas t | EvSpurious t => exists h n, pcs s t = AllocCas h n
  | EvCallDealloc t ptr =>
    pcs s t = Idle /\ In ptr (inuse (sys s)) /\
    forall t', dealloc_of (pcs s t') <> Some ptr
  | EvDeallocStore t => exists a, pcs s t = DeallocCalled a
  | EvDeallocSet t => exists a, pcs s t = DeallocStored a
  | EvWrite a off b =>
    In a (inuse (sys s)) /\ 0 <= off < sizeT /\
    forall t', dealloc_of (pcs s t') <> Some a
  end.

Definition with_world (s : Sys) (w : World) : Sys :=
  {| pool := pool s; world := w; inuse := inuse s |}.

(** The effect of an action.  The held addresses grow when [allocate]
    returns one and shrink when [deallocate] has finished with one. *)
Definition cstep (s : CState) (e : Event) : CState :=
  let y := sys s in
  let w := world y in
  match e with
  | EvFastRead t =>
    {| sys := y; pcs := set_pc (pcs s) t (FastPop (get_localCache t w)) |}
  | EvFastPop t =>
    match pcs s t with
    | FastPop n =>
      {| sys := {| pool := pool y;
                   world := set_localCache t (load_ptr (mem w) n) w;
                   inuse := n :: inuse y |};
         pcs := set_pc (pcs s) t Idle |}
    | _ => s
    end
  | EvLoadHead t =>
    {| sys := y; pcs := set_pc (pcs s) t (AllocLoop (freeList (pool y))) |}
  | EvTest t =>
    match pcs s t with
    | AllocLoop h =>
      if h =? nullptr
      then {| sys := y; pcs := set_pc (pcs s) t Idle |}
      else {| sys := y;
              pcs := set_pc (pcs s) t (AllocCas h (load_ptr (mem w) h)) |}
    | _ => s
    end
  | EvCas t =>
    match pcs s t with
    | AllocCas h n =>
      let '(ok, h', p') := compare_exchange_weak (pool y) h n in
      if ok
      then {| sys := {| pool := p'; world := w; inuse := h :: inuse y |};
              pcs := set_pc (pcs s) t Idle |}
      else {| sys := y; pcs := set_pc (pcs s) t (AllocLoop h') |}
    | _ => s
    end
  | EvSpurious t =>
    match pcs s t with
    | AllocCas h n =>
      {| sys := y; pcs := set_pc (pcs s) t (AllocLoop (freeList (pool y))) |}
    | _ => s
    end
  | EvCallDealloc t ptr =>
    {| sys := y; pcs := set_pc (pcs s) t (DeallocCalled ptr) |}
  | EvDeallocStore t =>
    match pcs s t with
    | DeallocCalled a =>
      {| sys := with_world y
                  (set_mem (store_ptr (mem w) a (get_localCache t w)) w);
         pcs := set_pc (pcs s) t (DeallocStored a) |}
    | _ => s
    end
  | EvDeallocSet t =>
    match pcs s t with
    | DeallocStored a =>
      {| sys := {| pool := pool y;
                   world := set_localCache t a w;
                   inuse := remove Z.eq_dec a (inuse y) |};
         pcs := set_pc (pcs s) t Idle |}
    | _ => s
    end
  | EvWrite a off b =>
    {| sys := with_world y (set_mem (mem_set (mem w) (a + off) b) w);
       pcs := pcs s |}
  end.

(** What an action returns to its caller, if it completes an [allocate]. *)
Definition returned (s : CState) (e : Event) : option (tid * Z) :=
  match e with
  | EvFastPop t =>
    match pcs s t with
    | FastPop n => Some (t, n)
    | _ => None
    end
  | EvTest t =>
    match pcs s t with
    | AllocLoop h => if h =? nullptr then Some (t, nullptr) else None
    | _ => None
    end
  | EvCas t =>
    match pcs s t with
    | AllocCas h n =>
      if freeList (pool (sys s)) =? h then Some (t, h) else None
    | _ => None
    end
  | _ => None
  end.

Fixpoint ctrace_ok (sizeT : Z) (s : CState) (evs : list Event) : Prop :=
  match evs with
  | [] => True
  | e :: evs' => enabled sizeT s e /\ ctrace_ok sizeT (cstep s e) evs'
  end.

Definition crun (s : CState) (evs : list Event) : CState :=
  fold_left cstep evs s.

Definition cinit (p : Pool) (w : World) : CState :=
  {| sys := {| pool := p; world := w; inuse := [] |}; pcs := fun _ => Idle |}.

(** The pool invariant together with what each thread knows in the middle
    of a call. *)
Record cinv (sizeT : Z) (poolSize : nat) (s : CState)
  (G : list Z) (L : tid -> list Z) (own : Z -> option Owner) : Prop := {
  (* the sequential invariant, with slots under deallocation still held *)
  ci_pool : pool_inv sizeT poolSize (sys s) G L own;
  (* a thread about to compare-and-swap: [head] is not null, and if it is
     still in the global list then [next] is still its successor *)
  ci_cas : forall t h n, pcs s t = AllocCas h n ->
    h <> nullptr /\ (In h G -> n = load_ptr (mem (world (sys s))) h);
  (* a thread on the fast path has read its own non-empty cache *)
  ci_fast : forall t n, pcs s t = FastPop n ->
    n <> nullptr /\ get_localCache t (world (sys s)) = n;
  (* the slot passed to [deallocate] is held until line 123 *)
  ci_called : forall t a, dealloc_of (pcs s t) = Some a -> In a (inuse (sys s));
  (* after line 122 the slot's [next] is the caller's cache head *)
  ci_stored : forall t a, pcs s t = DeallocStored a ->
    load_ptr (mem (world (sys s))) a = get_localCache t (world (sys s));
  (* no slot is being deallocated twice *)
  ci_once : forall t t' a, t <> t' ->
    dealloc_of (pcs s t) = Some a -> dealloc_of (pcs s t') <> Some a
}.

(** Two threads race for the head of the demonstration pool: thread 0 wins
    slot 4352, thread 1's exchange fails, and its retry wins slot 4288. *)
Definition race_prefix : list Event :=
  [EvLoadHead 0%nat; EvLoadHead 1%nat; EvTest 0%nat; EvTest 1%nat;
   EvCas 0%nat; EvCas 1%nat; EvTest 1%nat].

Definition alloc_actions (s : CState) (t : tid) : list Event :=
  if negb (get_localCache t (world (sys s)) =? nullptr)
  then [EvFastRead t; EvFastPop t]
  else if freeList (pool (sys s)) =? nullptr
       then [EvLoadHead t; EvTest t]
       else [EvLoadHead t; EvTest t; EvCas t].

Definition dealloc_actions (t : tid) (ptr : Z) : list Event :=
  [EvCallDealloc t ptr; EvDeallocStore t; EvDeallocSet t].

(** The thread an action belongs to. *)
Definition actor (e : Event) : option tid :=
  match e with
  | EvFastRead t | EvFastPop t | EvLoadHead t | EvTest t | EvCas t
  | EvSpurious t | EvCallDealloc t _ | EvDeallocStore t | EvDeallocSet t =>
    Some t
  | EvWrite _ _ _ => None
  end.

End Conc.

(** ** States a pool can reach *)

(** The states of a process that built one pool while no thread had anything
    cached and has since made calls that respect [deallocate]'s
    precondition. *)
Definition reachable (sizeT : Z) (poolSize : nat)
  (aligned_alloc : gmap Z Z -> Z -> Z -> option Z) (fuel : nat) (s : Sys)
  : Prop :=
  exists (w w' : World) (p : Pool) (ops : list Op),
    caches_empty w /\
    construct sizeT poolSize aligned_alloc w = Ok (p, w') /\
    trace_ok sizeT fuel {| pool := p; world := w'; inuse := [] |} ops /\
    s = run fuel {| pool := p; world := w'; inuse := [] |} ops.

(** The world after [deallocate(ptr)] by thread [t]. *)
Definition after_deallocate (t : tid) (p : Pool) (ptr : Z) (w : World)
  : World :=
  match deallocate t p ptr w with
  | Ok (_, w') => w'
  | _ => w
  end.

(** ** Pointers the code may not follow *)

(** The memory of the model is total; the machine's is not.  A node pointer
    can be followed only where the node's eight bytes lie in one live block
    of the heap: following a null pointer, a pointer into a freed block or
    a pointer running over the end of its block is where the real program
    faults. *)
Definition in_block (a : Z) (blk : Z * Z) : bool :=
  (fst blk <=? a) && (a + sizeof_FreeNode <=? fst blk + snd blk).

Definition dereferenceable (w : World) (a : Z) : bool :=
  negb (a =? nullptr) && existsb (in_block a) (map_to_list (blocks w)).

(** How a call ends once such accesses are told apart: it returns, it
    throws, it follows a pointer it may not follow, or its loop has not
    exited within the given rounds. *)
Inductive Checked (A : Type) :=
| Returns (a : A) (w : World)
| Throws (e : Exn)
| Wild (a : Z)
| Loops.
Arguments Returns {A} a w.
Arguments Throws {A} e.
Arguments Wild {A} a.
Arguments Loops {A}.

(** [c] run in [w], where [c] follows the pointers [derefs]. *)
Definition checked {A} (w : World) (derefs : list Z) (c : M A) : Checked A :=
  match find (fun a => negb (dereferenceable w a)) derefs with
  | Some a => Wild a
  | None =>
    match c w with
    | Ok (a, w') => Returns a w'
    | Throw e => Throws e
    | Spin => Loops
    end
  end.

(** The node [allocate] reads [next] from: [n] at line 91, or [head] at
    line 98 when the cache is empty and the global list is not. *)
Definition allocate_deref (t : tid) (p : Pool) (w : World) : list Z :=
  let c := get_localCache t w in
  if negb (c =? nullptr) then [c]
  else if freeList p =? nullptr then []
  else [freeList p].

Definition allocate_checked (fuel : nat) (t : tid) (p : Pool) (w : World)
  : Checked (Z * Pool) :=
  checked w (allocate_deref t p w) (allocate fuel t p).

(** [deallocate] writes [node->next] at line 122. *)
Definition deallocate_checked (t : tid) (p : Pool) (ptr : Z) (w : World)
  : Checked unit :=
  checked w [ptr] (deallocate t p ptr).

(** The constructor writes [node->next] at line 68 once for every slot, in
    the block it has just been given. *)
Definition construct_checked (sizeT : Z) (poolSize : nat)
  (aligned_alloc : gmap Z Z -> Z -> Z -> option Z) (w : World)
  : Checked Pool :=
  match construct sizeT poolSize aligned_alloc w with
  | Ok (p, w') => checked w' (slots sizeT poolSize (buffer p)) (ret p)
  | Throw e => Throws e
  | Spin => Loops
  end.

(** [std::free] takes a null pointer or the base of a live block. *)
Definition destroy_checked (p : Pool) (w : World) : Checked unit :=
  match blocks w !! buffer p with
  | Some _ => checked w [] (destroy p)
  | None =>
    if buffer p =? nullptr then checked w [] (destroy p)
    else Wild (buffer p)
  end.

(** The node the constructor links slot [i] to: the slot before it. *)
Definition link_target (sizeT : Z) (buf : Z) (i : nat) : Z :=
  match i with
  | O => nullptr
  | S j => slot_addr sizeT buf j
  end.

(** ** Interleavings as sequences of calls *)

Module Lin.
Import Conc.

(** The call that takes effect with an action: an [allocate] with the
    action that makes it return, a [deallocate] with line 122, a caller's
    write with itself.  The other actions change no shared state. *)
Definition lin_op (s : CState) (e : Event) : list Op :=
  match e with
  | EvDeallocStore t =>
    match pcs s t with
    | DeallocCalled a => [Dealloc t a]
    | _ => []
    end
  | EvWrite a off b => [Write a off b]
  | _ =>
    match returned s e with
    | Some (t, _) => [Alloc t]
    | None => []
    end
  end.

Fixpoint linearize (s : CState) (evs : list Event) : list Op :=
  match evs with
  | [] => []
  | e :: evs' => lin_op s e ++ linearize (cstep s e) evs'
  end.

(** The state [q] of a sequence of whole calls agrees with the interleaved
    state [s]: same pool, memory and blocks; same caches and held slots,
    except that a [deallocate] between lines 122 and 123 has already put
    its slot into the cache in [q]. *)
Record agrees (s : CState) (q : Sys) : Prop := {
  ag_pool : pool q = pool (sys s);
  ag_mem : mem (world q) = mem (world (sys s));
  ag_blocks : blocks (world q) = blocks (world (sys s));
  ag_cache : forall t,
    get_localCache t (world q) =
    match pcs s t with
    | DeallocStored a => a
    | _ => get_localCache t (world (sys s))
    end;
  ag_inuse : forall x,
    In x (inuse q) <->
    In x (inuse (sys s)) /\ forall t, pcs s t <> DeallocStored x
}.

(** What a thread on the slow path of [allocate] knows. *)
Record slow_inv (s : CState) : Prop := {
  (* it found its cache empty, and nobody else fills it *)
  sl_cache : forall t,
    (exists h, pcs s t = AllocLoop h) \/ (exists h n, pcs s t = AllocCas h n) ->
    get_localCache t (world (sys s)) = nullptr;
  (* a null head it loaded is still the head: the list never grows *)
  sl_null : forall t,
    pcs s t = AllocLoop nullptr -> freeList (pool (sys s)) = nullptr
}.

(** Every head a thread carries through the slow path is null or one of
    the pool's slots. *)
Definition heads_are_slots (sizeT : Z) (poolSize : nat) (s : CState) : Prop :=
  forall t h,
    pcs s t = AllocLoop h \/ (exists n, pcs s t = AllocCas h n) ->
    h = nullptr \/ In h (slots sizeT poolSize (buffer (pool (sys s)))).

(** The address an action reads or writes through a node pointer: line 91
    reads [n->next], line 98 reads [head->next], line 122 writes
    [node->next]. *)
Definition node_access (s : CState) (e : Event) : option Z :=
  match e with
  | EvFastPop t =>
    match pcs s t with
    | FastPop n => Some n
    | _ => None
    end
  | EvTest t =>
    match pcs s t with
    | AllocLoop h => if h =? nullptr then None else Some h
    | _ => None
    end
  | EvDeallocStore t =>
    match pcs s t with
    | DeallocCalled a => Some a
    | _ => None
    end
  | _ => None
  end.

(** *** Counting the outcomes of the compare-and-swap *)

(** The action is a compare-and-swap that finds the head it expects. *)
Definition cas_succeeds (s : CState) (e : Event) : bool :=
  match e with
  | EvCas t =>
    match pcs s t with
    | AllocCas h _ => freeList (pool (sys s)) =? h
    | _ => false
    end
  | _ => false
  end.

(** The action is thread [t]'s compare-and-swap and finds another head. *)
Definition cas_fails (t : tid) (s : CState) (e : Event) : bool :=
  match e with
  | EvCas t' =>
    if decide (t' = t) then
      match pcs s t with
      | AllocCas h _ => negb (freeList (pool (sys s)) =? h)
      | _ => false
      end
    else false
  | _ => false
  end.

Fixpoint count_along (f : CState -> Event -> bool) (s : CState)
  (evs : list Event) : nat :=
  match evs with
  | [] => 0
  | e :: evs' =>
    ((if f s e then 1 else 0) + count_along f (cstep s e) evs')%nat
  end.

(** Thread [t] is on the slow path with a head that is no longer the
    pool's. *)
Definition stale (s : CState) (t : tid) : nat :=
  match pcs s t with
  | AllocLoop h | AllocCas h _ =>
    if freeList (pool (sys s)) =? h then 0%nat else 1%nat
  | _ => 0%nat
  end.

(** *** A thread running alone *)

(** The actions with which thread [t] ends the call it is in when no other
    thread acts and the compare-and-swap does not fail spuriously: a stale
    head costs one failed exchange and one more round of the loop. *)
Definition last_round (s : CState) (t : tid) : list Event :=
  if freeList (pool (sys s)) =? nullptr then [EvTest t]
  else [EvTest t; EvCas t].

Definition finish_actions (s : CState) (t : tid) : list Event :=
  match pcs s t with
  | Idle => []
  | FastPop _ => [EvFastPop t]
  | AllocLoop h =>
    if h =? nullptr then [EvTest t]
    else if freeList (pool (sys s)) =? h then [EvTest t; EvCas t]
    else [EvTest t; EvCas t] ++ last_round s t
  | AllocCas h _ =>
    if freeList (pool (sys s)) =? h then [EvCas t]
    else [EvCas t] ++ last_round s t
  | DeallocCalled _ => [EvDeallocStore t; EvDeallocSet t]
  | DeallocStored _ => [EvDeallocSet t]
  end.

End Lin.

(** ** The demonstration program, [LockFreeMemoryPool.cpp] *)

Module Demo.

(** [struct alignas(CACHE_LINE) Order]: [id] at offset 0, [price] at offset
    8 and [qty] at offset 16, padded to one cache line.  A [double] is
    carried as the 64 bits of its IEEE 754 representation. *)
Record Order := mkOrder {
  id_ : Z;       (* std::uint64_t id *)
  price_ : Z;    (* double price *)
  qty_ : Z       (* int qty *)
}.

Definition sizeof_Order : Z := 64.
Definition offset_id : Z := 0.
Definition offset_price : Z := 8.
Definition offset_qty : Z := 16.

(** What [std::cout] receives: one item for every [operator<<]. *)
Inductive Item :=
| Str (s : string)
| U64 (v : Z)
| F64 (bits : Z)
| I32 (v : Z).

Definition newline : string := String (Ascii.ascii_of_nat 10) EmptyString.

(** How a run of the program ends: [main] returns, an exception leaves
    [main], a null pointer is used as an object, or a loop has not exited
    within its rounds. *)
Inductive Outcome (A : Type) :=
| Fine (a : A)
| Uncaught (e : Exn)
| NullObject
| Stuck.
Arguments Fine {A} a.
Arguments Uncaught {A} e.
Arguments NullObject {A}.
Arguments Stuck {A}.

(** The state [main] works on once its local [pool] exists. *)
Record Frame := mkFrame {
  fworld : World;
  fpool : Pool;
  fout : list Item
}.

Definition P (A : Type) := Frame -> Outcome (A * Frame).

Definition pret {A} (a : A) : P A := fun f => Fine (a, f).

Definition pbind {A B} (c : P A) (k : A -> P B) : P B :=
  fun f => match c f with
           | Fine (a, f') => k a f'
           | Uncaught e => Uncaught e
           | NullObject => NullObject
           | Stuck => Stuck
           end.

Notation "'let!' x ':=' c 'in' k" := (pbind c (fun x => k))
  (at level 10, x name, c at level 100, k at level 200).
Notation "c ;;; k" := (pbind c (fun _ => k))
  (at level 100, k at level 200, right associativity).

Definition print_items (l : list Item) : P unit :=
  fun f => Fine (tt, {| fworld := fworld f; fpool := fpool f;
                        fout := fout f ++ l |}).

Definition store_field (a : Z) (n : nat) (v : Z) : P unit :=
  fun f => Fine (tt, {| fworld := set_mem (store_bytes (mem (fworld f)) a
                                             (le_split n v)) (fworld f);
                        fpool := fpool f; fout := fout f |}).

Definition load_field (a : Z) (n : nat) : P Z :=
  fun f => Fine (le_combine (load_bytes (mem (fworld f)) a n), f).

(** The value of an [int] from its 32 bits. *)
Definition int_of_bits (v : Z) : Z :=
  if v <? 2 ^ 31 then v else v - 2 ^ 32.

(** An object expression [*this] needs an object. *)
Definition object (this : Z) : P unit :=
  fun f => if this =? nullptr then NullObject else Fine (tt, f).

(** [new (this) Order(id_, price_, qty_)], lines 12-13. *)
Definition Order_new (this : Z) (x : Order) : P unit :=
  object this ;;;
  store_field (this + offset_id) 8 (id_ x) ;;;
  store_field (this + offset_price) 8 (price_ x) ;;;
  store_field (this + offset_qty) 4 (qty_ x).

(** [this->print()], lines 15-19. *)
Definition Order_print (this : Z) : P unit :=
  object this ;;;
  let! id := load_field (this + offset_id) 8 in
  let! price := load_field (this + offset_price) 8 in
  let! qty := load_field (this + offset_qty) 4 in
  print_items [Str "Order ID="; U64 id; Str " Price="; F64 price;
               Str " Qty="; I32 (int_of_bits qty); Str newline].

(** [this->~Order()]: the destructor is trivial. *)
Definition Order_delete (this : Z) : P unit :=
  object this.

(** [pool.allocate()] and [pool.deallocate(ptr)] on the local [pool]. *)
Definition pool_allocate (fuel : nat) (t : tid) : P Z :=
  fun f => match allocate fuel t (fpool f) (fworld f) with
           | Ok ((r, p'), w') =>
             Fine (r, {| fworld := w'; fpool := p'; fout := fout f |})
           | Throw e => Uncaught e
           | Spin => Stuck
           end.

Definition pool_deallocate (t : tid) (ptr : Z) : P unit :=
  fun f => match deallocate t (fpool f) ptr (fworld f) with
           | Ok (_, w') =>
             Fine (tt, {| fworld := w'; fpool := fpool f; fout := fout f |})
           | Throw e => Uncaught e
           | Spin => Stuck
           end.

(** The [double] literals of [main]. *)
Definition f64_100_5 : Z := 0x4059200000000000.
Definition f64_101_0 : Z := 0x4059400000000000.
Definition f64_102_5 : Z := 0x4059a00000000000.
Definition f64_103_0 : Z := 0x4059c00000000000.
Definition f64_110_0 : Z := 0x405b800000000000.

(** [main], lines 26-64: everything between the construction of [pool] and
    its destruction. *)
Definition main_body (fuel : nat) (t : tid) : P Z :=
  let! o1 := pool_allocate fuel t in
  let! o2 := pool_allocate fuel t in
  let! o3 := pool_allocate fuel t in
  let! o4 := pool_allocate fuel t in
  Order_new o1 (mkOrder 1 f64_100_5 10) ;;;
  Order_new o2 (mkOrder 2 f64_101_0 20) ;;;
  Order_new o3 (mkOrder 3 f64_102_5 30) ;;;
  Order_new o4 (mkOrder 4 f64_103_0 40) ;;;
  Order_print o1 ;;;
  Order_print o2 ;;;
  Order_print o3 ;;;
  Order_print o4 ;;;
  let! o5 := pool_allocate fuel t in
  (if o5 =? nullptr
   then print_items [Str (String.append "Pool exhausted" newline)]
   else pret tt) ;;;
  Order_delete o1 ;;; pool_deallocate t o1 ;;;
  Order_delete o2 ;;; pool_deallocate t o2 ;;;
  let! o6 := pool_allocate fuel t in
  Order_new o6 (mkOrder 6 f64_110_0 60) ;;;
  Order_print o6 ;;;
  Order_delete o3 ;;; pool_deallocate t o3 ;;;
  Order_delete o4 ;;; pool_deallocate t o4 ;;;
  Order_delete o6 ;;; pool_deallocate t o6 ;;;
  pret 0.

(** [int main()] run by thread [t]: [LockFreeMemoryPool<Order, 4> pool;],
    the body, and [pool]'s destructor on the way out.  The result is the
    exit status, the world left behind and what was printed. *)
Definition main (aligned_alloc : gmap Z Z -> Z -> Z -> option Z)
  (fuel : nat) (t : tid) (w : World) : Outcome (Z * World * list Item) :=
  match construct sizeof_Order 4 aligned_alloc w with
  | Ok (pool, w1) =>
    match main_body fuel t {| fworld := w1; fpool := pool; fout := [] |} with
    | Fine (status, f) =>
      match destroy (fpool f) (fworld f) with
      | Ok (_, w2) => Fine (status, w2, fout f)
      | Throw e => Uncaught e
      | Spin => Stuck
      end
    | Uncaught e => Uncaught e
    | NullObject => NullObject
    | Stuck => Stuck
    end
  | Throw e => Uncaught e
  | Spin => Stuck
  end.

End Demo.

(** * Proofs *)

(** ** Memory lemmas *)

Lemma store_bytes_outside (bs : list byte) : forall (m : Mem) (a x : Z),
  x < a \/ a + Z.of_nat (length bs) <= x ->
  store_bytes m a bs x = m x.
Proof.
  induction bs as [|b bs IH]; intros m a x Hx; simpl in *; [reflexivity|].
  rewrite IH by lia. unfold mem_set.
  destruct (Z.eqb_spec x a); [lia | reflexivity].
Qed.

Lemma load_bytes_ext (n : nat) : forall (m m' : Mem) (a : Z),
  (forall x, a <= x < a + Z.of_nat n -> m x = m' x) ->
  load_bytes m a n = load_bytes m' a n.
Proof.
  induction n as [|n IH]; intros m m' a Hagree; simpl; [reflexivity|].
  f_equal.
  - apply Hagree. lia.
  - apply IH. intros x Hx. apply Hagree. lia.
Qed.

Lemma load_store_bytes_same (bs : list byte) : forall (m : Mem) (a : Z),
  load_bytes (store_bytes m a bs) a (length bs) = bs.
Proof.
  induction bs as [|b bs IH]; intros m a; simpl; [reflexivity|].
  f_equal.
  - rewrite store_bytes_outside by lia. unfold mem_set.
    now rewrite Z.eqb_refl.
  - apply IH.
Qed.

Lemma load_ptr_ext (m m' : Mem) (a : Z) :
  (forall x, a <= x < a + sizeof_FreeNode -> m x = m' x) ->
  load_ptr m a = load_ptr m' a.
Proof.
  intros Hagree. unfold load_ptr. f_equal.
  apply load_bytes_ext. exact Hagree.
Qed.

Lemma store_ptr_outside (m : Mem) (a v x : Z) :
  x < a \/ a + sizeof_FreeNode <= x ->
  store_ptr m a v x = m x.
Proof.
  intros Hx. unfold store_ptr. apply store_bytes_outside.
  rewrite length_le_split. exact Hx.
Qed.

Lemma load_store_ptr_same (m : Mem) (a v : Z) :
  0 <= v < SIZE_MOD ->
  load_ptr (store_ptr m a v) a = v.
Proof.
  intros Hv. unfold load_ptr, store_ptr.
  pose proof (load_store_bytes_same (le_split FreeNode_bytes v) m a) as H.
  rewrite length_le_split in H. rewrite H, le_combine_split.
  apply Z.mod_small. exact Hv.
Qed.

Lemma load_store_ptr_other (m : Mem) (a v a' : Z) :
  a' + sizeof_FreeNode <= a \/ a + sizeof_FreeNode <= a' ->
  load_ptr (store_ptr m a v) a' = load_ptr m a'.
Proof.
  intros Hsep. apply load_ptr_ext. intros x Hx.
  apply store_ptr_outside. lia.
Qed.

(** ** Chains *)

Lemma chain_ext (l : list Z) : forall (m m' : Mem) (h : Z),
  (forall a x, In a l -> a <= x < a + sizeof_FreeNode -> m x = m' x) ->
  chain m h l -> chain m' h l.
Proof.
  induction l as [|a l IH]; intros m m' h Hagree Hc; simpl in *; [exact Hc|].
  destruct Hc as (-> & Hnz & Hc). repeat split; try assumption.
  rewrite <- (load_ptr_ext m m' a) by (intros x Hx; apply (Hagree a); auto).
  apply (IH m); [|exact Hc].
  intros b x Hb Hx. apply (Hagree b); auto.
Qed.

Lemma chain_store_apart (l : list Z) (m : Mem) (h a v : Z) :
  (forall b, In b l -> apart a b) ->
  chain m h l -> chain (store_ptr m a v) h l.
Proof.
  intros Hap. apply chain_ext. intros b x Hb Hx.
  symmetry. apply store_ptr_outside.
  specialize (Hap b Hb). unfold apart in Hap. lia.
Qed.

Lemma chain_functional (l1 : list Z) : forall (l2 : list Z) (m : Mem) (h : Z),
  chain m h l1 -> chain m h l2 -> l1 = l2.
Proof.
  induction l1 as [|a l1 IH]; intros [|b l2] m h H1 H2; simpl in *.
  - reflexivity.
  - destruct H2 as (-> & Hnz & _). congruence.
  - destruct H1 as (-> & Hnz & _). congruence.
  - destruct H1 as (-> & _ & H1), H2 as (<- & _ & H2).
    f_equal. eapply IH; eassumption.
Qed.

Lemma chain_walk (l : list Z) : forall (fuel : nat) (m : Mem) (h : Z),
  chain m h l -> (length l <= fuel)%nat -> walk fuel m h = l.
Proof.
  induction l as [|a l IH]; intros fuel m h Hc Hlen; simpl in *.
  - subst h. destruct fuel; reflexivity.
  - destruct Hc as (-> & Hnz & Hc). destruct fuel as [|fuel]; [lia|].
    simpl. destruct (Z.eqb_spec a nullptr); [contradiction|].
    f_equal. apply IH; [exact Hc | lia].
Qed.

Lemma chain_null (m : Mem) (l : list Z) : chain m nullptr l -> l = [].
Proof.
  destruct l as [|a l]; [reflexivity|]. simpl. intros (<- & Hnz & _).
  contradiction.
Qed.

Lemma chain_nonnull (m : Mem) (h : Z) (l : list Z) :
  h <> nullptr -> chain m h l ->
  exists l', l = h :: l' /\ chain m (load_ptr m h) l'.
Proof.
  destruct l as [|a l]; simpl.
  - intros Hnz ->. contradiction.
  - intros _ (-> & _ & Hc). eauto.
Qed.

(** ** Sizes and slot addresses *)

Lemma SIZE_MOD_eq : SIZE_MOD = 18446744073709551616.
Proof. reflexivity. Qed.

(** The padded size is a multiple of the cache line even where the
    arithmetic wraps. *)
Lemma alloc_size_aligned (sizeT : Z) (poolSize : nat) :
  alloc_size sizeT poolSize mod CACHE_LINE = 0.
Proof.
  unfold alloc_size. set (n := total_bytes sizeT poolSize).
  unfold size_add, size_sub, CACHE_LINE. rewrite SIZE_MOD_eq.
  destruct (Z.eqb_spec (n mod 64) 0) as [E|E]; simpl; [exact E|].
  pose proof (Z.mod_pos_bound n 64 ltac:(lia)) as Hb.
  rewrite (Z.mod_small (64 - n mod 64)) by lia.
  change 18446744073709551616 with (64 * 288230376151711744).
  rewrite Z.rem_mul_r by lia. rewrite Z.mul_comm, Z.mod_add by lia.
  rewrite Z.mod_mod by lia.
  replace (n + (64 - n mod 64)) with (n - n mod 64 + 1 * 64) by lia.
  rewrite Z.mod_add by lia. rewrite Zminus_mod, Z.mod_mod by lia.
  rewrite Z.sub_diag. reflexivity.
Qed.

Lemma total_bytes_fits (sizeT : Z) (poolSize : nat) :
  0 <= sizeT ->
  Z.of_nat poolSize * sizeT <= SIZE_MOD - CACHE_LINE ->
  total_bytes sizeT poolSize = Z.of_nat poolSize * sizeT.
Proof.
  intros Hs Hfit. unfold total_bytes, size_mul.
  unfold CACHE_LINE in *. rewrite SIZE_MOD_eq in *.
  apply Z.mod_small. split; [|lia].
  apply Z.mul_nonneg_nonneg; lia.
Qed.

Lemma alloc_size_fits (sizeT : Z) (poolSize : nat) :
  0 <= sizeT ->
  Z.of_nat poolSize * sizeT <= SIZE_MOD - CACHE_LINE ->
  alloc_size sizeT poolSize = round_up (Z.of_nat poolSize * sizeT) CACHE_LINE.
Proof.
  intros Hs Hfit. unfold alloc_size. rewrite total_bytes_fits by assumption.
  set (n := Z.of_nat poolSize * sizeT) in *.
  assert (Hn0 : 0 <= n) by (apply Z.mul_nonneg_nonneg; lia).
  unfold round_up, size_add, size_sub, CACHE_LINE in *.
  rewrite SIZE_MOD_eq in *.
  pose proof (Z.div_mod n 64 ltac:(lia)) as Hdm.
  pose proof (Z.mod_pos_bound n 64 ltac:(lia)) as Hb.
  destruct (Z.eqb_spec (n mod 64) 0) as [E|E]; simpl.
  - replace (n + 64 - 1) with (63 + (n / 64) * 64) by lia.
    rewrite Z.div_add by lia. change (63 / 64) with 0. lia.
  - rewrite (Z.mod_small (64 - n mod 64)) by lia.
    rewrite Z.mod_small by lia.
    replace (n + 64 - 1) with ((n mod 64 - 1) + (n / 64 + 1) * 64) by lia.
    rewrite Z.div_add by lia. rewrite (Z.div_small (n mod 64 - 1)) by lia.
    lia.
Qed.

Section Geometry.

Variable sizeT : Z.
Variable poolSize : nat.
Hypothesis Hvalid : valid_instance sizeT poolSize.

Lemma total_bytes_nowrap :
  total_bytes sizeT poolSize = Z.of_nat poolSize * sizeT.
Proof.
  destruct Hvalid as [Hn Hfit]. unfold sizeof_FreeNode in Hn.
  apply total_bytes_fits; [lia | exact Hfit].
Qed.

Lemma alloc_size_round_up :
  alloc_size sizeT poolSize = round_up (Z.of_nat poolSize * sizeT) CACHE_LINE.
Proof.
  destruct Hvalid as [Hn Hfit]. unfold sizeof_FreeNode in Hn.
  apply alloc_size_fits; [lia | exact Hfit].
Qed.

Lemma alloc_size_bounds :
  Z.of_nat poolSize * sizeT <= alloc_size sizeT poolSize /\
  alloc_size sizeT poolSize < Z.of_nat poolSize * sizeT + CACHE_LINE /\
  alloc_size sizeT poolSize mod CACHE_LINE = 0.
Proof.
  rewrite alloc_size_round_up. unfold round_up, CACHE_LINE.
  set (n := Z.of_nat poolSize * sizeT).
  pose proof (Z.div_mod (n + 64 - 1) 64 ltac:(lia)) as Hdm.
  pose proof (Z.mod_pos_bound (n + 64 - 1) 64 ltac:(lia)) as Hb.
  repeat split; try lia.
  apply Z.mod_mul. lia.
Qed.

Lemma slot_addr_nowrap (buf : Z) (i : nat) :
  (i < poolSize)%nat ->
  slot_addr sizeT buf i = buf + Z.of_nat i * sizeT.
Proof.
  intros Hi. destruct Hvalid as [Hn Hfit]. unfold slot_addr, size_mul.
  unfold sizeof_FreeNode, CACHE_LINE in *. rewrite SIZE_MOD_eq in *.
  rewrite Z.mod_small; [reflexivity|]. split; [apply Z.mul_nonneg_nonneg; lia|].
  assert (Z.of_nat i * sizeT <= Z.of_nat poolSize * sizeT)
    by (apply Z.mul_le_mono_nonneg_r; lia).
  lia.
Qed.

End Geometry.

Section Slots.

Variable sizeT : Z.
Variable poolSize : nat.
Variable buf : Z.
Hypothesis Hvalid : valid_instance sizeT poolSize.
Hypothesis Hblock : block_ok sizeT poolSize buf.

Lemma slots_index (a : Z) :
  In a (slots sizeT poolSize buf) <->
  exists i, (i < poolSize)%nat /\ a = buf + Z.of_nat i * sizeT.
Proof.
  unfold slots. rewrite in_map_iff. split.
  - intros (i & <- & Hi). apply in_seq in Hi. exists i. split; [lia|].
    apply slot_addr_nowrap with (poolSize := poolSize); [exact Hvalid | lia].
  - intros (i & Hi & ->). exists i. split.
    + apply slot_addr_nowrap with (poolSize := poolSize); assumption.
    + apply in_seq. lia.
Qed.

Lemma slots_range (a : Z) :
  In a (slots sizeT poolSize buf) ->
  buf <= a /\ a + sizeT <= buf + Z.of_nat poolSize * sizeT.
Proof.
  intros (i & Hi & ->)%slots_index. destruct Hvalid as [Hn _].
  unfold sizeof_FreeNode in Hn. split; [nia|].
  assert ((Z.of_nat i + 1) * sizeT <= Z.of_nat poolSize * sizeT)
    by (apply Z.mul_le_mono_nonneg_r; lia).
  lia.
Qed.

Lemma slots_in_block (a : Z) :
  In a (slots sizeT poolSize buf) ->
  buf <= a /\ a + sizeT <= buf + alloc_size sizeT poolSize.
Proof.
  intros Ha%slots_range.
  pose proof (alloc_size_bounds sizeT poolSize Hvalid). lia.
Qed.

Lemma slots_pointer (a : Z) :
  In a (slots sizeT poolSize buf) -> a <> nullptr /\ 0 <= a < SIZE_MOD.
Proof.
  intros Ha%slots_in_block. destruct Hblock as [Hb Htop], Hvalid as [Hn _].
  unfold nullptr, sizeof_FreeNode in *. lia.
Qed.

Lemma slots_separate (a b : Z) :
  In a (slots sizeT poolSize buf) -> In b (slots sizeT poolSize buf) ->
  a <> b -> a + sizeT <= b \/ b + sizeT <= a.
Proof.
  intros (i & Hi & ->)%slots_index (j & Hj & ->)%slots_index Hne.
  destruct Hvalid as [Hn _]. unfold sizeof_FreeNode in Hn.
  destruct (Nat.lt_total i j) as [Hij | [-> | Hij]]; [left | contradiction | right].
  - assert ((Z.of_nat i + 1) * sizeT <= Z.of_nat j * sizeT)
      by (apply Z.mul_le_mono_nonneg_r; lia). lia.
  - assert ((Z.of_nat j + 1) * sizeT <= Z.of_nat i * sizeT)
      by (apply Z.mul_le_mono_nonneg_r; lia). lia.
Qed.

Lemma slots_apart (a b : Z) :
  In a (slots sizeT poolSize buf) -> In b (slots sizeT poolSize buf) ->
  a <> b -> apart a b.
Proof.
  intros Ha Hb Hne. destruct (slots_separate a b Ha Hb Hne);
    destruct Hvalid as [Hn _]; unfold apart; lia.
Qed.

Lemma slots_NoDup : List.NoDup (slots sizeT poolSize buf).
Proof.
  unfold slots. apply Finite.Injective_map_NoDup_in; [|apply seq_NoDup].
  intros i j Hi%in_seq Hj%in_seq Heq.
  rewrite !(slot_addr_nowrap sizeT poolSize Hvalid) in Heq by lia.
  destruct Hvalid as [Hn _]. unfold sizeof_FreeNode in Hn. nia.
Qed.

Lemma slots_length : length (slots sizeT poolSize buf) = poolSize.
Proof. unfold slots. now rewrite length_map, length_seq. Qed.

End Slots.

(** ** The constructor's free list *)

Section Construct.

Variable sizeT : Z.
Variable poolSize : nat.
Variable buf : Z.
Hypothesis Hvalid : valid_instance sizeT poolSize.
Hypothesis Hblock : block_ok sizeT poolSize buf.

Local Abbreviation slot := (slot_addr sizeT buf).

Lemma prefix_slots (k : nat) (a : Z) :
  (k <= poolSize)%nat -> In a (map slot (seq 0 k)) ->
  In a (slots sizeT poolSize buf) /\
  (k < poolSize -> a <> slot k)%nat.
Proof.
  intros Hk (i & <- & Hi%in_seq)%in_map_iff. split.
  - apply in_map. apply in_seq. lia.
  - intros Hk' Heq.
    rewrite !(slot_addr_nowrap sizeT poolSize Hvalid) in Heq by lia.
    destruct Hvalid as [Hn _]. unfold sizeof_FreeNode in Hn. nia.
Qed.

(** After [k] rounds the list is slot [k-1], ..., slot [0], the head is a
    storable pointer, and only the node overlays of those slots changed. *)
Lemma build_rounds (m : Mem) (k : nat) :
  (k <= poolSize)%nat ->
  let st := fold_left (link_slot sizeT buf) (seq 0 k) (m, nullptr) in
  chain (fst st) (snd st) (rev (map slot (seq 0 k))) /\
  0 <= snd st < SIZE_MOD /\
  (forall x, (forall a, In a (map slot (seq 0 k)) ->
                        ~ (a <= x < a + sizeof_FreeNode)) ->
             fst st x = m x).
Proof.
  induction k as [|k IH]; intros Hk.
  - simpl. repeat split; try reflexivity; rewrite ?SIZE_MOD_eq; lia.
  - rewrite seq_S, fold_left_app, map_app, rev_app_distr. simpl.
    destruct IH as (Hc & Hh & Hfr); [lia|].
    destruct (fold_left (link_slot sizeT buf) (seq 0 k) (m, nullptr))
      as [mk hk] eqn:Est. simpl in *.
    assert (Hsk : In (slot k) (slots sizeT poolSize buf))
      by (apply in_map, in_seq; lia).
    destruct (slots_pointer sizeT poolSize buf Hvalid Hblock _ Hsk)
      as [Hnz Hrange].
    repeat split; try assumption.
    + rewrite load_store_ptr_same by exact Hh.
      apply chain_store_apart; [|exact Hc].
      intros b Hb%in_rev. destruct (prefix_slots k b) as [Hbs Hne];
        [lia | exact Hb |].
      apply (slots_apart sizeT poolSize buf Hvalid); auto.
      intros E. apply Hne; [lia | now symmetry].
    + lia.
    + lia.
    + intros x Hx. rewrite store_ptr_outside.
      * apply Hfr. intros a Ha. apply Hx. apply in_or_app. now left.
      * specialize (Hx (slot k)). rewrite in_app_iff in Hx. simpl in Hx.
        assert (~ (slot k <= x < slot k + sizeof_FreeNode)) by auto. lia.
Qed.

Lemma build_free_list_chain (m : Mem) :
  let st := build_free_list sizeT poolSize buf m in
  chain (fst st) (snd st) (rev (slots sizeT poolSize buf)) /\
  (forall x, (forall a, In a (slots sizeT poolSize buf) ->
                        ~ (a <= x < a + sizeof_FreeNode)) ->
             fst st x = m x).
Proof.
  destruct (build_rounds m poolSize (Nat.le_refl _)) as (Hc & _ & Hfr).
  split; assumption.
Qed.

End Construct.

(** ** What one call computes *)

Lemma get_set_localCache (t t' : tid) (v : Z) (w : World) :
  get_localCache t' (set_localCache t v w) =
  if decide (t = t') then v else get_localCache t' w.
Proof.
  unfold get_localCache, set_localCache. simpl.
  rewrite lookup_insert. destruct (decide (t = t')); reflexivity.
Qed.

Lemma get_localCache_set_mem (t : tid) (m : Mem) (w : World) :
  get_localCache t (set_mem m w) = get_localCache t w.
Proof. reflexivity. Qed.

Lemma pop_global_head (fuel : nat) (p : Pool) (m : Mem) :
  (0 < fuel)%nat ->
  pop_global fuel (freeList p) p m =
  Some (if freeList p =? nullptr then (nullptr, p)
        else (freeList p,
              {| buffer := buffer p;
                 freeList := load_ptr m (freeList p) |})).
Proof.
  destruct fuel as [|fuel]; [lia|]. intros _. simpl.
  destruct (freeList p =? nullptr); [reflexivity|].
  unfold compare_exchange_weak. now rewrite Z.eqb_refl.
Qed.

Lemma allocate_fast (fuel : nat) (t : tid) (p : Pool) (w : World) :
  get_localCache t w <> nullptr ->
  allocate fuel t p w =
  Ok ((get_localCache t w, p),
      set_localCache t (load_ptr (mem w) (get_localCache t w)) w).
Proof.
  intros Hc. unfold allocate, bind, gets, modify, ret.
  destruct (Z.eqb_spec (get_localCache t w) nullptr); [contradiction|].
  reflexivity.
Qed.

Lemma allocate_slow (fuel : nat) (t : tid) (p : Pool) (w : World) :
  (0 < fuel)%nat ->
  get_localCache t w = nullptr -> freeList p <> nullptr ->
  allocate fuel t p w =
  Ok ((freeList p,
       {| buffer := buffer p;
          freeList := load_ptr (mem w) (freeList p) |}), w).
Proof.
  intros Hfuel Hc Hh. unfold allocate, bind, gets, modify, ret.
  rewrite Hc. simpl. rewrite pop_global_head by exact Hfuel.
  destruct (Z.eqb_spec (freeList p) nullptr); [contradiction|].
  reflexivity.
Qed.

Lemma allocate_exhausted (fuel : nat) (t : tid) (p : Pool) (w : World) :
  (0 < fuel)%nat ->
  get_localCache t w = nullptr -> freeList p = nullptr ->
  allocate fuel t p w = Ok ((nullptr, p), w).
Proof.
  intros Hfuel Hc Hh. unfold allocate, bind, gets, modify, ret.
  rewrite Hc. simpl. rewrite pop_global_head by exact Hfuel.
  now rewrite Hh.
Qed.

Lemma deallocate_eq (t : tid) (p : Pool) (ptr : Z) (w : World) :
  deallocate t p ptr w =
  Ok (tt, set_localCache t ptr
            (set_mem (store_ptr (mem w) ptr (get_localCache t w)) w)).
Proof. reflexivity. Qed.

(** ** The pool invariant *)

Lemma NoDup_remove_Z (a : Z) (l : list Z) :
  List.NoDup l -> List.NoDup (remove Z.eq_dec a l).
Proof.
  induction 1 as [|x l Hx Hnd IH]; simpl; [constructor|].
  destruct (Z.eq_dec a x); [exact IH|].
  constructor; [|exact IH]. intros Hin%in_remove. tauto.
Qed.

Lemma in_remove_Z (a x : Z) (l : list Z) :
  In x (remove Z.eq_dec a l) <-> In x l /\ x <> a.
Proof.
  split; [apply in_remove | intros [H1 H2]; now apply in_in_remove].
Qed.

Lemma chain_head (m : Mem) (h : Z) (l : list Z) :
  chain m h l -> h = nullptr \/ In h l.
Proof.
  destruct l as [|a l]; simpl; [now left | intros (-> & _); right; now left].
Qed.

Section Invariant.

Variable sizeT : Z.
Variable poolSize : nat.
Hypothesis Hvalid : valid_instance sizeT poolSize.

Variable s : Sys.
Variable G : list Z.
Variable L : tid -> list Z.
Variable own : Z -> option Owner.
Hypothesis Hinv : pool_inv sizeT poolSize s G L own.

Local Abbreviation the_slots := (slots sizeT poolSize (buffer (pool s))).

Lemma owned_slot (a : Z) (o : Owner) : own a = Some o -> In a the_slots.
Proof. intros H. apply (inv_own_slots _ _ _ _ _ _ Hinv). congruence. Qed.

Lemma owned_pointer (a : Z) (o : Owner) :
  own a = Some o -> a <> nullptr /\ 0 <= a < SIZE_MOD.
Proof.
  intros H%owned_slot.
  exact (slots_pointer _ _ _ Hvalid (inv_block _ _ _ _ _ _ Hinv) _ H).
Qed.

Lemma owned_separate (a b : Z) (o1 o2 : Owner) :
  own a = Some o1 -> own b = Some o2 -> a <> b ->
  a + sizeT <= b \/ b + sizeT <= a.
Proof.
  intros Ha%owned_slot Hb%owned_slot Hne.
  exact (slots_separate _ _ _ Hvalid a b Ha Hb Hne).
Qed.

Lemma owned_apart (a b : Z) (o1 o2 : Owner) :
  own a = Some o1 -> own b = Some o2 -> o1 <> o2 -> apart a b.
Proof.
  intros Ha Hb Hne.
  assert (a <> b) by congruence.
  destruct (owned_separate a b o1 o2 Ha Hb H);
    destruct Hvalid as [Hn _]; unfold apart; lia.
Qed.

Lemma G_owned (a : Z) : In a G -> own a = Some InGlobal.
Proof. apply (inv_own_G _ _ _ _ _ _ Hinv). Qed.

Lemma L_owned (a : Z) (t : tid) : In a (L t) -> own a = Some (InLocal t).
Proof. apply (inv_own_L _ _ _ _ _ _ Hinv). Qed.

Lemma U_owned (a : Z) : In a (inuse s) -> own a = Some InUse.
Proof. apply (inv_own_U _ _ _ _ _ _ Hinv). Qed.

(** Overwriting the node overlay of a held slot keeps every free list. *)
Lemma store_held_global (a v : Z) :
  own a = Some InUse ->
  chain (store_ptr (mem (world s)) a v) (freeList (pool s)) G.
Proof.
  intros Ha. apply chain_store_apart; [|exact (inv_global _ _ _ _ _ _ Hinv)].
  intros b Hb%G_owned. eapply owned_apart; eauto; discriminate.
Qed.

Lemma store_held_local (a v : Z) (t : tid) :
  own a = Some InUse ->
  chain (store_ptr (mem (world s)) a v) (get_localCache t (world s)) (L t).
Proof.
  intros Ha. apply chain_store_apart; [|exact (inv_local _ _ _ _ _ _ Hinv t)].
  intros b Hb%L_owned. eapply owned_apart; eauto; discriminate.
Qed.

(** So does a write to any byte of a held slot. *)
Lemma write_held_chain (a off : Z) (b : byte) (h : Z) (l : list Z) :
  own a = Some InUse -> 0 <= off < sizeT ->
  (forall n, In n l -> exists o, own n = Some o /\ o <> InUse) ->
  chain (mem (world s)) h l ->
  chain (mem_set (mem (world s)) (a + off) b) h l.
Proof.
  intros Ha Hoff Hl. apply chain_ext. intros n x Hn Hx.
  unfold mem_set. destruct (Z.eqb_spec x (a + off)) as [->|]; [|reflexivity].
  exfalso. destruct (Hl n Hn) as (o & Ho & Hne).
  assert (a <> n) by congruence.
  destruct (owned_separate a n _ _ Ha Ho H);
    destruct Hvalid as [Hs _]; lia.
Qed.

End Invariant.

(** ** Each call keeps the invariant *)

Section Preservation.

Variable sizeT : Z.
Variable poolSize : nat.
Hypothesis Hvalid : valid_instance sizeT poolSize.

Variable s : Sys.
Variable G : list Z.
Variable L : tid -> list Z.
Variable own : Z -> option Owner.
Hypothesis Hinv : pool_inv sizeT poolSize s G L own.

Lemma inv_alloc_fast (t : tid) (l' : list Z) :
  let c := get_localCache t (world s) in
  L t = c :: l' ->
  pool_inv sizeT poolSize
    {| pool := pool s;
       world := set_localCache t (load_ptr (mem (world s)) c) (world s);
       inuse := c :: inuse s |}
    G (cache_set L t l') (own_set own c InUse).
Proof.
  intros c HL.
  pose proof (inv_local _ _ _ _ _ _ Hinv t) as Hct. rewrite HL in Hct.
  destruct Hct as (_ & Hcnz & Hct). fold c in Hct.
  pose proof (inv_nodup_L _ _ _ _ _ _ Hinv t) as Hnd. rewrite HL in Hnd.
  apply NoDup_cons_iff in Hnd as [Hcl' Hnd].
  assert (Hown : own c = Some (InLocal t))
    by (apply (L_owned _ _ _ _ _ _ Hinv); rewrite HL; now left).
  constructor; simpl.
  - exact (inv_block _ _ _ _ _ _ Hinv).
  - exact (inv_global _ _ _ _ _ _ Hinv).
  - intros t'. rewrite get_set_localCache. unfold cache_set.
    destruct (decide (t = t')) as [<-|Hne].
    + rewrite decide_True by reflexivity. exact Hct.
    + rewrite decide_False by congruence.
      exact (inv_local _ _ _ _ _ _ Hinv t').
  - exact (inv_nodup_G _ _ _ _ _ _ Hinv).
  - intros t'. unfold cache_set. destruct (decide (t' = t)); [exact Hnd|].
    exact (inv_nodup_L _ _ _ _ _ _ Hinv t').
  - constructor; [|exact (inv_nodup_U _ _ _ _ _ _ Hinv)].
    intros Hin%(U_owned _ _ _ _ _ _ Hinv). congruence.
  - intros a. unfold own_set. rewrite (inv_own_slots _ _ _ _ _ _ Hinv).
    destruct (decide (a = c)) as [->|]; [|reflexivity].
    split; congruence.
  - intros a. unfold own_set. rewrite (inv_own_G _ _ _ _ _ _ Hinv).
    destruct (decide (a = c)) as [->|]; [|reflexivity].
    split; congruence.
  - intros a t'. unfold own_set, cache_set.
    destruct (decide (t' = t)) as [->|Hne].
    + destruct (decide (a = c)) as [->|Hac].
      * split; [contradiction | discriminate].
      * rewrite <- (inv_own_L _ _ _ _ _ _ Hinv), HL. simpl.
        split; [now right | intros [E|E]; [congruence | exact E]].
    + rewrite (inv_own_L _ _ _ _ _ _ Hinv).
      destruct (decide (a = c)) as [->|]; [|reflexivity].
      split; congruence.
  - intros a. unfold own_set.
    destruct (decide (a = c)) as [->|Hac].
    + split; [reflexivity | now left].
    + rewrite <- (inv_own_U _ _ _ _ _ _ Hinv).
      split; [intros [E|E]; [congruence | exact E] | now right].
Qed.

Lemma inv_alloc_slow (G' : list Z) :
  let h := freeList (pool s) in
  G = h :: G' ->
  pool_inv sizeT poolSize
    {| pool := {| buffer := buffer (pool s);
                  freeList := load_ptr (mem (world s)) h |};
       world := world s;
       inuse := h :: inuse s |}
    G' L (own_set own h InUse).
Proof.
  intros h HG.
  pose proof (inv_global _ _ _ _ _ _ Hinv) as Hc. rewrite HG in Hc.
  destruct Hc as (_ & Hnz & Hc). fold h in Hc.
  pose proof (inv_nodup_G _ _ _ _ _ _ Hinv) as Hnd. rewrite HG in Hnd.
  apply NoDup_cons_iff in Hnd as [HhG' Hnd].
  assert (Hown : own h = Some InGlobal)
    by (apply (G_owned _ _ _ _ _ _ Hinv); rewrite HG; now left).
  constructor; simpl.
  - exact (inv_block _ _ _ _ _ _ Hinv).
  - exact Hc.
  - exact (inv_local _ _ _ _ _ _ Hinv).
  - exact Hnd.
  - exact (inv_nodup_L _ _ _ _ _ _ Hinv).
  - constructor; [|exact (inv_nodup_U _ _ _ _ _ _ Hinv)].
    intros Hin%(U_owned _ _ _ _ _ _ Hinv). congruence.
  - intros a. unfold own_set. rewrite (inv_own_slots _ _ _ _ _ _ Hinv).
    destruct (decide (a = h)) as [->|]; [|reflexivity].
    split; congruence.
  - intros a. unfold own_set.
    destruct (decide (a = h)) as [->|Hah].
    + split; [contradiction | discriminate].
    + rewrite <- (inv_own_G _ _ _ _ _ _ Hinv), HG. simpl.
      split; [now right | intros [E|E]; [congruence | exact E]].
  - intros a t. unfold own_set. rewrite (inv_own_L _ _ _ _ _ _ Hinv).
    destruct (decide (a = h)) as [->|]; [|reflexivity].
    split; congruence.
  - intros a. unfold own_set.
    destruct (decide (a = h)) as [->|Hah].
    + split; [reflexivity | now left].
    + rewrite <- (inv_own_U _ _ _ _ _ _ Hinv).
      split; [intros [E|E]; [congruence | exact E] | now right].
Qed.

(** Line 122 of [deallocate]: the node overlay of a held slot is
    overwritten. *)
Lemma inv_store_held (a v : Z) :
  In a (inuse s) ->
  pool_inv sizeT poolSize
    {| pool := pool s;
       world := set_mem (store_ptr (mem (world s)) a v) (world s);
       inuse := inuse s |}
    G L own.
Proof.
  intros Hin.
  assert (Hown : own a = Some InUse)
    by (apply (U_owned _ _ _ _ _ _ Hinv); exact Hin).
  constructor; simpl; try apply Hinv.
  - apply (store_held_global _ _ Hvalid _ _ _ _ Hinv). exact Hown.
  - intros t. rewrite get_localCache_set_mem.
    apply (store_held_local _ _ Hvalid _ _ _ _ Hinv). exact Hown.
Qed.

(** Line 123 of [deallocate]: a held slot whose [next] field is the caller's
    current cache head becomes the new head. *)
Lemma inv_dealloc_set (t : tid) (ptr : Z) :
  In ptr (inuse s) ->
  load_ptr (mem (world s)) ptr = get_localCache t (world s) ->
  pool_inv sizeT poolSize
    {| pool := pool s;
       world := set_localCache t ptr (world s);
       inuse := remove Z.eq_dec ptr (inuse s) |}
    G (cache_set L t (ptr :: L t)) (own_set own ptr (InLocal t)).
Proof.
  intros Hin Hnext.
  assert (Hown : own ptr = Some InUse)
    by (apply (U_owned _ _ _ _ _ _ Hinv); exact Hin).
  destruct (owned_pointer _ _ Hvalid _ _ _ _ Hinv _ _ Hown) as [Hnz Hrange].
  constructor; simpl.
  - exact (inv_block _ _ _ _ _ _ Hinv).
  - exact (inv_global _ _ _ _ _ _ Hinv).
  - intros t'. rewrite get_set_localCache. unfold cache_set.
    destruct (decide (t = t')) as [<-|Hne].
    + rewrite decide_True by reflexivity. simpl.
      repeat split; [exact Hnz|]. rewrite Hnext.
      exact (inv_local _ _ _ _ _ _ Hinv t).
    + rewrite decide_False by congruence.
      exact (inv_local _ _ _ _ _ _ Hinv t').
  - exact (inv_nodup_G _ _ _ _ _ _ Hinv).
  - intros t'. unfold cache_set.
    destruct (decide (t' = t)) as [->|];
      [|exact (inv_nodup_L _ _ _ _ _ _ Hinv t')].
    constructor; [|exact (inv_nodup_L _ _ _ _ _ _ Hinv t)].
    intros E%(L_owned _ _ _ _ _ _ Hinv). congruence.
  - apply NoDup_remove_Z. exact (inv_nodup_U _ _ _ _ _ _ Hinv).
  - intros a. unfold own_set. rewrite (inv_own_slots _ _ _ _ _ _ Hinv).
    destruct (decide (a = ptr)) as [->|]; [|reflexivity].
    split; congruence.
  - intros a. unfold own_set. rewrite (inv_own_G _ _ _ _ _ _ Hinv).
    destruct (decide (a = ptr)) as [->|]; [|reflexivity].
    split; congruence.
  - intros a t'. unfold own_set, cache_set.
    destruct (decide (t' = t)) as [->|Hne].
    + destruct (decide (a = ptr)) as [->|Hap].
      * split; [reflexivity | now left].
      * rewrite <- (inv_own_L _ _ _ _ _ _ Hinv). simpl.
        split; [intros [E|E]; [congruence | exact E] | now right].
    + rewrite (inv_own_L _ _ _ _ _ _ Hinv).
      destruct (decide (a = ptr)) as [->|]; [|reflexivity].
      split; congruence.
  - intros a. unfold own_set. rewrite in_remove_Z.
    rewrite (inv_own_U _ _ _ _ _ _ Hinv).
    destruct (decide (a = ptr)) as [->|Hap].
    + split; [tauto | discriminate].
    + tauto.
Qed.

(** The head of a thread's cache is a pointer value. *)
Lemma cache_head_range (t : tid) :
  0 <= get_localCache t (world s) < SIZE_MOD.
Proof.
  destruct (chain_head _ _ _ (inv_local _ _ _ _ _ _ Hinv t)) as [E|E].
  - rewrite E, SIZE_MOD_eq. unfold nullptr. lia.
  - apply (L_owned _ _ _ _ _ _ Hinv) in E.
    apply (owned_pointer _ _ Hvalid _ _ _ _ Hinv _ _ E).
Qed.

Lemma inv_write (a off : Z) (b : byte) :
  In a (inuse s) -> 0 <= off < sizeT ->
  pool_inv sizeT poolSize
    {| pool := pool s;
       world := set_mem (mem_set (mem (world s)) (a + off) b) (world s);
       inuse := inuse s |}
    G L own.
Proof.
  intros Hin Hoff.
  assert (Hown : own a = Some InUse)
    by (apply (U_owned _ _ _ _ _ _ Hinv); exact Hin).
  constructor; simpl; try apply Hinv.
  - apply (write_held_chain _ _ Hvalid _ _ _ _ Hinv); auto;
      [|exact (inv_global _ _ _ _ _ _ Hinv)].
    intros n Hn%(G_owned _ _ _ _ _ _ Hinv). eexists; split; eauto;
      discriminate.
  - intros t. rewrite get_localCache_set_mem.
    apply (write_held_chain _ _ Hvalid _ _ _ _ Hinv); auto;
      [|exact (inv_local _ _ _ _ _ _ Hinv t)].
    intros n Hn%(L_owned _ _ _ _ _ _ Hinv). eexists; split; eauto;
      discriminate.
Qed.

End Preservation.

Lemma inv_dealloc (sizeT : Z) (poolSize : nat) (s : Sys)
  (G : list Z) (L : tid -> list Z) (own : Z -> option Owner)
  (t : tid) (ptr : Z) :
  valid_instance sizeT poolSize ->
  pool_inv sizeT poolSize s G L own ->
  In ptr (inuse s) ->
  pool_inv sizeT poolSize
    {| pool := pool s;
       world := set_localCache t ptr
                  (set_mem (store_ptr (mem (world s)) ptr
                                      (get_localCache t (world s)))
                           (world s));
       inuse := remove Z.eq_dec ptr (inuse s) |}
    G (cache_set L t (ptr :: L t)) (own_set own ptr (InLocal t)).
Proof.
  intros Hvalid Hinv Hin.
  pose proof (inv_store_held _ _ Hvalid _ _ _ _ Hinv ptr
                (get_localCache t (world s)) Hin) as Hinv1.
  apply (inv_dealloc_set _ _ Hvalid _ _ _ _ Hinv1 t ptr Hin). simpl.
  apply load_store_ptr_same.
  exact (cache_head_range _ _ Hvalid _ _ _ _ Hinv t).
Qed.

Section Step.

Variable sizeT : Z.
Variable poolSize : nat.
Hypothesis Hvalid : valid_instance sizeT poolSize.

Variable s : Sys.
Variable G : list Z.
Variable L : tid -> list Z.
Variable own : Z -> option Owner.
Hypothesis Hinv : pool_inv sizeT poolSize s G L own.

(** One step of a well-formed call sequence: the invariant is kept and the
    global list can only lose its head. *)
Lemma exec_preserves (fuel : nat) (o : Op) :
  (0 < fuel)%nat -> op_ok sizeT s o ->
  exists G' L' own',
    pool_inv sizeT poolSize (exec fuel s o) G' L' own' /\
    (G' = G \/ G = freeList (pool s) :: G') /\
    buffer (pool (exec fuel s o)) = buffer (pool s) /\
    (forall t', L' t' = step_caches L o t').
Proof.
  intros Hfuel Hok. destruct o as [t | t ptr | a off b]; simpl in *.
  - destruct (Z.eq_dec (get_localCache t (world s)) nullptr) as [Hc|Hc].
    + assert (HLt : L t = []).
      { pose proof (inv_local _ _ _ _ _ _ Hinv t) as Hch.
        rewrite Hc in Hch. exact (chain_null _ _ Hch). }
      assert (HL : forall t', L t' = cache_set L t (tl (L t)) t').
      { intros t'. unfold cache_set. destruct (decide (t' = t)) as [->|];
          [now rewrite HLt | reflexivity]. }
      destruct (Z.eq_dec (freeList (pool s)) nullptr) as [Hh|Hh].
      * rewrite allocate_exhausted by assumption. simpl.
        exists G, L, own.
        split; [|split; [now left | split; [reflexivity | exact HL]]].
        destruct s. simpl in *. destruct Hinv. constructor; assumption.
      * rewrite allocate_slow by assumption.
        destruct (Z.eqb_spec (freeList (pool s)) nullptr); [contradiction|].
        destruct (chain_nonnull _ _ _ Hh (inv_global _ _ _ _ _ _ Hinv))
          as (G' & HG & _).
        exists G', L, (own_set own (freeList (pool s)) InUse).
        split; [|split; [now right | split; [reflexivity | exact HL]]].
        exact (inv_alloc_slow _ _ _ _ _ _ Hinv G' HG).
    + rewrite allocate_fast by assumption.
      destruct (Z.eqb_spec (get_localCache t (world s)) nullptr);
        [contradiction|].
      destruct (chain_nonnull _ _ _ Hc (inv_local _ _ _ _ _ _ Hinv t))
        as (l' & HL & _).
      exists G, (cache_set L t l'),
        (own_set own (get_localCache t (world s)) InUse).
      split; [|split; [now left | split; [reflexivity|]]].
      * exact (inv_alloc_fast _ _ _ _ _ _ Hinv t l' HL).
      * intros t'. now rewrite HL.
  - exists G, (cache_set L t (ptr :: L t)), (own_set own ptr (InLocal t)).
    split; [|split; [now left | split; reflexivity]].
    now apply inv_dealloc.
  - exists G, L, own. split; [|split; [now left | split; reflexivity]].
    destruct Hok as [Ha Hoff].
    exact (inv_write _ _ Hvalid _ _ _ _ Hinv a off b Ha Hoff).
Qed.

End Step.

(** ** From the constructor to every reachable state *)

Lemma construct_eq (sizeT : Z) (poolSize : nat)
  (aligned_alloc : gmap Z Z -> Z -> Z -> option Z) (w : World) :
  construct sizeT poolSize aligned_alloc w =
  match aligned_alloc (blocks w) CACHE_LINE (alloc_size sizeT poolSize) with
  | Some b =>
    if b =? nullptr then Throw bad_alloc
    else
      let st := build_free_list sizeT poolSize b (mem w) in
      Ok ({| buffer := b; freeList := snd st |},
          set_mem (fst st)
            (set_blocks (<[b := alloc_size sizeT poolSize]> (blocks w)) w))
  | None => Throw bad_alloc
  end.
Proof.
  unfold construct, bind, std_aligned_alloc, throw, gets, modify, ret.
  destruct (aligned_alloc _ _ _) as [b|]; [|reflexivity]. simpl.
  destruct (b =? nullptr); [reflexivity|]. cbn [mem set_blocks].
  destruct (build_free_list sizeT poolSize b (mem w)); reflexivity.
Qed.

Lemma CACHE_LINE_pow2 : exists k, 0 <= k /\ CACHE_LINE = 2 ^ k.
Proof. exists 6. split; [lia | reflexivity]. Qed.

Section Reachable.

Variable sizeT : Z.
Variable poolSize : nat.
Variable aligned_alloc : gmap Z Z -> Z -> Z -> option Z.
Hypothesis Hvalid : valid_instance sizeT poolSize.
Hypothesis Hcontract : aligned_alloc_contract aligned_alloc.

Lemma construct_block (w w' : World) (p : Pool) :
  construct sizeT poolSize aligned_alloc w = Ok (p, w') ->
  block_ok sizeT poolSize (buffer p) /\
  buffer p mod CACHE_LINE = 0 /\
  blocks w' !! buffer p = Some (alloc_size sizeT poolSize) /\
  _localCache w' = _localCache w /\
  aligned_alloc (blocks w) CACHE_LINE (alloc_size sizeT poolSize)
    = Some (buffer p).
Proof.
  rewrite construct_eq.
  destruct (aligned_alloc _ _ _) as [b|] eqn:Ea; [|discriminate].
  destruct (b =? nullptr); [discriminate|]. intros [= <- <-]. simpl.
  destruct (Hcontract _ _ _ _ CACHE_LINE_pow2
              (alloc_size_aligned sizeT poolSize) Ea)
    as (Hpos & Hal & Htop).
  repeat split; auto. apply lookup_insert_eq.
Qed.

Lemma construct_inv (w w' : World) (p : Pool) :
  caches_empty w ->
  construct sizeT poolSize aligned_alloc w = Ok (p, w') ->
  pool_inv sizeT poolSize {| pool := p; world := w'; inuse := [] |}
    (rev (slots sizeT poolSize (buffer p))) (fun _ => [])
    (own_fresh (slots sizeT poolSize (buffer p))).
Proof.
  intros Hempty Hc.
  destruct (construct_block _ _ _ Hc) as (Hblock & _ & _ & Hlc & _).
  revert Hc. rewrite construct_eq.
  destruct (aligned_alloc _ _ _) as [b|]; [|discriminate].
  destruct (b =? nullptr); [discriminate|]. intros [= <- <-].
  simpl in Hblock.
  destruct (build_free_list_chain sizeT poolSize b Hvalid Hblock (mem w))
    as [Hchain _].
  constructor; simpl.
  - exact Hblock.
  - exact Hchain.
  - intros t. apply (Hempty t).
  - apply NoDup_rev. now apply slots_NoDup.
  - intros _. constructor.
  - constructor.
  - intros a. unfold own_fresh. destruct (in_dec _ _ _); split;
      try tauto; try discriminate; congruence.
  - intros a. unfold own_fresh. rewrite <- in_rev.
    destruct (in_dec _ _ _); split; try tauto; discriminate.
  - intros a t. unfold own_fresh.
    destruct (in_dec _ _ _); split; try contradiction; discriminate.
  - intros a. unfold own_fresh.
    destruct (in_dec _ _ _); split; try contradiction; discriminate.
Qed.

Lemma run_preserves (fuel : nat) (ops : list Op) :
  (0 < fuel)%nat ->
  forall (s : Sys) (G : list Z) (L : tid -> list Z) (own : Z -> option Owner),
  pool_inv sizeT poolSize s G L own ->
  trace_ok sizeT fuel s ops ->
  exists G' L' own',
    pool_inv sizeT poolSize (run fuel s ops) G' L' own' /\
    (exists pre, G = pre ++ G') /\
    buffer (pool (run fuel s ops)) = buffer (pool s) /\
    (forall t, Forall (fun o => op_thread o <> Some t) ops -> L' t = L t).
Proof.
  intros Hfuel. induction ops as [|o ops IH]; intros s G L own Hinv Hok.
  - exists G, L, own. split; [exact Hinv|].
    split; [now exists []|]. split; reflexivity.
  - destruct Hok as [Ho Hok]. simpl.
    destruct (exec_preserves _ _ Hvalid _ _ _ _ Hinv fuel o Hfuel Ho)
      as (G1 & L1 & own1 & Hinv1 & HG1 & Hb1 & HL1).
    destruct (IH _ _ _ _ Hinv1 Hok)
      as (G2 & L2 & own2 & Hinv2 & [pre HG2] & Hb2 & HL2).
    exists G2, L2, own2. split; [exact Hinv2|].
    split; [|split; [congruence|]].
    + destruct HG1 as [->| ->].
      * now exists pre.
      * exists (freeList (pool s) :: pre). now rewrite HG2.
    + intros t [Ht Hall]%Forall_cons_iff. rewrite (HL2 t Hall), HL1.
      destruct o as [t0 | t0 ptr | a off b]; simpl in *;
        unfold cache_set; try reflexivity;
        (destruct (decide (t = t0)); [congruence | reflexivity]).
Qed.

End Reachable.

(** ** The three-way partition *)

Lemma inv_walks (sizeT : Z) (poolSize : nat) (s : Sys)
  (G : list Z) (L : tid -> list Z) (own : Z -> option Owner) :
  valid_instance sizeT poolSize ->
  pool_inv sizeT poolSize s G L own ->
  global_free poolSize s = G /\ forall t, local_free poolSize s t = L t.
Proof.
  intros Hvalid Hinv.
  assert (Hlen : forall l, List.NoDup l ->
            (forall a, In a l -> exists o, own a = Some o) ->
            (length l <= poolSize)%nat).
  { intros l Hnd Hl.
    rewrite <- (slots_length sizeT poolSize (buffer (pool s))).
    apply NoDup_incl_length; [exact Hnd|].
    intros a (o & Ho)%Hl. eapply owned_slot; eauto. }
  split; [|intros t]; apply chain_walk.
  - exact (inv_global _ _ _ _ _ _ Hinv).
  - apply Hlen; [exact (inv_nodup_G _ _ _ _ _ _ Hinv)|].
    intros a Ha%(G_owned _ _ _ _ _ _ Hinv). eauto.
  - exact (inv_local _ _ _ _ _ _ Hinv t).
  - apply Hlen; [exact (inv_nodup_L _ _ _ _ _ _ Hinv t)|].
    intros a Ha%(L_owned _ _ _ _ _ _ Hinv). eauto.
Qed.

Lemma inv_partition (sizeT : Z) (poolSize : nat) (s : Sys)
  (G : list Z) (L : tid -> list Z) (own : Z -> option Owner) :
  valid_instance sizeT poolSize ->
  pool_inv sizeT poolSize s G L own ->
  partition_ok sizeT poolSize s.
Proof.
  intros Hvalid Hinv. unfold partition_ok.
  destruct (inv_walks _ _ _ _ _ _ Hvalid Hinv) as [-> HL].
  pose proof (inv_own_slots _ _ _ _ _ _ Hinv) as HS.
  pose proof (inv_own_G _ _ _ _ _ _ Hinv) as HG.
  pose proof (inv_own_L _ _ _ _ _ _ Hinv) as HLo.
  pose proof (inv_own_U _ _ _ _ _ _ Hinv) as HU.
  repeat split.
  - intros Ha%HS. destruct (own a) as [[|t|]|] eqn:E; [| | |congruence].
    + left. now apply HG.
    + right; left. exists t. rewrite HL. now apply HLo.
    + right; right. now apply HU.
  - intros [Ha%HG | [(t & Ha) | Ha%HU]]; apply HS; try congruence.
    rewrite HL in Ha. apply HLo in Ha. congruence.
  - intros a Ha%HG Hb%HU. congruence.
  - intros a t Ha%HG Hb. rewrite HL in Hb. apply HLo in Hb. congruence.
  - intros a t Ha Hb%HU. rewrite HL in Ha. apply HLo in Ha. congruence.
  - intros a t t' Ha Hb. rewrite HL in Ha, Hb.
    apply HLo in Ha, Hb. congruence.
  - exact (inv_nodup_G _ _ _ _ _ _ Hinv).
  - intros t. rewrite HL. exact (inv_nodup_L _ _ _ _ _ _ Hinv t).
  - exact (inv_nodup_U _ _ _ _ _ _ Hinv).
Qed.

Lemma trace_ok_firstn (sizeT : Z) (fuel : nat) (ops : list Op) :
  forall (k : nat) (s : Sys),
  trace_ok sizeT fuel s ops -> trace_ok sizeT fuel s (firstn k ops).
Proof.
  induction ops as [|o ops IH]; intros [|k] s Hok; simpl in *; try tauto.
  destruct Hok as [Ho Hok]. split; [exact Ho | now apply IH].
Qed.

(** C1: from a new pool of a well-formed instantiation, built in a process
    whose thread caches are empty, after any number of steps of any call
    sequence that respects [deallocate]'s precondition the slots are
    partitioned into global list, thread caches and held addresses. *)
Theorem C1_partition_invariant
  (sizeT : Z) (poolSize : nat)
  (aligned_alloc : gmap Z Z -> Z -> Z -> option Z)
  (fuel : nat) (w w' : World) (p : Pool) (ops : list Op) (k : nat) :
  valid_instance sizeT poolSize ->
  aligned_alloc_contract aligned_alloc ->
  (0 < fuel)%nat ->
  caches_empty w ->
  construct sizeT poolSize aligned_alloc w = Ok (p, w') ->
  trace_ok sizeT fuel {| pool := p; world := w'; inuse := [] |} ops ->
  partition_ok sizeT poolSize
    (run fuel {| pool := p; world := w'; inuse := [] |} (firstn k ops)).
Proof.
  intros Hvalid Hcontract Hfuel Hempty Hc Hok.
  pose proof (construct_inv _ _ _ Hvalid Hcontract _ _ _ Hempty Hc) as Hinv.
  destruct (run_preserves _ _ Hvalid fuel (firstn k ops) Hfuel _ _ _ _ Hinv
              (trace_ok_firstn _ _ _ k _ Hok))
    as (G & L & own & Hinv' & _).
  exact (inv_partition _ _ _ _ _ _ Hvalid Hinv').
Qed.

(** The demonstration process meets the hypotheses. *)

Lemma bump_aligned_alloc_contract : aligned_alloc_contract bump_aligned_alloc.
Proof.
  intros bl al sz b (k & Hk & Hal) Hsz. unfold bump_aligned_alloc.
  assert (Hpos : 0 < al) by (subst al; apply Z.pow_pos_nonneg; lia).
  assert (Htop : 4096 <= heap_top bl) by apply Z.le_max_l.
  destruct ((0 <? al) && (0 <=? sz) &&
            (heap_top bl + (al - heap_top bl mod al) + sz <=? SIZE_MOD))
    eqn:E; [|discriminate].
  intros [= <-]. apply andb_prop in E as [E E3]. apply Z.leb_le in E3.
  pose proof (Z.mod_pos_bound (heap_top bl) al Hpos) as Hb.
  pose proof (Z.div_mod (heap_top bl) al ltac:(lia)) as Hdm.
  repeat split; [lia | | exact E3].
  replace (heap_top bl + (al - heap_top bl mod al))
    with ((heap_top bl / al + 1) * al) by lia.
  apply Z.mod_mul. lia.
Qed.

Lemma order_instance_valid : valid_instance 64 4.
Proof.
  unfold valid_instance, sizeof_FreeNode, CACHE_LINE. rewrite SIZE_MOD_eq. lia.
Qed.

Lemma start_world_caches_empty : caches_empty start_world.
Proof. intros t. reflexivity. Qed.

Lemma order_construct :
  construct 64 4 bump_aligned_alloc start_world = Ok (order_pool, order_world).
Proof. vm_compute. reflexivity. Qed.

Lemma C1_partition_invariant_witness :
  partition_ok 64 4 (run 1 order_sys (firstn 13 order_trace)).
Proof.
  apply (C1_partition_invariant 64 4 bump_aligned_alloc 1
           start_world order_world order_pool order_trace 13).
  - exact order_instance_valid.
  - exact bump_aligned_alloc_contract.
  - lia.
  - exact start_world_caches_empty.
  - exact order_construct.
  - vm_compute. repeat split; try discriminate; auto 10.
Defined.

(** ** Draining a new pool *)

Lemma alloc_seq_chain (fuel : nat) (G : list Z) :
  (0 < fuel)%nat ->
  forall (ts : list tid) (p : Pool) (w : World),
  length ts = length G ->
  caches_empty w ->
  chain (mem w) (freeList p) G ->
  alloc_seq fuel ts p w =
  (G, {| buffer := buffer p; freeList := nullptr |}, w).
Proof.
  intros Hfuel. induction G as [|a G IH]; intros [|t ts] p w Hlen He Hc;
    try discriminate; simpl in *.
  - rewrite <- Hc. now destruct p.
  - destruct Hc as (Hh & Hnz & Hc).
    rewrite allocate_slow by (rewrite ?Hh; auto).
    rewrite (IH ts) by (simpl; rewrite ?Hh; auto).
    simpl. now rewrite Hh.
Qed.

(** C2: a new pool of capacity [poolSize] hands out exactly its [poolSize]
    slots, highest first: non-null, pairwise distinct, inside the block; the
    next call, by any thread, returns [nullptr]. *)
Theorem C2_exhaustion_exact
  (sizeT : Z) (poolSize : nat)
  (aligned_alloc : gmap Z Z -> Z -> Z -> option Z)
  (fuel : nat) (w w' : World) (p : Pool) (ts : list tid) (t_next : tid) :
  valid_instance sizeT poolSize ->
  aligned_alloc_contract aligned_alloc ->
  (0 < fuel)%nat ->
  caches_empty w ->
  construct sizeT poolSize aligned_alloc w = Ok (p, w') ->
  length ts = poolSize ->
  let '(rs, p1, w1) := alloc_seq fuel ts p w' in
  rs = rev (slots sizeT poolSize (buffer p)) /\
  length rs = poolSize /\
  List.NoDup rs /\
  (forall r, In r rs ->
     r <> nullptr /\
     buffer p <= r /\ r + sizeT <= buffer p + alloc_size sizeT poolSize) /\
  blocks w' !! buffer p = Some (alloc_size sizeT poolSize) /\
  allocate fuel t_next p1 w1 = Ok ((nullptr, p1), w1).
Proof.
  intros Hvalid Hcontract Hfuel Hempty Hc Hlen.
  destruct (construct_block _ _ _ Hcontract _ _ _ Hc)
    as (Hblock & _ & Hbl & Hlc & _).
  assert (Hempty' : caches_empty w').
  { intros t. unfold get_localCache. rewrite Hlc. apply Hempty. }
  pose proof (construct_inv _ _ _ Hvalid Hcontract _ _ _ Hempty Hc) as Hinv.
  pose proof (inv_global _ _ _ _ _ _ Hinv) as Hchain. simpl in Hchain.
  rewrite (alloc_seq_chain fuel (rev (slots sizeT poolSize (buffer p)))
             Hfuel ts p w');
    [|now rewrite length_rev, slots_length | exact Hempty' | exact Hchain].
  split; [reflexivity|].
  split; [now rewrite length_rev, slots_length|].
  split; [apply NoDup_rev; now apply slots_NoDup|].
  split; [|split; [exact Hbl | now apply allocate_exhausted]].
  intros r Hr%in_rev. split.
  - now apply (slots_pointer _ _ _ Hvalid Hblock).
  - now apply (slots_in_block _ _ _ Hvalid).
Qed.

Lemma C2_exhaustion_exact_witness :
  let '(rs, p1, w1) :=
    alloc_seq 1 [0%nat; 1%nat; 0%nat; 2%nat] order_pool order_world in
  rs = rev (slots 64 4 (buffer order_pool)) /\
  length rs = 4%nat /\
  List.NoDup rs /\
  (forall r, In r rs ->
     r <> nullptr /\
     buffer order_pool <= r /\
     r + 64 <= buffer order_pool + alloc_size 64 4) /\
  blocks order_world !! buffer order_pool = Some (alloc_size 64 4) /\
  allocate 1 5%nat p1 w1 = Ok ((nullptr, p1), w1).
Proof.
  apply (C2_exhaustion_exact 64 4 bump_aligned_alloc 1
           start_world order_world order_pool
           [0%nat; 1%nat; 0%nat; 2%nat] 5%nat).
  - exact order_instance_valid.
  - exact bump_aligned_alloc_contract.
  - lia.
  - exact start_world_caches_empty.
  - exact order_construct.
  - reflexivity.
Defined.

Example order_pool_drained :
  fst (fst (alloc_seq 1 [0%nat; 0%nat; 0%nat; 0%nat; 0%nat]
              order_pool order_world))
  = [4352; 4288; 4224; 4160; 0].
Proof. vm_compute. reflexivity. Qed.

(** ** Reuse from the caller's cache *)

Lemma trace_ok_app (sizeT : Z) (fuel : nat) (l1 l2 : list Op) :
  forall s : Sys,
  trace_ok sizeT fuel s (l1 ++ l2) <->
  trace_ok sizeT fuel s l1 /\ trace_ok sizeT fuel (run fuel s l1) l2.
Proof.
  induction l1 as [|o l1 IH]; intros s; simpl; [tauto|].
  rewrite IH. tauto.
Qed.

Lemma alloc_from_cache (sizeT : Z) (poolSize : nat) (fuel : nat) (s : Sys)
  (G : list Z) (L : tid -> list Z) (own : Z -> option Owner)
  (t : tid) (a : Z) (l : list Z) :
  pool_inv sizeT poolSize s G L own ->
  L t = a :: l ->
  alloc_result fuel t s = Some a /\
  pool (exec fuel s (Alloc t)) = pool s.
Proof.
  intros Hinv HL. pose proof (inv_local _ _ _ _ _ _ Hinv t) as Hc.
  rewrite HL in Hc. destruct Hc as (Hh & Hnz & _).
  unfold alloc_result. simpl.
  rewrite allocate_fast by (rewrite Hh; exact Hnz).
  rewrite Hh. split; [reflexivity|].
  destruct (a =? nullptr); reflexivity.
Qed.

(** C3: in any state of the pool, if thread [t] deallocates [a1] and then
    [a2], then whatever the other threads do in between and afterwards, the
    next [allocate] of [t] returns [a2] and the one after it [a1], and
    neither call touches the global list. *)
Theorem C3_lifo_reuse
  (sizeT : Z) (poolSize : nat) (fuel : nat) (s : Sys)
  (G : list Z) (L : tid -> list Z) (own : Z -> option Owner)
  (t : tid) (a1 a2 : Z) (others0 others1 others2 : list Op) :
  valid_instance sizeT poolSize ->
  (0 < fuel)%nat ->
  pool_inv sizeT poolSize s G L own ->
  Forall (fun o => op_thread o <> Some t) others0 ->
  Forall (fun o => op_thread o <> Some t) others1 ->
  Forall (fun o => op_thread o <> Some t) others2 ->
  trace_ok sizeT fuel s
    ((Dealloc t a1 :: others0) ++ (Dealloc t a2 :: others1)
     ++ Alloc t :: others2) ->
  let s2 := run fuel s
              ((Dealloc t a1 :: others0) ++ (Dealloc t a2 :: others1)) in
  let s3 := run fuel s2 (Alloc t :: others2) in
  alloc_result fuel t s2 = Some a2 /\
  alloc_result fuel t s3 = Some a1 /\
  freeList (pool (exec fuel s2 (Alloc t))) = freeList (pool s2) /\
  freeList (pool (exec fuel s3 (Alloc t))) = freeList (pool s3).
Proof.
  intros Hvalid Hfuel Hinv Hno0 Hno1 Hno2 Hok s2 s3.
  rewrite app_assoc in Hok.
  apply trace_ok_app in Hok as [Hok1 Hok2]. fold s2 in Hok2.
  apply trace_ok_app in Hok1 as [Hok0 Hok1].
  destruct Hok0 as [Hd1 Hok0], Hok1 as [Hd2 Hok1], Hok2 as [Ho Hok2].
  destruct (exec_preserves _ _ Hvalid _ _ _ _ Hinv fuel _ Hfuel Hd1)
    as (Ga & La & owna & Hinva & _ & _ & HLa).
  destruct (run_preserves _ _ Hvalid fuel others0 Hfuel _ _ _ _ Hinva Hok0)
    as (Gb & Lb & ownb & Hinvb & _ & _ & HLb).
  destruct (exec_preserves _ _ Hvalid _ _ _ _ Hinvb fuel _ Hfuel Hd2)
    as (Gc & Lc & ownc & Hinvc & _ & _ & HLc).
  destruct (run_preserves _ _ Hvalid fuel others1 Hfuel _ _ _ _ Hinvc Hok1)
    as (G2 & L2 & own2 & Hinv2 & _ & _ & HL2).
  assert (Es2 : run fuel
                  (exec fuel (run fuel (exec fuel s (Dealloc t a1)) others0)
                     (Dealloc t a2)) others1 = s2).
  { unfold s2, run. rewrite fold_left_app. reflexivity. }
  rewrite Es2 in Hinv2.
  assert (HL2t : L2 t = a2 :: a1 :: L t).
  { rewrite (HL2 t Hno1), HLc. simpl. unfold cache_set at 1.
    rewrite decide_True by reflexivity. rewrite (HLb t Hno0), HLa. simpl.
    unfold cache_set. now rewrite decide_True by reflexivity. }
  destruct (alloc_from_cache _ _ fuel _ _ _ _ t _ _ Hinv2 HL2t) as [Hr2 Hp2].
  destruct (exec_preserves _ _ Hvalid _ _ _ _ Hinv2 fuel _ Hfuel Ho)
    as (Gd & Ld & ownd & Hinvd & _ & _ & HLd).
  destruct (run_preserves _ _ Hvalid fuel others2 Hfuel _ _ _ _ Hinvd Hok2)
    as (G3 & L3 & own3 & Hinv3 & _ & _ & HL3).
  change (pool_inv sizeT poolSize s3 G3 L3 own3) in Hinv3.
  assert (HL3t : L3 t = a1 :: L t).
  { rewrite (HL3 t Hno2), HLd. simpl. unfold cache_set.
    rewrite decide_True by reflexivity. now rewrite HL2t. }
  destruct (alloc_from_cache _ _ fuel _ _ _ _ t _ _ Hinv3 HL3t) as [Hr3 Hp3].
  repeat split; auto; congruence.
Qed.

Lemma order_drained_inv :
  exists G L own, pool_inv 64 4 order_drained G L own.
Proof.
  pose proof (construct_inv 64 4 bump_aligned_alloc order_instance_valid
                bump_aligned_alloc_contract _ _ _
                start_world_caches_empty order_construct) as Hinv.
  destruct (run_preserves 64 4 order_instance_valid 1
              [Alloc 0%nat; Alloc 0%nat; Alloc 0%nat; Alloc 0%nat; Alloc 0%nat]
              ltac:(lia) _ _ _ _ Hinv)
    as (G & L & own & Hinv' & _).
  - simpl. tauto.
  - exists G, L, own. exact Hinv'.
Qed.

Lemma C3_lifo_reuse_witness :
  let s2 := run 1 order_drained
              ((Dealloc 0%nat 4352 :: [Write 4160 5 Byte.x07])
               ++ (Dealloc 0%nat 4288 :: [Alloc 1%nat])) in
  let s3 := run 1 s2 [Alloc 0%nat; Write 4224 8 Byte.x01] in
  alloc_result 1 0%nat s2 = Some 4288 /\
  alloc_result 1 0%nat s3 = Some 4352 /\
  freeList (pool (exec 1 s2 (Alloc 0%nat))) = freeList (pool s2) /\
  freeList (pool (exec 1 s3 (Alloc 0%nat))) = freeList (pool s3).
Proof.
  destruct order_drained_inv as (G & L & own & Hinv).
  apply (C3_lifo_reuse 64 4 1 order_drained G L own 0%nat 4352 4288
           [Write 4160 5 Byte.x07] [Alloc 1%nat] [Write 4224 8 Byte.x01]).
  - exact order_instance_valid.
  - lia.
  - exact Hinv.
  - repeat constructor; discriminate.
  - repeat constructor; discriminate.
  - repeat constructor; discriminate.
  - vm_compute. repeat split; try discriminate; auto 10.
Defined.

Example order_reuse :
  let s2 := run 1 order_drained [Dealloc 0%nat 4352; Dealloc 0%nat 4288] in
  fst (fst (alloc_seq 1 [0%nat; 0%nat; 0%nat] (pool s2) (world s2)))
  = [4288; 4352; 0].
Proof. vm_compute. reflexivity. Qed.

(** ** What [deallocate] leaves alone *)

Lemma global_only_shrinks (sizeT : Z) (poolSize : nat) (fuel : nat) (s : Sys)
  (G : list Z) (L : tid -> list Z) (own : Z -> option Owner) (ops : list Op) :
  valid_instance sizeT poolSize ->
  (0 < fuel)%nat ->
  pool_inv sizeT poolSize s G L own ->
  trace_ok sizeT fuel s ops ->
  exists pre,
    global_free poolSize s = pre ++ global_free poolSize (run fuel s ops).
Proof.
  intros Hvalid Hfuel Hinv Hok.
  destruct (run_preserves _ _ Hvalid fuel ops Hfuel _ _ _ _ Hinv Hok)
    as (G' & L' & own' & Hinv' & Hpre & _).
  destruct (inv_walks _ _ _ _ _ _ Hvalid Hinv) as [-> _].
  destruct (inv_walks _ _ _ _ _ _ Hvalid Hinv') as [-> _].
  exact Hpre.
Qed.

(** C5: [deallocate] of a held slot leaves the pool object, the global list
    and its nodes' bytes, the heap and every other thread's cache as they
    were, and puts the slot at the front of the caller's cache; along any
    later calls the global list only loses elements, so an address that is in
    some thread's cache is never in the global list again. *)
Theorem C5_deallocate_frame
  (sizeT : Z) (poolSize : nat) (fuel : nat) (s : Sys)
  (G : list Z) (L : tid -> list Z) (own : Z -> option Owner)
  (t : tid) (ptr : Z) :
  valid_instance sizeT poolSize ->
  (0 < fuel)%nat ->
  pool_inv sizeT poolSize s G L own ->
  In ptr (inuse s) ->
  let s' := exec fuel s (Dealloc t ptr) in
  pool s' = pool s /\
  global_free poolSize s' = global_free poolSize s /\
  (forall a x, In a (global_free poolSize s) ->
     a <= x < a + sizeof_FreeNode ->
     mem (world s') x = mem (world s) x) /\
  (forall x, ~ (ptr <= x < ptr + sizeof_FreeNode) ->
     mem (world s') x = mem (world s) x) /\
  blocks (world s') = blocks (world s) /\
  (forall t', t' <> t ->
     get_localCache t' (world s') = get_localCache t' (world s) /\
     local_free poolSize s' t' = local_free poolSize s t') /\
  local_free poolSize s' t = ptr :: local_free poolSize s t /\
  (forall ops a t',
     trace_ok sizeT fuel s ops ->
     In a (local_free poolSize s t') ->
     ~ In a (global_free poolSize (run fuel s ops))).
Proof.
  intros Hvalid Hfuel Hinv Hin s'.
  destruct (exec_preserves _ _ Hvalid _ _ _ _ Hinv fuel (Dealloc t ptr)
              Hfuel Hin)
    as (G' & L' & own' & Hinv' & HG' & _ & HL').
  fold s' in Hinv'.
  destruct (inv_walks _ _ _ _ _ _ Hvalid Hinv) as [HwG HwL].
  destruct (inv_walks _ _ _ _ _ _ Hvalid Hinv') as [HwG' HwL'].
  assert (Hown : own ptr = Some InUse)
    by (apply (U_owned _ _ _ _ _ _ Hinv); exact Hin).
  assert (HGG : G' = G).
  { eapply chain_functional; [exact (inv_global _ _ _ _ _ _ Hinv')|].
    simpl. apply (store_held_global _ _ Hvalid _ _ _ _ Hinv). exact Hown. }
  assert (Hout : forall x, ~ (ptr <= x < ptr + sizeof_FreeNode) ->
            mem (world s') x = mem (world s) x).
  { intros x Hx. simpl. apply store_ptr_outside. lia. }
  split; [reflexivity|].
  split; [now rewrite HwG, HwG'|].
  split.
  { intros a x Ha Hx. apply Hout. rewrite HwG in Ha.
    apply (G_owned _ _ _ _ _ _ Hinv) in Ha.
    assert (Hap : apart ptr a)
      by (eapply (owned_apart _ _ Hvalid _ _ _ _ Hinv); eauto; discriminate).
    unfold apart in Hap. lia. }
  split; [exact Hout|].
  split; [reflexivity|].
  split.
  { intros t' Hne. split.
    - simpl. rewrite get_set_localCache.
      destruct (decide (t = t')); [congruence | reflexivity].
    - rewrite HwL, HwL', HL'. simpl. unfold cache_set.
      now rewrite decide_False by exact Hne. }
  split.
  { rewrite HwL, HwL', HL'. simpl. unfold cache_set.
    now rewrite decide_True by reflexivity. }
  intros ops a t' Hok Ha Hg.
  destruct (global_only_shrinks _ _ _ _ _ _ _ ops Hvalid Hfuel Hinv Hok)
    as [pre Hpre].
  assert (HaG : In a (global_free poolSize s))
    by (rewrite Hpre; apply in_or_app; now right).
  rewrite HwG in HaG. rewrite HwL in Ha.
  apply (G_owned _ _ _ _ _ _ Hinv) in HaG.
  apply (L_owned _ _ _ _ _ _ Hinv) in Ha. congruence.
Qed.

Lemma order_mixed_inv :
  exists G L own, pool_inv 64 4 order_mixed G L own.
Proof.
  pose proof (construct_inv 64 4 bump_aligned_alloc order_instance_valid
                bump_aligned_alloc_contract _ _ _
                start_world_caches_empty order_construct) as Hinv.
  destruct (run_preserves 64 4 order_instance_valid 1
              [Alloc 0%nat; Alloc 1%nat; Dealloc 1%nat 4288]
              ltac:(lia) _ _ _ _ Hinv)
    as (G & L & own & Hinv' & _).
  - vm_compute. auto 10.
  - exists G, L, own. exact Hinv'.
Qed.

(** In [order_mixed] the global list, a cache and the held slots are all
    non-empty. *)
Example order_mixed_lists :
  global_free 4 order_mixed = [4224; 4160] /\
  local_free 4 order_mixed 1%nat = [4288] /\
  local_free 4 order_mixed 0%nat = [] /\
  inuse order_mixed = [4352].
Proof. vm_compute. repeat split. Qed.

Lemma C5_deallocate_frame_witness :
  let s := order_mixed in
  let s' := exec 1 s (Dealloc 1%nat 4352) in
  pool s' = pool s /\
  global_free 4 s' = global_free 4 s /\
  (forall a x, In a (global_free 4 s) ->
     a <= x < a + sizeof_FreeNode ->
     mem (world s') x = mem (world s) x) /\
  (forall x, ~ (4352 <= x < 4352 + sizeof_FreeNode) ->
     mem (world s') x = mem (world s) x) /\
  blocks (world s') = blocks (world s) /\
  (forall t', t' <> 1%nat ->
     get_localCache t' (world s') = get_localCache t' (world s) /\
     local_free 4 s' t' = local_free 4 s t') /\
  local_free 4 s' 1%nat = 4352 :: local_free 4 s 1%nat /\
  (forall ops a t',
     trace_ok 64 1 s ops ->
     In a (local_free 4 s t') ->
     ~ In a (global_free 4 (run 1 s ops))).
Proof.
  destruct order_mixed_inv as (G & L & own & Hinv).
  apply (C5_deallocate_frame 64 4 1 order_mixed G L own 1%nat 4352).
  - exact order_instance_valid.
  - lia.
  - exact Hinv.
  - vm_compute. auto 10.
Defined.

(** ** Pointers the code may follow *)

Lemma dereferenceable_in_block (w : World) (a b sz : Z) :
  blocks w !! b = Some sz ->
  a <> nullptr -> b <= a -> a + sizeof_FreeNode <= b + sz ->
  dereferenceable w a = true.
Proof.
  intros Hb Hnz Hlo Hhi. unfold dereferenceable.
  apply andb_true_intro. split.
  - apply negb_true_iff. now apply Z.eqb_neq.
  - apply existsb_exists. exists (b, sz). split.
    + apply list_elem_of_In. now apply elem_of_map_to_list.
    + unfold in_block. cbn [fst snd].
      apply andb_true_intro. split; now apply Z.leb_le.
Qed.

Lemma dereferenceable_inv (w : World) (a : Z) :
  dereferenceable w a = true ->
  a <> nullptr /\
  exists b sz, blocks w !! b = Some sz /\
               b <= a /\ a + sizeof_FreeNode <= b + sz.
Proof.
  unfold dereferenceable. intros [Hnz Hex]%andb_prop.
  apply negb_true_iff, Z.eqb_neq in Hnz. split; [exact Hnz|].
  apply existsb_exists in Hex as ([b sz] & Hin & Hblk).
  apply list_elem_of_In, elem_of_map_to_list in Hin.
  unfold in_block in Hblk. cbn [fst snd] in Hblk.
  apply andb_prop in Hblk as [Hlo%Z.leb_le Hhi%Z.leb_le].
  eauto.
Qed.

Lemma dereferenceable_null (w : World) : dereferenceable w nullptr = false.
Proof. reflexivity. Qed.

Lemma checked_all {A} (w : World) (derefs : list Z) (c : M A) :
  (forall a, In a derefs -> dereferenceable w a = true) ->
  checked w derefs c =
  match c w with
  | Ok (a, w') => Returns a w'
  | Throw e => Throws e
  | Spin => Loops
  end.
Proof.
  intros Hall. unfold checked.
  assert (Hf : find (fun a => negb (dereferenceable w a)) derefs = None).
  { induction derefs as [|a l IH]; [reflexivity|]. cbn [find].
    rewrite (Hall a) by now left. cbn [negb].
    apply IH. intros a' Ha'. apply Hall. now right. }
  now rewrite Hf.
Qed.

Lemma checked_one {A} (w : World) (a : Z) (c : M A) :
  dereferenceable w a = false -> checked w [a] c = Wild a.
Proof. intros H. unfold checked. cbn [find]. now rewrite H. Qed.

Lemma allocate_deref_cases (t : tid) (p : Pool) (w : World) :
  (get_localCache t w <> nullptr /\
   allocate_deref t p w = [get_localCache t w]) \/
  (get_localCache t w = nullptr /\ freeList p <> nullptr /\
   allocate_deref t p w = [freeList p]) \/
  (get_localCache t w = nullptr /\ freeList p = nullptr /\
   allocate_deref t p w = []).
Proof.
  unfold allocate_deref.
  destruct (Z.eqb_spec (get_localCache t w) nullptr) as [Hc|Hc]; cbn [negb].
  - destruct (Z.eqb_spec (freeList p) nullptr) as [Hh|Hh]; auto.
  - auto.
Qed.

(** ** The result of [allocate] *)

Lemma allocate_returns (fuel : nat) (t : tid) (p : Pool) (w : World) :
  exists r p' w',
    allocate (S fuel) t p w = Ok ((r, p'), w') /\
    (r = nullptr <-> get_localCache t w = nullptr /\ freeList p = nullptr).
Proof.
  destruct (Z.eq_dec (get_localCache t w) nullptr) as [Hc|Hc].
  - destruct (Z.eq_dec (freeList p) nullptr) as [Hh|Hh].
    + rewrite allocate_exhausted by (auto; lia).
      do 3 eexists. split; [reflexivity | tauto].
    + rewrite allocate_slow by (auto; lia).
      do 3 eexists. split; [reflexivity | tauto].
  - rewrite allocate_fast by auto.
    do 3 eexists. split; [reflexivity | tauto].
Qed.

(** ** Alignment and size of the block *)

Lemma round_up_least (n k : Z) :
  0 < k ->
  n <= round_up n k < n + k /\ round_up n k mod k = 0.
Proof.
  intros Hk. unfold round_up.
  pose proof (Z.div_mod (n + k - 1) k ltac:(lia)) as Hdm.
  pose proof (Z.mod_pos_bound (n + k - 1) k Hk) as Hb.
  split; [lia | apply Z.mod_mul; lia].
Qed.

(** C7: the block of a constructed pool starts on a multiple of 64; the size
    passed to [aligned_alloc], recorded for the block, is a multiple of 64,
    and it is capacity times element size rounded up to a multiple of 64
    whenever that product, padded, fits [std::size_t]. *)
Theorem C7_alignment_contract
  (sizeT : Z) (poolSize : nat)
  (aligned_alloc : gmap Z Z -> Z -> Z -> option Z)
  (w w' : World) (p : Pool) :
  aligned_alloc_contract aligned_alloc ->
  construct sizeT poolSize aligned_alloc w = Ok (p, w') ->
  buffer p mod 64 = 0 /\
  aligned_alloc (blocks w) CACHE_LINE (alloc_size sizeT poolSize)
    = Some (buffer p) /\
  blocks w' !! buffer p = Some (alloc_size sizeT poolSize) /\
  alloc_size sizeT poolSize mod 64 = 0 /\
  (0 <= sizeT ->
   Z.of_nat poolSize * sizeT <= SIZE_MOD - CACHE_LINE ->
   alloc_size sizeT poolSize = round_up (Z.of_nat poolSize * sizeT) 64).
Proof.
  intros Hcontract Hc.
  destruct (construct_block _ _ _ Hcontract _ _ _ Hc)
    as (_ & Hal & Hbl & _ & Hreq).
  split; [exact Hal|]. split; [exact Hreq|]. split; [exact Hbl|].
  split; [apply alloc_size_aligned|].
  intros Hs Hfit. now apply alloc_size_fits.
Qed.

Lemma C7_alignment_contract_witness :
  buffer order_pool mod 64 = 0 /\
  bump_aligned_alloc (blocks start_world) CACHE_LINE (alloc_size 64 4)
    = Some (buffer order_pool) /\
  blocks order_world !! buffer order_pool = Some (alloc_size 64 4) /\
  alloc_size 64 4 mod 64 = 0 /\
  (0 <= 64 ->
   Z.of_nat 4 * 64 <= SIZE_MOD - CACHE_LINE ->
   alloc_size 64 4 = round_up (Z.of_nat 4 * 64) 64).
Proof.
  apply (C7_alignment_contract 64 4 bump_aligned_alloc
           start_world order_world order_pool).
  - exact bump_aligned_alloc_contract.
  - exact order_construct.
Defined.

(** The constructor's own example: 240 bytes are padded to 256. *)
Example alloc_size_240 : alloc_size 24 10 = 256.
Proof. reflexivity. Qed.

(** ** One cache per thread, shared by all pools of the instantiation *)

(** C8: [_localCache] belongs to the thread, not to a pool object: what
    thread [t] frees through pool [pA] is what its next [allocate] on any
    pool [pB] returns, leaving [pB]'s global list untouched; other threads'
    caches do not change. *)
Theorem C8_cache_shared_across_pools
  (fuel : nat) (t : tid) (pA pB : Pool) (ptr : Z) (w : World) :
  ptr <> nullptr ->
  exists w1 w2,
    deallocate t pA ptr w = Ok (tt, w1) /\
    allocate fuel t pB w1 = Ok ((ptr, pB), w2) /\
    get_localCache t w1 = ptr /\
    (forall t', t' <> t -> get_localCache t' w1 = get_localCache t' w).
Proof.
  intros Hnz. rewrite deallocate_eq. do 2 eexists.
  split; [reflexivity|].
  assert (Hc : get_localCache t
                 (set_localCache t ptr
                    (set_mem (store_ptr (mem w) ptr (get_localCache t w)) w))
               = ptr).
  { rewrite get_set_localCache. now rewrite decide_True by reflexivity. }
  split; [|split; [exact Hc|]].
  - rewrite allocate_fast by (rewrite Hc; exact Hnz).
    rewrite Hc. reflexivity.
  - intros t' Hne. rewrite get_set_localCache.
    now rewrite decide_False by congruence.
Qed.

Lemma second_construct :
  construct 64 4 bump_aligned_alloc order_world = Ok (second_pool, second_world).
Proof. vm_compute. reflexivity. Qed.

Lemma C8_cache_shared_across_pools_witness :
  exists w1 w2,
    deallocate 0%nat order_pool 4352 second_world = Ok (tt, w1) /\
    allocate 1 0%nat second_pool w1 = Ok ((4352, second_pool), w2) /\
    get_localCache 0%nat w1 = 4352 /\
    (forall t', t' <> 0%nat ->
       get_localCache t' w1 = get_localCache t' second_world).
Proof.
  apply (C8_cache_shared_across_pools 1 0%nat order_pool second_pool 4352
           second_world).
  discriminate.
Defined.

(** The address the second pool hands out is not one of its slots. *)
Example second_pool_foreign_slot :
  ~ In 4352 (slots 64 4 (buffer second_pool)) /\
  In 4352 (slots 64 4 (buffer order_pool)).
Proof. vm_compute. split; [intuition discriminate | auto 10]. Qed.

(** ** Destruction *)


(** After the first pool is destroyed, a slot of its freed block is still
    what thread 0 gets from the second pool. *)
Example dangling_after_destroy :
  let w1 := set_localCache 0%nat 4352 second_world in
  match destroy order_pool w1 with
  | Ok (_, w2) =>
    (blocks w2 !! 4160,
     alloc_result 1 0%nat {| pool := second_pool; world := w2; inuse := [] |})
  | _ => (None, None)
  end = (None, Some 4352).
Proof. vm_compute. reflexivity. Qed.

(** ** The footprint of a node write *)

Lemma store_bytes_inside (bs : list byte) :
  forall (m : Mem) (a : Z) (k : nat) (b : byte),
  nth_error bs k = Some b ->
  store_bytes m a bs (a + Z.of_nat k) = b.
Proof.
  induction bs as [|b0 bs IH]; intros m a [|k] b Hk; simpl in *;
    try discriminate.
  - injection Hk as <-. rewrite store_bytes_outside by lia.
    unfold mem_set. replace (a + Z.of_nat 0) with a by lia.
    now rewrite Z.eqb_refl.
  - replace (a + Z.of_nat (S k)) with (a + 1 + Z.of_nat k) by lia.
    now apply IH.
Qed.

Lemma store_ptr_inside (m : Mem) (a v : Z) (k : nat) :
  (k < FreeNode_bytes)%nat ->
  store_ptr m a v (a + Z.of_nat k) = ptr_byte v k.
Proof.
  intros Hk. unfold store_ptr. apply store_bytes_inside.
  now apply nth_error_le_split.
Qed.

Lemma link_rounds (sizeT : Z) (buf : Z) (m : Mem) (k : nat) :
  let st := fold_left (link_slot sizeT buf) (seq 0 k) (m, nullptr) in
  snd st = link_target sizeT buf k /\
  (forall x,
     (forall i, (i < k)%nat ->
        ~ (slot_addr sizeT buf i <= x
           < slot_addr sizeT buf i + sizeof_FreeNode)) ->
     fst st x = m x) /\
  (forall n j, k = S n -> (j < FreeNode_bytes)%nat ->
     fst st (slot_addr sizeT buf n + Z.of_nat j)
     = ptr_byte (link_target sizeT buf n) j).
Proof.
  induction k as [|k IH].
  - cbn. split; [reflexivity|]. split; [reflexivity | discriminate].
  - rewrite seq_S, fold_left_app. cbn [fold_left Nat.add].
    destruct (fold_left (link_slot sizeT buf) (seq 0 k) (m, nullptr))
      as [mk hk].
    cbn [fst snd] in IH. destruct IH as (Hh & Hfr & _).
    cbn [link_slot fst snd link_target].
    split; [reflexivity|]. split.
    + intros x Hx. rewrite store_ptr_outside.
      * apply Hfr. intros i Hi. apply Hx. lia.
      * specialize (Hx k ltac:(lia)). lia.
    + intros n j [= ->] Hj. rewrite Hh. now apply store_ptr_inside.
Qed.

Lemma link_bytes (sizeT : Z) (poolSize : nat) (buf : Z) (m : Mem) :
  valid_instance sizeT poolSize ->
  forall k, (k <= poolSize)%nat ->
  forall i j, (i < k)%nat -> (j < FreeNode_bytes)%nat ->
  fst (fold_left (link_slot sizeT buf) (seq 0 k) (m, nullptr))
    (slot_addr sizeT buf i + Z.of_nat j)
  = ptr_byte (link_target sizeT buf i) j.
Proof.
  intros Hvalid. induction k as [|k IH]; intros Hk i j Hi Hj; [lia|].
  destruct (Nat.eq_dec i k) as [->|Hne].
  - now apply (proj2 (proj2 (link_rounds sizeT buf m (S k)))).
  - rewrite seq_S, fold_left_app. cbn [fold_left Nat.add].
    specialize (IH ltac:(lia) i j ltac:(lia) Hj).
    destruct (fold_left (link_slot sizeT buf) (seq 0 k) (m, nullptr))
      as [mk hk].
    cbn [link_slot fst snd] in *. rewrite store_ptr_outside; [exact IH|].
    rewrite !(slot_addr_nowrap sizeT poolSize Hvalid) by lia.
    destruct Hvalid as [Hsz _].
    unfold sizeof_FreeNode, FreeNode_bytes in *.
    assert ((Z.of_nat i + 1) * sizeT <= Z.of_nat k * sizeT)
      by (apply Z.mul_le_mono_nonneg_r; lia).
    lia.
Qed.

(** C10: the constructor, which returns a pool whenever [aligned_alloc]
    returns a block, whatever [sizeof(T)] is, leaves in the last slot the
    eight bytes of the address of the slot before it.  With
    [sizeof(FreeNode) <= sizeof(T)] it leaves such a node at the start of
    each of the [poolSize] slots and has written nothing else, and the
    slots do not overlap, so every node lies in its own slot; with a smaller
    [sizeof(T)] the byte behind the end of the last slot belongs to its
    node.  [deallocate] of a pointer it may follow returns and has written
    the eight bytes of the caller's cache head at the start of the slot and
    nothing else: inside the slot's [sizeof(T)] bytes if
    [sizeof(FreeNode) <= sizeof(T)], over its end otherwise.  Neither
    function looks at [sizeof(T)]. *)
Theorem C10_overlay_bound
  (sizeT : Z) (poolSize : nat)
  (aligned_alloc : gmap Z Z -> Z -> Z -> option Z)
  (w : World) (b : Z) (t : tid) (p : Pool) (ptr : Z) (w0 : World) :
  aligned_alloc (blocks w) CACHE_LINE (alloc_size sizeT poolSize) = Some b ->
  b <> nullptr ->
  dereferenceable w0 ptr = true ->
  (exists p' w',
     construct sizeT poolSize aligned_alloc w = Ok (p', w') /\
     buffer p' = b /\
     (forall n k, poolSize = S n -> (k < FreeNode_bytes)%nat ->
        mem w' (slot_addr sizeT b n + Z.of_nat k)
        = ptr_byte (link_target sizeT b n) k) /\
     (forall x,
        (forall i, (i < poolSize)%nat ->
           ~ (slot_addr sizeT b i <= x
              < slot_addr sizeT b i + sizeof_FreeNode)) ->
        mem w' x = mem w x) /\
     (valid_instance sizeT poolSize ->
        (forall i k, (i < poolSize)%nat -> (k < FreeNode_bytes)%nat ->
           mem w' (slot_addr sizeT b i + Z.of_nat k)
           = ptr_byte (link_target sizeT b i) k) /\
        (forall i, (i < poolSize)%nat ->
           slot_addr sizeT b i + sizeof_FreeNode
           <= slot_addr sizeT b i + sizeT) /\
        (forall i j, (i < j < poolSize)%nat ->
           slot_addr sizeT b i + sizeT <= slot_addr sizeT b j)) /\
     (forall n, 0 <= sizeT < sizeof_FreeNode -> poolSize = S n ->
        mem w' (slot_addr sizeT b n + sizeT)
        = ptr_byte (link_target sizeT b n) (Z.to_nat sizeT))) /\
  (let w1 := set_localCache t ptr
               (set_mem (store_ptr (mem w0) ptr (get_localCache t w0)) w0) in
   deallocate_checked t p ptr w0 = Returns tt w1 /\
   (forall k, (k < FreeNode_bytes)%nat ->
      mem w1 (ptr + Z.of_nat k) = ptr_byte (get_localCache t w0) k) /\
   (forall x, ~ (ptr <= x < ptr + sizeof_FreeNode) -> mem w1 x = mem w0 x) /\
   (sizeof_FreeNode <= sizeT ->
    forall x, ~ (ptr <= x < ptr + sizeT) -> mem w1 x = mem w0 x) /\
   (0 <= sizeT < sizeof_FreeNode ->
    mem w1 (ptr + sizeT) = ptr_byte (get_localCache t w0) (Z.to_nat sizeT))).
Proof.
  intros Ha Hb Hptr. split.
  - rewrite construct_eq, Ha.
    destruct (Z.eqb_spec b nullptr) as [|_]; [contradiction|].
    do 2 eexists. split; [reflexivity|]. split; [reflexivity|].
    cbn [mem set_mem]. unfold build_free_list.
    destruct (link_rounds sizeT b (mem w) poolSize) as (_ & Hfr & Hlast).
    split; [exact Hlast|]. split; [exact Hfr|]. split.
    + intros Hvalid. split; [|split].
      * intros i k Hi Hk.
        now apply (link_bytes sizeT poolSize b (mem w) Hvalid poolSize).
      * intros i _. destruct Hvalid as [Hsz _]. lia.
      * intros i j Hij.
        rewrite !(slot_addr_nowrap sizeT poolSize Hvalid) by lia.
        destruct Hvalid as [Hsz _]. unfold sizeof_FreeNode in Hsz.
        assert ((Z.of_nat i + 1) * sizeT <= Z.of_nat j * sizeT)
          by (apply Z.mul_le_mono_nonneg_r; lia).
        lia.
    + intros n Hs Hn. unfold sizeof_FreeNode in Hs.
      replace (slot_addr sizeT b n + sizeT)
        with (slot_addr sizeT b n + Z.of_nat (Z.to_nat sizeT))
        by (rewrite Z2Nat.id; lia).
      apply Hlast; [exact Hn | unfold FreeNode_bytes; lia].
  - cbn zeta. split.
    { unfold deallocate_checked. rewrite checked_all.
      - now rewrite deallocate_eq.
      - intros a [<-|[]]. exact Hptr. }
    cbn [mem set_localCache set_mem].
    split; [intros k Hk; now apply store_ptr_inside|].
    split; [intros x Hx; apply store_ptr_outside; lia|].
    split; [intros Hs x Hx; apply store_ptr_outside; lia|].
    unfold sizeof_FreeNode. intros Hs.
    replace (ptr + sizeT) with (ptr + Z.of_nat (Z.to_nat sizeT))
      by (rewrite Z2Nat.id; lia).
    apply store_ptr_inside. unfold FreeNode_bytes. lia.
Qed.

Lemma C10_overlay_bound_witness :
  (exists p' w',
     construct 64 4 bump_aligned_alloc start_world = Ok (p', w') /\
     buffer p' = 4160 /\
     (forall n k, 4%nat = S n -> (k < FreeNode_bytes)%nat ->
        mem w' (slot_addr 64 4160 n + Z.of_nat k)
        = ptr_byte (link_target 64 4160 n) k) /\
     (forall x,
        (forall i, (i < 4)%nat ->
           ~ (slot_addr 64 4160 i <= x
              < slot_addr 64 4160 i + sizeof_FreeNode)) ->
        mem w' x = mem start_world x) /\
     (valid_instance 64 4 ->
        (forall i k, (i < 4)%nat -> (k < FreeNode_bytes)%nat ->
           mem w' (slot_addr 64 4160 i + Z.of_nat k)
           = ptr_byte (link_target 64 4160 i) k) /\
        (forall i, (i < 4)%nat ->
           slot_addr 64 4160 i + sizeof_FreeNode
           <= slot_addr 64 4160 i + 64) /\
        (forall i j, (i < j < 4)%nat ->
           slot_addr 64 4160 i + 64 <= slot_addr 64 4160 j)) /\
     (forall n, 0 <= 64 < sizeof_FreeNode -> 4%nat = S n ->
        mem w' (slot_addr 64 4160 n + 64)
        = ptr_byte (link_target 64 4160 n) (Z.to_nat 64))) /\
  (let w1 := set_localCache 1%nat 4352
               (set_mem (store_ptr (mem (world order_mixed)) 4352
                           (get_localCache 1%nat (world order_mixed)))
                  (world order_mixed)) in
   deallocate_checked 1%nat (pool order_mixed) 4352 (world order_mixed)
   = Returns tt w1 /\
   (forall k, (k < FreeNode_bytes)%nat ->
      mem w1 (4352 + Z.of_nat k)
      = ptr_byte (get_localCache 1%nat (world order_mixed)) k) /\
   (forall x, ~ (4352 <= x < 4352 + sizeof_FreeNode) ->
      mem w1 x = mem (world order_mixed) x) /\
   (sizeof_FreeNode <= 64 ->
    forall x, ~ (4352 <= x < 4352 + 64) ->
              mem w1 x = mem (world order_mixed) x) /\
   (0 <= 64 < sizeof_FreeNode ->
    mem w1 (4352 + 64)
    = ptr_byte (get_localCache 1%nat (world order_mixed)) (Z.to_nat 64))).
Proof.
  apply (C10_overlay_bound 64 4 bump_aligned_alloc start_world 4160
           1%nat (pool order_mixed) 4352 (world order_mixed)).
  - vm_compute. reflexivity.
  - discriminate.
  - vm_compute. reflexivity.
Defined.

(** [LockFreeMemoryPool<char, 2>]: the node of the second slot covers the
    seven bytes behind it and seven bytes of the first slot's node. *)
Example char_pool_overrun :
  match construct 1 2 bump_aligned_alloc start_world with
  | Ok (p, w) =>
    (load_ptr (mem w) 4161, load_ptr (mem w) 4160, mem w (4161 + 1))
  | _ => (0, 0, Byte.x00)
  end = (4160, 1064960, ptr_byte 4160 1).
Proof. vm_compute. reflexivity. Qed.

(** Without a live block under it, [deallocate]'s store has nowhere to go:
    a null pointer, and a slot of a pool that has been destroyed. *)
Example deallocate_wild :
  deallocate_checked 0%nat order_pool nullptr order_world = Wild nullptr /\
  deallocate_checked 0%nat order_pool 4352
    (set_blocks (delete 4160 (blocks order_world)) order_world) = Wild 4352.
Proof. vm_compute. split; reflexivity. Qed.

(** [LockFreeMemoryPool<char, 2>]: the second node write runs over the
    first one, and the third [allocate] returns the garbage it left. *)
Example char_pool_corrupted :
  match construct 1 2 bump_aligned_alloc start_world with
  | Ok (p, w) => fst (fst (alloc_seq 1 [0%nat; 0%nat; 0%nat] p w))
  | _ => []
  end = [4161; 4160; 1064960].
Proof. vm_compute. reflexivity. Qed.

(** ** Interleaved threads *)

Lemma allocate_mem (fuel : nat) (t : tid) (p p' : Pool) (w w' : World) (r : Z) :
  allocate fuel t p w = Ok ((r, p'), w') -> mem w' = mem w.
Proof.
  unfold allocate, bind, gets, modify, ret.
  destruct (negb (get_localCache t w =? nullptr)).
  - intros [= _ _ <-]. reflexivity.
  - destruct (pop_global fuel (freeList p) p (mem w)) as [[r' p'']|];
      [|discriminate].
    intros [= _ _ <-]. reflexivity.
Qed.

(** No step of a call sequence changes the [next] field of a node in the
    global list. *)
Lemma exec_keeps_next (sizeT : Z) (poolSize : nat) (fuel : nat) (s : Sys)
  (G : list Z) (L : tid -> list Z) (own : Z -> option Owner) (o : Op) (a : Z) :
  valid_instance sizeT poolSize ->
  pool_inv sizeT poolSize s G L own ->
  op_ok sizeT s o -> In a G ->
  load_ptr (mem (world (exec fuel s o))) a = load_ptr (mem (world s)) a.
Proof.
  intros Hvalid Hinv Hok Ha.
  pose proof (G_owned _ _ _ _ _ _ Hinv a Ha) as Hown.
  destruct o as [t | t ptr | b off v]; simpl in *.
  - destruct (allocate fuel t (pool s) (world s)) as [[[r p'] w']| |] eqn:E;
      try reflexivity.
    simpl. now rewrite (allocate_mem _ _ _ _ _ _ _ E).
  - apply load_store_ptr_other.
    apply (U_owned _ _ _ _ _ _ Hinv) in Hok.
    assert (Hap : apart ptr a)
      by (eapply (owned_apart _ _ Hvalid _ _ _ _ Hinv); eauto; discriminate).
    unfold apart in Hap. lia.
  - destruct Hok as [Hb Hoff]. apply (U_owned _ _ _ _ _ _ Hinv) in Hb.
    apply load_ptr_ext. intros x Hx. unfold mem_set.
    destruct (Z.eqb_spec x (b + off)) as [->|]; [|reflexivity].
    exfalso. assert (Hne : b <> a) by congruence.
    destruct (owned_separate _ _ Hvalid _ _ _ _ Hinv _ _ _ _ Hb Hown Hne);
      destruct Hvalid as [Hs _]; lia.
Qed.

Module ConcFacts.

Import Conc.

Lemma ctrace_ok_app (sizeT : Z) (l1 l2 : list Event) :
  forall s : CState,
  ctrace_ok sizeT s (l1 ++ l2) <->
  ctrace_ok sizeT s l1 /\ ctrace_ok sizeT (crun s l1) l2.
Proof.
  induction l1 as [|e l1 IH]; intros s; simpl; [tauto|].
  rewrite IH. tauto.
Qed.

Lemma set_pc_cas (pc : tid -> PC) (t t' : tid) (c : PC) (h n : Z) :
  set_pc pc t c t' = AllocCas h n ->
  (t' = t /\ c = AllocCas h n) \/ (t' <> t /\ pc t' = AllocCas h n).
Proof.
  unfold set_pc. destruct (decide (t' = t)); [left | right]; auto.
Qed.

Section Steps.

Variable sizeT : Z.
Variable poolSize : nat.
Hypothesis Hvalid : valid_instance sizeT poolSize.

Variable s : CState.
Variable G : list Z.
Variable L : tid -> list Z.
Variable own : Z -> option Owner.
Hypothesis Hinv : cinv sizeT poolSize s G L own.

Local Abbreviation Hpool := (ci_pool _ _ _ _ _ _ Hinv).

(** Writes into one slot do not change the [next] field of another. *)
Lemma store_other_next (a v a' : Z) (o o' : Owner) :
  own a = Some o -> own a' = Some o' -> a <> a' ->
  load_ptr (store_ptr (mem (world (sys s))) a v) a'
  = load_ptr (mem (world (sys s))) a'.
Proof.
  intros Ha Ha' Hne. apply load_store_ptr_other.
  destruct (owned_separate _ _ Hvalid _ _ _ _ Hpool _ _ _ _ Ha Ha' Hne);
    destruct Hvalid as [Hs _]; lia.
Qed.

Lemma write_other_next (a off : Z) (b : byte) (a' : Z) (o o' : Owner) :
  own a = Some o -> own a' = Some o' -> a <> a' -> 0 <= off < sizeT ->
  load_ptr (mem_set (mem (world (sys s))) (a + off) b) a'
  = load_ptr (mem (world (sys s))) a'.
Proof.
  intros Ha Ha' Hne Hoff. apply load_ptr_ext. intros x Hx. unfold mem_set.
  destruct (Z.eqb_spec x (a + off)) as [->|]; [|reflexivity].
  exfalso.
  destruct (owned_separate _ _ Hvalid _ _ _ _ Hpool _ _ _ _ Ha Ha' Hne);
    destruct Hvalid as [Hs _]; lia.
Qed.

(** A step that only moves thread [t] to the point [c]. *)
Lemma cinv_set_pc (t : tid) (c : PC) :
  (forall h n, c = AllocCas h n ->
     h <> nullptr /\ (In h G -> n = load_ptr (mem (world (sys s))) h)) ->
  (forall n, c = FastPop n ->
     n <> nullptr /\ get_localCache t (world (sys s)) = n) ->
  (forall a, dealloc_of c = Some a ->
     In a (inuse (sys s)) /\
     forall t', t' <> t -> dealloc_of (pcs s t') <> Some a) ->
  (forall a, c = DeallocStored a ->
     load_ptr (mem (world (sys s))) a = get_localCache t (world (sys s))) ->
  cinv sizeT poolSize {| sys := sys s; pcs := set_pc (pcs s) t c |} G L own.
Proof.
  intros Hcas Hfast Hdealloc Hstored.
  constructor; simpl; unfold set_pc.
  - exact Hpool.
  - intros t' h n. destruct (decide (t' = t)) as [->|]; [apply Hcas|].
    apply (ci_cas _ _ _ _ _ _ Hinv).
  - intros t' n. destruct (decide (t' = t)) as [->|]; [apply Hfast|].
    apply (ci_fast _ _ _ _ _ _ Hinv).
  - intros t' a. destruct (decide (t' = t)) as [->|].
    + intros Hd. now apply Hdealloc.
    + apply (ci_called _ _ _ _ _ _ Hinv).
  - intros t' a. destruct (decide (t' = t)) as [->|]; [apply Hstored|].
    apply (ci_stored _ _ _ _ _ _ Hinv).
  - intros t1 t2 a Hne.
    destruct (decide (t1 = t)) as [->|H1], (decide (t2 = t)) as [->|H2];
      try contradiction.
    + intros Hd. now apply (proj2 (Hdealloc a Hd)).
    + intros Hd1 Hd2. destruct (Hdealloc a Hd2) as [_ Hu].
      now apply (Hu t1).
    + now apply (ci_once _ _ _ _ _ _ Hinv).
Qed.

Lemma cstep_preserves (e : Event) :
  enabled sizeT s e ->
  exists G' L' own',
    cinv sizeT poolSize (cstep s e) G' L' own' /\
    (G' = G \/ G = freeList (pool (sys s)) :: G') /\
    buffer (pool (sys (cstep s e))) = buffer (pool (sys s)).
Proof.
  intros Hen.
  destruct e as [t | t | t | t | t | t | t ptr | t | t | a off b];
    simpl in Hen |- *.
  - (* fast path, read the cache *)
    exists G, L, own. split; [|split; [now left | reflexivity]].
    apply cinv_set_pc; try discriminate.
    intros n [= <-]. tauto.
  - (* fast path, pop *)
    destruct Hen as [n Hpc]. rewrite Hpc.
    destruct (ci_fast _ _ _ _ _ _ Hinv t n Hpc) as [Hnz Hc].
    assert (Hc' : get_localCache t (world (sys s)) <> nullptr) by congruence.
    destruct (chain_nonnull _ _ _ Hc' (inv_local _ _ _ _ _ _ Hpool t))
      as (l' & HL & _).
    exists G, (cache_set L t l'), (own_set own n InUse).
    split; [|split; [now left | reflexivity]].
    constructor; simpl.
    + rewrite <- Hc. exact (inv_alloc_fast _ _ _ _ _ _ Hpool t l' HL).
    + intros t' h n' [[_ [=]] | [_ Hpc']]%set_pc_cas.
      apply (ci_cas _ _ _ _ _ _ Hinv t' h n' Hpc').
    + unfold set_pc. intros t' n'.
      destruct (decide (t' = t)) as [->|Hne]; [discriminate|].
      intros Hpc'. rewrite get_set_localCache.
      rewrite decide_False by congruence.
      apply (ci_fast _ _ _ _ _ _ Hinv t' n' Hpc').
    + unfold set_pc. intros t' a.
      destruct (decide (t' = t)) as [->|Hne]; [discriminate|].
      intros Hd. right. apply (ci_called _ _ _ _ _ _ Hinv t' a Hd).
    + unfold set_pc. intros t' a.
      destruct (decide (t' = t)) as [->|Hne]; [discriminate|].
      intros Hpc'. rewrite get_set_localCache.
      rewrite decide_False by congruence.
      apply (ci_stored _ _ _ _ _ _ Hinv t' a Hpc').
    + unfold set_pc. intros t1 t2 a Hne.
      destruct (decide (t1 = t)) as [->|H1]; [discriminate|].
      destruct (decide (t2 = t)) as [->|H2]; [discriminate|].
      now apply (ci_once _ _ _ _ _ _ Hinv).
  - (* slow path, load the head *)
    exists G, L, own. split; [|split; [now left | reflexivity]].
    apply cinv_set_pc; discriminate.
  - (* slow path, test the head and read its successor *)
    destruct Hen as [h Hpc]. rewrite Hpc.
    exists G, L, own.
    destruct (Z.eqb_spec h nullptr) as [Hh|Hh];
      (split; [|split; [now left | reflexivity]]);
      apply cinv_set_pc; try discriminate.
    intros h' n' [= <- <-]. split; [exact Hh | reflexivity].
  - (* slow path, compare and swap *)
    destruct Hen as (h & n & Hpc). rewrite Hpc.
    destruct (ci_cas _ _ _ _ _ _ Hinv t h n Hpc) as [Hnz Hnext].
    unfold compare_exchange_weak.
    destruct (Z.eqb_spec (freeList (pool (sys s))) h) as [Hh|Hh];
      cbn iota beta.
    + assert (Hfl : freeList (pool (sys s)) <> nullptr)
        by (rewrite Hh; exact Hnz).
      destruct (chain_nonnull _ _ _ Hfl (inv_global _ _ _ _ _ _ Hpool))
        as (G' & HG & _).
      assert (Hn : n = load_ptr (mem (world (sys s)))
                         (freeList (pool (sys s)))).
      { rewrite Hh. apply Hnext. rewrite HG, Hh. now left. }
      exists G', L, (own_set own h InUse).
      split; [|split; [right; congruence | reflexivity]].
      constructor; simpl.
      * rewrite Hn, <- Hh.
        exact (inv_alloc_slow _ _ _ _ _ _ Hpool G' HG).
      * intros t' h' n' [[_ [=]] | [_ Hpc']]%set_pc_cas.
        destruct (ci_cas _ _ _ _ _ _ Hinv t' h' n' Hpc') as [Hnz' Hnext'].
        split; [exact Hnz'|]. intros Hin. apply Hnext'.
        rewrite HG. now right.
      * unfold set_pc. intros t' n'.
        destruct (decide (t' = t)) as [->|Hne]; [discriminate|].
        apply (ci_fast _ _ _ _ _ _ Hinv t' n').
      * unfold set_pc. intros t' a.
        destruct (decide (t' = t)) as [->|Hne]; [discriminate|].
        intros Hd. right. apply (ci_called _ _ _ _ _ _ Hinv t' a Hd).
      * unfold set_pc. intros t' a.
        destruct (decide (t' = t)) as [->|Hne]; [discriminate|].
        apply (ci_stored _ _ _ _ _ _ Hinv t' a).
      * unfold set_pc. intros t1 t2 a Hne.
        destruct (decide (t1 = t)) as [->|H1]; [discriminate|].
        destruct (decide (t2 = t)) as [->|H2]; [discriminate|].
        now apply (ci_once _ _ _ _ _ _ Hinv).
    + exists G, L, own. split; [|split; [now left | reflexivity]].
      apply cinv_set_pc; discriminate.
  - (* slow path, spurious failure *)
    destruct Hen as (h & n & Hpc). rewrite Hpc.
    exists G, L, own. split; [|split; [now left | reflexivity]].
    apply cinv_set_pc; discriminate.
  - (* deallocate is called *)
    destruct Hen as (Hpc & Hin & Hfree).
    exists G, L, own. split; [|split; [now left | reflexivity]].
    apply cinv_set_pc; try discriminate.
    intros a [= <-]. split; [exact Hin|]. intros t' _. apply Hfree.
  - (* deallocate, write the next field *)
    destruct Hen as [a Hpc]. rewrite Hpc.
    assert (Hin : In a (inuse (sys s)))
      by (apply (ci_called _ _ _ _ _ _ Hinv t a); now rewrite Hpc).
    pose proof (U_owned _ _ _ _ _ _ Hpool a Hin) as Hown.
    exists G, L, own. split; [|split; [now left | reflexivity]].
    constructor; simpl.
    + exact (inv_store_held _ _ Hvalid _ _ _ _ Hpool a _ Hin).
    + intros t' h n [[_ [=]] | [_ Hpc']]%set_pc_cas.
      destruct (ci_cas _ _ _ _ _ _ Hinv t' h n Hpc') as [Hnz Hnext].
      split; [exact Hnz|]. intros HhG.
      rewrite (store_other_next a _ h InUse InGlobal); auto.
      * apply (G_owned _ _ _ _ _ _ Hpool). exact HhG.
      * intros ->. apply (G_owned _ _ _ _ _ _ Hpool) in HhG. congruence.
    + unfold set_pc. intros t' n.
      destruct (decide (t' = t)) as [->|Hne]; [discriminate|].
      apply (ci_fast _ _ _ _ _ _ Hinv t' n).
    + unfold set_pc. intros t' a'.
      destruct (decide (t' = t)) as [->|Hne].
      * intros [= <-]. exact Hin.
      * apply (ci_called _ _ _ _ _ _ Hinv t' a').
    + unfold set_pc. intros t' a'.
      destruct (decide (t' = t)) as [->|Hne].
      * intros [= <-]. apply load_store_ptr_same.
        exact (cache_head_range _ _ Hvalid _ _ _ _ Hpool t).
      * intros Hpc'.
        assert (Hin' : In a' (inuse (sys s)))
          by (apply (ci_called _ _ _ _ _ _ Hinv t' a'); now rewrite Hpc').
        rewrite (store_other_next a _ a' InUse InUse); auto.
        -- apply (ci_stored _ _ _ _ _ _ Hinv t' a' Hpc').
        -- apply (U_owned _ _ _ _ _ _ Hpool). exact Hin'.
        -- intros <-.
           apply (ci_once _ _ _ _ _ _ Hinv t t' a); [congruence| |];
             [now rewrite Hpc | now rewrite Hpc'].
    + unfold set_pc. intros t1 t2 a' Hne.
      destruct (decide (t1 = t)) as [->|H1], (decide (t2 = t)) as [->|H2];
        try contradiction.
      * intros [= <-]. apply (ci_once _ _ _ _ _ _ Hinv t t2 a Hne).
        now rewrite Hpc.
      * intros Hd [= <-].
        apply (ci_once _ _ _ _ _ _ Hinv t1 t a Hne Hd). now rewrite Hpc.
      * now apply (ci_once _ _ _ _ _ _ Hinv).
  - (* deallocate, publish in the cache *)
    destruct Hen as [a Hpc]. rewrite Hpc.
    assert (Hin : In a (inuse (sys s)))
      by (apply (ci_called _ _ _ _ _ _ Hinv t a); now rewrite Hpc).
    pose proof (ci_stored _ _ _ _ _ _ Hinv t a Hpc) as Hnext.
    exists G, (cache_set L t (a :: L t)), (own_set own a (InLocal t)).
    split; [|split; [now left | reflexivity]].
    constructor; simpl.
    + exact (inv_dealloc_set _ _ Hvalid _ _ _ _ Hpool t a Hin Hnext).
    + intros t' h n [[_ [=]] | [_ Hpc']]%set_pc_cas.
      apply (ci_cas _ _ _ _ _ _ Hinv t' h n Hpc').
    + unfold set_pc. intros t' n.
      destruct (decide (t' = t)) as [->|Hne]; [discriminate|].
      intros Hpc'. rewrite get_set_localCache.
      rewrite decide_False by congruence.
      apply (ci_fast _ _ _ _ _ _ Hinv t' n Hpc').
    + unfold set_pc. intros t' a'.
      destruct (decide (t' = t)) as [->|Hne]; [discriminate|].
      intros Hd. apply in_remove_Z. split.
      * apply (ci_called _ _ _ _ _ _ Hinv t' a' Hd).
      * intros ->. apply (ci_once _ _ _ _ _ _ Hinv t' t a Hne Hd).
        now rewrite Hpc.
    + unfold set_pc. intros t' a'.
      destruct (decide (t' = t)) as [->|Hne]; [discriminate|].
      intros Hpc'. rewrite get_set_localCache.
      rewrite decide_False by congruence.
      apply (ci_stored _ _ _ _ _ _ Hinv t' a' Hpc').
    + unfold set_pc. intros t1 t2 a' Hne.
      destruct (decide (t1 = t)) as [->|H1]; [discriminate|].
      destruct (decide (t2 = t)) as [->|H2]; [discriminate|].
      now apply (ci_once _ _ _ _ _ _ Hinv).
  - (* a caller writes into a held slot *)
    destruct Hen as (Hin & Hoff & Hfree).
    pose proof (U_owned _ _ _ _ _ _ Hpool a Hin) as Hown.
    exists G, L, own. split; [|split; [now left | reflexivity]].
    constructor; simpl.
    + exact (inv_write _ _ Hvalid _ _ _ _ Hpool a off b Hin Hoff).
    + intros t' h n Hpc'.
      destruct (ci_cas _ _ _ _ _ _ Hinv t' h n Hpc') as [Hnz Hnext].
      split; [exact Hnz|]. intros HhG.
      rewrite (write_other_next a off b h InUse InGlobal); auto.
      * apply (G_owned _ _ _ _ _ _ Hpool). exact HhG.
      * intros ->. apply (G_owned _ _ _ _ _ _ Hpool) in HhG. congruence.
    + apply (ci_fast _ _ _ _ _ _ Hinv).
    + apply (ci_called _ _ _ _ _ _ Hinv).
    + intros t' a' Hpc'.
      assert (Hin' : In a' (inuse (sys s)))
        by (apply (ci_called _ _ _ _ _ _ Hinv t' a'); now rewrite Hpc').
      rewrite (write_other_next a off b a' InUse InUse); auto.
      * apply (ci_stored _ _ _ _ _ _ Hinv t' a' Hpc').
      * apply (U_owned _ _ _ _ _ _ Hpool). exact Hin'.
      * intros <-. apply (Hfree t'). now rewrite Hpc'.
    + apply (ci_once _ _ _ _ _ _ Hinv).
Qed.

End Steps.

Lemma crun_preserves (sizeT : Z) (poolSize : nat) (evs : list Event) :
  valid_instance sizeT poolSize ->
  forall (s : CState) (G : list Z) (L : tid -> list Z)
         (own : Z -> option Owner),
  cinv sizeT poolSize s G L own ->
  ctrace_ok sizeT s evs ->
  exists G' L' own',
    cinv sizeT poolSize (crun s evs) G' L' own' /\
    (exists pre, G = pre ++ G') /\
    buffer (pool (sys (crun s evs))) = buffer (pool (sys s)).
Proof.
  intros Hvalid. induction evs as [|e evs IH]; intros s G L own Hinv Hok.
  - exists G, L, own. split; [exact Hinv|]. split; [now exists []|reflexivity].
  - destruct Hok as [Hen Hok]. simpl.
    destruct (cstep_preserves _ _ Hvalid _ _ _ _ Hinv e Hen)
      as (G1 & L1 & own1 & Hinv1 & HG1 & Hb1).
    destruct (IH _ _ _ _ Hinv1 Hok)
      as (G2 & L2 & own2 & Hinv2 & [pre HG2] & Hb2).
    exists G2, L2, own2. split; [exact Hinv2|]. split; [|congruence].
    destruct HG1 as [->| ->].
    + now exists pre.
    + exists (freeList (pool (sys s)) :: pre). now rewrite HG2.
Qed.

Lemma cinit_inv (sizeT : Z) (poolSize : nat)
  (aligned_alloc : gmap Z Z -> Z -> Z -> option Z)
  (w w' : World) (p : Pool) :
  valid_instance sizeT poolSize ->
  aligned_alloc_contract aligned_alloc ->
  caches_empty w ->
  construct sizeT poolSize aligned_alloc w = Ok (p, w') ->
  cinv sizeT poolSize (cinit p w')
    (rev (slots sizeT poolSize (buffer p))) (fun _ => [])
    (own_fresh (slots sizeT poolSize (buffer p))).
Proof.
  intros Hvalid Hcontract Hempty Hc. constructor; simpl; try discriminate.
  exact (construct_inv _ _ _ Hvalid Hcontract _ _ _ Hempty Hc).
Qed.

(** A held address is a slot and is not the head of the global list. *)
Lemma held_not_head (sizeT : Z) (poolSize : nat) (y : Sys)
  (G : list Z) (L : tid -> list Z) (own : Z -> option Owner) (a : Z) :
  valid_instance sizeT poolSize ->
  pool_inv sizeT poolSize y G L own ->
  In a (inuse y) ->
  In a (slots sizeT poolSize (buffer (pool y))) /\ freeList (pool y) <> a.
Proof.
  intros Hvalid Hinv Ha. apply (U_owned _ _ _ _ _ _ Hinv) in Ha.
  split; [eapply owned_slot; eauto|].
  intros Hh.
  destruct (owned_pointer _ _ Hvalid _ _ _ _ Hinv _ _ Ha) as [Hnz _].
  rewrite <- Hh in Hnz.
  destruct (chain_nonnull _ _ _ Hnz (inv_global _ _ _ _ _ _ Hinv))
    as (G' & HG & _).
  assert (HaG : In a G) by (rewrite HG, Hh; now left).
  apply (G_owned _ _ _ _ _ _ Hinv) in HaG. congruence.
Qed.

(** What is about to be returned is a free slot: nobody holds it. *)
Lemma returned_free (sizeT : Z) (poolSize : nat) (s : CState)
  (G : list Z) (L : tid -> list Z) (own : Z -> option Owner)
  (e : Event) (t : tid) (r : Z) :
  cinv sizeT poolSize s G L own ->
  enabled sizeT s e ->
  returned s e = Some (t, r) -> r <> nullptr ->
  (own r = Some InGlobal \/ own r = Some (InLocal t)) /\
  inuse (sys (cstep s e)) = r :: inuse (sys s).
Proof.
  intros Hinv Hen Hret Hnz.
  pose proof (ci_pool _ _ _ _ _ _ Hinv) as Hpool.
  destruct e as [t0 | t0 | t0 | t0 | t0 | t0 | t0 ptr | t0 | t0 | a off b];
    simpl in *; try discriminate.
  - destruct (pcs s t0) as [|n| | | |] eqn:Hpc; try discriminate.
    injection Hret as <- <-.
    destruct (ci_fast _ _ _ _ _ _ Hinv t0 n Hpc) as [_ Hc].
    assert (Hc' : get_localCache t0 (world (sys s)) <> nullptr) by congruence.
    destruct (chain_nonnull _ _ _ Hc' (inv_local _ _ _ _ _ _ Hpool t0))
      as (l' & HL & _).
    split; [|reflexivity].
    right. apply (L_owned _ _ _ _ _ _ Hpool). rewrite HL, Hc. now left.
  - destruct (pcs s t0) as [| |h| | |]; try discriminate.
    destruct (h =? nullptr); [|discriminate].
    injection Hret as <- <-. contradiction.
  - destruct (pcs s t0) as [| | |h n| |] eqn:Hpc; try discriminate.
    unfold compare_exchange_weak.
    destruct (Z.eqb_spec (freeList (pool (sys s))) h) as [Hh|Hh];
      [|discriminate].
    injection Hret as <- <-.
    assert (Hfl : freeList (pool (sys s)) <> nullptr) by congruence.
    destruct (chain_nonnull _ _ _ Hfl (inv_global _ _ _ _ _ _ Hpool))
      as (G' & HG & _).
    split; [|reflexivity].
    left. apply (G_owned _ _ _ _ _ _ Hpool). rewrite HG, Hh. now left.
Qed.

(** C4: along every interleaving of the threads' atomic actions from a new
    pool, an [allocate] that returns a non-null address returns a slot that
    no caller holds at that moment (no earlier [allocate] returned it
    without a [deallocate] of it since); the held addresses stay pairwise
    distinct, none of them is the head of the global list, and so no other
    thread's compare-and-swap that still expects the returned slot as head
    can succeed. *)
Theorem C4_concurrent_pop_exclusive
  (sizeT : Z) (poolSize : nat)
  (aligned_alloc : gmap Z Z -> Z -> Z -> option Z)
  (w w' : World) (p : Pool) (evs : list Event) (e : Event)
  (t : tid) (r : Z) :
  valid_instance sizeT poolSize ->
  aligned_alloc_contract aligned_alloc ->
  caches_empty w ->
  construct sizeT poolSize aligned_alloc w = Ok (p, w') ->
  ctrace_ok sizeT (cinit p w') (evs ++ [e]) ->
  returned (crun (cinit p w') evs) e = Some (t, r) ->
  r <> nullptr ->
  let s := crun (cinit p w') evs in
  let s' := cstep s e in
  In r (slots sizeT poolSize (buffer p)) /\
  ~ In r (inuse (sys s)) /\
  inuse (sys s') = r :: inuse (sys s) /\
  List.NoDup (inuse (sys s')) /\
  (forall a, In a (inuse (sys s')) -> freeList (pool (sys s')) <> a) /\
  (forall t' n, pcs s' t' = AllocCas r n -> returned s' (EvCas t') = None).
Proof.
  intros Hvalid Hcontract Hempty Hc Hok Hret Hnz s s'.
  apply ctrace_ok_app in Hok as [Hok1 [Hen _]]. fold s in Hen.
  pose proof (cinit_inv _ _ _ _ _ _ Hvalid Hcontract Hempty Hc) as Hinit.
  destruct (crun_preserves _ _ evs Hvalid _ _ _ _ Hinit Hok1)
    as (G & L & own & Hinv & _ & Hbuf).
  fold s in Hinv, Hbuf. simpl in Hbuf.
  destruct (returned_free _ _ _ _ _ _ _ _ _ Hinv Hen Hret Hnz)
    as [Hfree Hheld].
  destruct (cstep_preserves _ _ Hvalid _ _ _ _ Hinv e Hen)
    as (G' & L' & own' & Hinv' & _ & _).
  fold s' in Hinv', Hheld.
  pose proof (ci_pool _ _ _ _ _ _ Hinv) as Hpool.
  pose proof (ci_pool _ _ _ _ _ _ Hinv') as Hpool'.
  assert (Hhead : forall a, In a (inuse (sys s')) ->
                            freeList (pool (sys s')) <> a).
  { intros a Ha. now apply (held_not_head _ _ _ _ _ _ a Hvalid Hpool'). }
  split.
  { rewrite <- Hbuf. destruct Hfree as [Ho|Ho]; eapply owned_slot; eauto. }
  split.
  { intros Hin%(U_owned _ _ _ _ _ _ Hpool). destruct Hfree; congruence. }
  split; [exact Hheld|].
  split; [exact (inv_nodup_U _ _ _ _ _ _ Hpool')|].
  split; [exact Hhead|].
  intros t' n Hpc. simpl. rewrite Hpc.
  destruct (Z.eqb_spec (freeList (pool (sys s'))) r) as [E|E]; [|reflexivity].
  exfalso. apply (Hhead r); [|exact E]. rewrite Hheld. now left.
Qed.

Lemma C4_concurrent_pop_exclusive_witness :
  let s := crun (cinit order_pool order_world) race_prefix in
  let s' := cstep s (EvCas 1%nat) in
  In 4288 (slots 64 4 (buffer order_pool)) /\
  ~ In 4288 (inuse (sys s)) /\
  inuse (sys s') = 4288 :: inuse (sys s) /\
  List.NoDup (inuse (sys s')) /\
  (forall a, In a (inuse (sys s')) -> freeList (pool (sys s')) <> a) /\
  (forall t' n, pcs s' t' = AllocCas 4288 n -> returned s' (EvCas t') = None).
Proof.
  apply (C4_concurrent_pop_exclusive 64 4 bump_aligned_alloc
           start_world order_world order_pool race_prefix (EvCas 1%nat)
           1%nat 4288).
  - exact order_instance_valid.
  - exact bump_aligned_alloc_contract.
  - exact start_world_caches_empty.
  - exact order_construct.
  - vm_compute. repeat split; eauto.
  - vm_compute. reflexivity.
  - discriminate.
Defined.

Example race_outcome :
  let s := crun (cinit order_pool order_world) race_prefix in
  returned (crun (cinit order_pool order_world)
              [EvLoadHead 0%nat; EvLoadHead 1%nat; EvTest 0%nat; EvTest 1%nat])
           (EvCas 0%nat) = Some (0%nat, 4352) /\
  returned (crun (cinit order_pool order_world)
              [EvLoadHead 0%nat; EvLoadHead 1%nat; EvTest 0%nat; EvTest 1%nat;
               EvCas 0%nat])
           (EvCas 1%nat) = None /\
  pcs s 1%nat = AllocCas 4288 4224 /\
  inuse (sys s) = [4352] /\
  inuse (sys (cstep s (EvCas 1%nat))) = [4288; 4352].
Proof. vm_compute. repeat split. Qed.

(** *** The sequential functions are the actions run without interference *)

Ltac run_pc :=
  repeat (unfold set_pc, with_world; simpl;
          rewrite ?decide_True by reflexivity).

(** From an idle thread the actions of one [allocate] can always run to the
    end without another thread in between, and then they have exactly the
    effect of the function [allocate]: the same pool, world and held
    addresses, with the thread idle again. *)
Lemma allocate_solo (sizeT : Z) (s : CState) (t : tid) :
  pcs s t = Idle ->
  ctrace_ok sizeT s (alloc_actions s t) /\
  sys (crun s (alloc_actions s t)) = exec 1 (sys s) (Alloc t) /\
  pcs (crun s (alloc_actions s t)) t = Idle.
Proof.
  intros Hpc. unfold alloc_actions. simpl.
  destruct (Z.eqb_spec (get_localCache t (world (sys s))) nullptr) as [Hc|Hc];
    simpl.
  - destruct (Z.eqb_spec (freeList (pool (sys s))) nullptr) as [Hh|Hh].
    + rewrite allocate_exhausted by (auto; lia).
      unfold crun. run_pc.
      rewrite Hh. change (nullptr =? nullptr) with true. run_pc.
      split; [repeat split; eauto|].
      split; [now destruct (sys s) | reflexivity].
    + rewrite allocate_slow by (auto; lia).
      apply Z.eqb_neq in Hh.
      unfold crun. run_pc. rewrite Hh. run_pc.
      unfold compare_exchange_weak. rewrite Z.eqb_refl. run_pc.
      split; [repeat split; eauto|]. split; reflexivity.
  - rewrite allocate_fast by exact Hc.
    pose proof Hc as Hc'. apply Z.eqb_neq in Hc'.
    unfold crun. run_pc. rewrite Hc'.
    split; [repeat split; eauto|]. split; reflexivity.
Qed.

(** The three actions of [deallocate] on a held slot, run without another
    thread in between, have exactly the effect of the function
    [deallocate]. *)
Lemma deallocate_solo (sizeT : Z) (s : CState) (t : tid) (ptr : Z) :
  pcs s t = Idle ->
  In ptr (inuse (sys s)) ->
  (forall t', dealloc_of (pcs s t') <> Some ptr) ->
  ctrace_ok sizeT s (dealloc_actions t ptr) /\
  sys (crun s (dealloc_actions t ptr)) = exec 1 (sys s) (Dealloc t ptr) /\
  pcs (crun s (dealloc_actions t ptr)) t = Idle.
Proof.
  intros Hpc Hin Hfree. unfold dealloc_actions, crun. run_pc.
  split; [repeat split; eauto|]. split; reflexivity.
Qed.

(** The slots stay partitioned along every interleaving; a slot passed to
    [deallocate] counts as held until line 123 has put it in the cache. *)
Lemma reachable_partition (sizeT : Z) (poolSize : nat)
  (aligned_alloc : gmap Z Z -> Z -> Z -> option Z)
  (w w' : World) (p : Pool) (evs : list Event) :
  valid_instance sizeT poolSize ->
  aligned_alloc_contract aligned_alloc ->
  caches_empty w ->
  construct sizeT poolSize aligned_alloc w = Ok (p, w') ->
  ctrace_ok sizeT (cinit p w') evs ->
  partition_ok sizeT poolSize (sys (crun (cinit p w') evs)).
Proof.
  intros Hvalid Hcontract Hempty Hc Hok.
  pose proof (cinit_inv _ _ _ _ _ _ Hvalid Hcontract Hempty Hc) as Hinit.
  destruct (crun_preserves _ _ evs Hvalid _ _ _ _ Hinit Hok)
    as (G & L & own & Hinv & _).
  exact (inv_partition _ _ _ _ _ _ Hvalid (ci_pool _ _ _ _ _ _ Hinv)).
Qed.

(** No thread inside a call ever waits for another one: its next action is
    enabled whatever the others are doing. *)
Lemma never_blocked (sizeT : Z) (s : CState) (t : tid) :
  pcs s t <> Idle ->
  exists e, actor e = Some t /\ enabled sizeT s e.
Proof.
  intros Hpc. destruct (pcs s t) as [|n|h|h n|a|a] eqn:E; [contradiction|..].
  - exists (EvFastPop t). simpl. eauto.
  - exists (EvTest t). simpl. eauto.
  - exists (EvCas t). simpl. eauto.
  - exists (EvDeallocStore t). simpl. eauto.
  - exists (EvDeallocSet t). simpl. eauto.
Qed.

(** A compare-and-swap that fails on its own account means the head has
    moved since this thread loaded it: another thread has popped a slot. *)
Lemma cas_failure_is_progress (s : CState) (t : tid) (h n : Z) :
  pcs s t = AllocCas h n ->
  returned s (EvCas t) = None ->
  freeList (pool (sys s)) <> h /\
  pcs (cstep s (EvCas t)) t = AllocLoop (freeList (pool (sys s))).
Proof.
  intros Hpc. simpl. rewrite Hpc. unfold compare_exchange_weak.
  destruct (Z.eqb_spec (freeList (pool (sys s))) h) as [Hh|Hh];
    [discriminate|].
  intros _. split; [exact Hh|]. simpl. unfold set_pc.
  now rewrite decide_True by reflexivity.
Qed.

End ConcFacts.

(** * Further properties of the code *)

(** ** The size of the block at the limits of [std::size_t] *)

Lemma alloc_size_range (sizeT : Z) (poolSize : nat) :
  0 <= alloc_size sizeT poolSize <= SIZE_MOD - CACHE_LINE.
Proof.
  pose proof (alloc_size_aligned sizeT poolSize) as Hal.
  assert (Hr : 0 <= alloc_size sizeT poolSize < SIZE_MOD).
  { unfold alloc_size, total_bytes, size_add, size_sub, size_mul.
    destruct (negb _); apply Z.mod_pos_bound; reflexivity. }
  unfold CACHE_LINE in *. rewrite SIZE_MOD_eq in *.
  pose proof (Z.div_mod (alloc_size sizeT poolSize) 64 ltac:(lia)) as Hdm.
  lia.
Qed.

(** The block requested by the constructor is big enough for the
    [poolSize] slots exactly when [poolSize * sizeof(T)] is at most
    [2^64 - 64]; then less than a cache line is added.  Beyond that the
    unsigned arithmetic wraps and the request is smaller than the slots. *)
Theorem alloc_size_covers_iff (sizeT : Z) (poolSize : nat) :
  0 <= sizeT ->
  (Z.of_nat poolSize * sizeT <= alloc_size sizeT poolSize <->
   Z.of_nat poolSize * sizeT <= SIZE_MOD - CACHE_LINE) /\
  (Z.of_nat poolSize * sizeT <= SIZE_MOD - CACHE_LINE ->
   alloc_size sizeT poolSize < Z.of_nat poolSize * sizeT + CACHE_LINE) /\
  (total_bytes sizeT poolSize mod CACHE_LINE = 0 ->
   alloc_size sizeT poolSize = total_bytes sizeT poolSize).
Proof.
  intros Hs. pose proof (alloc_size_range sizeT poolSize) as Hr.
  split; [split|split].
  - lia.
  - intros Hfit. rewrite (alloc_size_fits _ _ Hs Hfit).
    apply round_up_least. reflexivity.
  - intros Hfit. rewrite (alloc_size_fits _ _ Hs Hfit).
    apply round_up_least. reflexivity.
  - intros H0. unfold alloc_size. now rewrite H0.
Qed.

Lemma alloc_size_covers_iff_witness :
  (Z.of_nat 10 * 24 <= alloc_size 24 10 <->
   Z.of_nat 10 * 24 <= SIZE_MOD - CACHE_LINE) /\
  (Z.of_nat 10 * 24 <= SIZE_MOD - CACHE_LINE ->
   alloc_size 24 10 < Z.of_nat 10 * 24 + CACHE_LINE) /\
  (total_bytes 24 10 mod CACHE_LINE = 0 ->
   alloc_size 24 10 = total_bytes 24 10).
Proof. apply (alloc_size_covers_iff 24 10). lia. Defined.

(** With [poolSize = 2^61] elements of 8 bytes the product wraps to zero
    and the constructor asks for an empty block. *)
Example alloc_size_wrapped :
  alloc_size 8 (Z.to_nat (2 ^ 61)) = 0.
Proof.
  unfold alloc_size, total_bytes, size_mul.
  rewrite Z2Nat.id by (apply Z.pow_nonneg; lia). reflexivity.
Qed.

(** ** What the constructor touches *)

(** For a well-formed instantiation the constructor writes only into the
    node overlays of its slots, hence only inside the block it was given; it
    records that block as live, leaves every thread's cache alone and
    publishes the highest slot as head (null for an empty pool). *)
Theorem construct_frame
  (sizeT : Z) (poolSize : nat)
  (aligned_alloc : gmap Z Z -> Z -> Z -> option Z)
  (w w' : World) (p : Pool) :
  valid_instance sizeT poolSize ->
  aligned_alloc_contract aligned_alloc ->
  construct sizeT poolSize aligned_alloc w = Ok (p, w') ->
  (forall x,
     (forall a, In a (slots sizeT poolSize (buffer p)) ->
                ~ (a <= x < a + sizeof_FreeNode)) ->
     mem w' x = mem w x) /\
  (forall x,
     ~ (buffer p <= x < buffer p + alloc_size sizeT poolSize) ->
     mem w' x = mem w x) /\
  blocks w' = <[buffer p := alloc_size sizeT poolSize]> (blocks w) /\
  _localCache w' = _localCache w /\
  buffer p <> nullptr /\
  freeList p = hd nullptr (rev (slots sizeT poolSize (buffer p))) /\
  (poolSize = 0%nat -> freeList p = nullptr).
Proof.
  intros Hvalid Hcontract Hc.
  destruct (construct_block _ _ _ Hcontract _ _ _ Hc)
    as (Hblock & _ & _ & Hlc & _).
  revert Hc. rewrite construct_eq.
  destruct (aligned_alloc _ _ _) as [b|]; [|discriminate].
  destruct (Z.eqb_spec b nullptr) as [Hb|Hb]; [discriminate|].
  intros [= <- <-]. simpl in *.
  destruct (build_free_list_chain sizeT poolSize b Hvalid Hblock (mem w))
    as [Hchain Hframe].
  assert (Hfine : forall x,
            (forall a, In a (slots sizeT poolSize b) ->
                       ~ (a <= x < a + sizeof_FreeNode)) ->
            fst (build_free_list sizeT poolSize b (mem w)) x = mem w x)
    by exact Hframe.
  split; [exact Hfine|].
  split.
  { intros x Hx. apply Hfine. intros a Ha Hin.
    destruct (slots_in_block _ _ _ Hvalid a Ha) as [H1 H2].
    destruct Hvalid as [Hn _]. lia. }
  split; [reflexivity|]. split; [reflexivity|]. split; [exact Hb|].
  assert (Hhd : snd (build_free_list sizeT poolSize b (mem w))
                = hd nullptr (rev (slots sizeT poolSize b))).
  { destruct (rev (slots sizeT poolSize b)) as [|a l]; simpl in *.
    - exact Hchain.
    - now destruct Hchain as (-> & _). }
  split; [exact Hhd|].
  intros ->. rewrite Hhd. reflexivity.
Qed.

Lemma construct_frame_witness :
  (forall x,
     (forall a, In a (slots 64 4 (buffer order_pool)) ->
                ~ (a <= x < a + sizeof_FreeNode)) ->
     mem order_world x = mem start_world x) /\
  (forall x,
     ~ (buffer order_pool <= x < buffer order_pool + alloc_size 64 4) ->
     mem order_world x = mem start_world x) /\
  blocks order_world = <[buffer order_pool := alloc_size 64 4]>
                         (blocks start_world) /\
  _localCache order_world = _localCache start_world /\
  buffer order_pool <> nullptr /\
  freeList order_pool = hd nullptr (rev (slots 64 4 (buffer order_pool))) /\
  (4%nat = 0%nat -> freeList order_pool = nullptr).
Proof.
  apply (construct_frame 64 4 bump_aligned_alloc start_world order_world
           order_pool).
  - exact order_instance_valid.
  - exact bump_aligned_alloc_contract.
  - exact order_construct.
Defined.

(** ** What [allocate] touches *)

(** With at least one round of the loop, [allocate] either returns or
    follows a pointer it may not follow; it never throws and never spins.
    It returns whenever the one node it reads through (the cache head, or
    the global head when the cache is empty) lies in a live block, and then
    it has written no memory, changed no block, not [buffer] and no other
    thread's cache: with a non-empty cache it returns the cache head and
    leaves the pool object alone; with an empty cache it leaves the whole
    world alone and returns the global head, or null from an empty list. *)
Theorem allocate_frame
  (fuel : nat) (t : tid) (p : Pool) (w : World) :
  (0 < fuel)%nat ->
  ((forall a, In a (allocate_deref t p w) -> dereferenceable w a = true) ->
   exists r p' w',
     allocate_checked fuel t p w = Returns (r, p') w' /\
     mem w' = mem w /\
     blocks w' = blocks w /\
     buffer p' = buffer p /\
     (forall t', t' <> t -> get_localCache t' w' = get_localCache t' w) /\
     (get_localCache t w <> nullptr ->
      r = get_localCache t w /\ p' = p /\
      get_localCache t w' = load_ptr (mem w) r) /\
     (get_localCache t w = nullptr ->
      w' = w /\ r = freeList p /\
      (r = nullptr -> p' = p) /\
      (r <> nullptr -> freeList p' = load_ptr (mem w) r))) /\
  (forall a, In a (allocate_deref t p w) -> dereferenceable w a = false ->
   allocate_checked fuel t p w = Wild a /\
   (a = get_localCache t w \/
    get_localCache t w = nullptr /\ a = freeList p)).
Proof.
  intros Hfuel. split.
  - intros Hall. unfold allocate_checked. rewrite checked_all by exact Hall.
    destruct (Z.eq_dec (get_localCache t w) nullptr) as [Hc|Hc].
    + destruct (Z.eq_dec (freeList p) nullptr) as [Hh|Hh].
      * rewrite allocate_exhausted by assumption.
        do 3 eexists. split; [reflexivity|].
        repeat split; auto; try contradiction.
      * rewrite allocate_slow by assumption.
        do 3 eexists. split; [reflexivity|].
        repeat split; auto; try contradiction.
    + rewrite allocate_fast by exact Hc.
      do 3 eexists. split; [reflexivity|].
      split; [reflexivity|]. split; [reflexivity|]. split; [reflexivity|].
      split.
      { intros t' Hne. rewrite get_set_localCache.
        now rewrite decide_False by congruence. }
      split; [|contradiction].
      intros _. split; [reflexivity|]. split; [reflexivity|].
      rewrite get_set_localCache. now rewrite decide_True by reflexivity.
  - intros a Ha Hwild. unfold allocate_checked.
    destruct (allocate_deref_cases t p w)
      as [(Hc & E)|[(Hc & Hh & E)|(Hc & Hh & E)]];
      rewrite E in Ha |- *; cbn [In] in Ha.
    + destruct Ha as [<-|[]]. split; [now apply checked_one | now left].
    + destruct Ha as [<-|[]]. split; [now apply checked_one | now right].
    + contradiction.
Qed.

Lemma allocate_frame_witness :
  exists r p' w',
    allocate_checked 1 0%nat order_pool order_world = Returns (r, p') w' /\
    mem w' = mem order_world /\
    blocks w' = blocks order_world /\
    buffer p' = buffer order_pool /\
    (forall t', t' <> 0%nat ->
       get_localCache t' w' = get_localCache t' order_world) /\
    (get_localCache 0%nat order_world <> nullptr ->
     r = get_localCache 0%nat order_world /\ p' = order_pool /\
     get_localCache 0%nat w' = load_ptr (mem order_world) r) /\
    (get_localCache 0%nat order_world = nullptr ->
     w' = order_world /\ r = freeList order_pool /\
     (r = nullptr -> p' = order_pool) /\
     (r <> nullptr -> freeList p' = load_ptr (mem order_world) r)).
Proof.
  apply (proj1 (allocate_frame 1 0%nat order_pool order_world
                  ltac:(lia))).
  intros a [<-|[]]. vm_compute. reflexivity.
Defined.

(** A pool object whose head points nowhere: [allocate] follows it. *)
Example allocate_wild_head :
  allocate_checked 1 0%nat {| buffer := 4160; freeList := 8192 |} order_world
  = Wild 8192.
Proof. vm_compute. reflexivity. Qed.

(** ** Calls that cancel *)

Lemma nth_error_load_bytes (n : nat) : forall (m : Mem) (a : Z) (k : nat),
  (k < n)%nat -> nth_error (load_bytes m a n) k = Some (m (a + Z.of_nat k)).
Proof.
  induction n as [|n IH]; intros m a [|k] Hk; try lia;
    cbn [load_bytes nth_error].
  - do 2 f_equal. lia.
  - rewrite IH by lia. do 2 f_equal. lia.
Qed.

Lemma length_load_bytes (n : nat) (m : Mem) (a : Z) :
  length (load_bytes m a n) = n.
Proof. revert a. induction n as [|n IH]; intros a; simpl; auto. Qed.

(** Writing back the pointer just read changes no byte. *)
Lemma store_load_same (m : Mem) (a x : Z) :
  store_ptr m a (load_ptr m a) x = m x.
Proof.
  unfold store_ptr, load_ptr.
  pose proof (split_le_combine (load_bytes m a FreeNode_bytes)) as Hs.
  rewrite length_load_bytes in Hs. rewrite Hs.
  destruct (Z_lt_dec x a) as [Hlt|Hge].
  { apply store_bytes_outside. now left. }
  destruct (Z_le_dec (a + Z.of_nat FreeNode_bytes) x) as [Hle|Hin].
  { apply store_bytes_outside. right. now rewrite length_load_bytes. }
  replace x with (a + Z.of_nat (Z.to_nat (x - a))) by lia.
  apply store_bytes_inside. apply nth_error_load_bytes. lia.
Qed.

(** An [allocate] served from the caller's cache followed by [deallocate]
    of the result puts everything back: the same address is the cache head
    again and no byte of memory, no other cache and no pool field has
    changed. *)
Theorem allocate_deallocate_cancel
  (fuel : nat) (t : tid) (p : Pool) (w : World) :
  get_localCache t w <> nullptr ->
  exists r w1 w2,
    allocate fuel t p w = Ok ((r, p), w1) /\
    deallocate t p r w1 = Ok (tt, w2) /\
    r = get_localCache t w /\
    (forall x, mem w2 x = mem w x) /\
    (forall t', get_localCache t' w2 = get_localCache t' w) /\
    blocks w2 = blocks w.
Proof.
  intros Hc. rewrite allocate_fast by exact Hc.
  do 3 eexists. split; [reflexivity|]. rewrite deallocate_eq.
  split; [reflexivity|]. split; [reflexivity|].
  set (c := get_localCache t w).
  assert (Hc1 : get_localCache t (set_localCache t (load_ptr (mem w) c) w)
                = load_ptr (mem w) c).
  { rewrite get_set_localCache. now rewrite decide_True by reflexivity. }
  rewrite Hc1.
  split; [|split; [|reflexivity]].
  - intros x. cbn [mem set_localCache set_mem]. apply store_load_same.
  - intros t'. rewrite get_set_localCache, get_localCache_set_mem,
      get_set_localCache.
    destruct (decide (t = t')) as [<-|]; reflexivity.
Qed.

Lemma allocate_deallocate_cancel_witness :
  exists r w1 w2,
    allocate 1 0%nat order_pool (set_localCache 0%nat 4352 order_world)
      = Ok ((r, order_pool), w1) /\
    deallocate 0%nat order_pool r w1 = Ok (tt, w2) /\
    r = get_localCache 0%nat (set_localCache 0%nat 4352 order_world) /\
    (forall x, mem w2 x = mem (set_localCache 0%nat 4352 order_world) x) /\
    (forall t', get_localCache t' w2
                = get_localCache t' (set_localCache 0%nat 4352 order_world)) /\
    blocks w2 = blocks (set_localCache 0%nat 4352 order_world).
Proof.
  apply (allocate_deallocate_cancel 1 0%nat order_pool
           (set_localCache 0%nat 4352 order_world)).
  vm_compute. discriminate.
Defined.

(** ** Misuse: freeing the same address twice *)

(** [deallocate] does not notice a second call on the same address: the
    slot's [next] field then points to the slot itself, and from then on
    every [allocate] of that thread, on any pool, returns this one address
    again and again without ever reaching the global list. *)
Theorem double_free_cycles
  (fuel : nat) (t : tid) (p p' : Pool) (ptr : Z) (w : World) (k : nat) :
  ptr <> nullptr ->
  0 <= ptr < SIZE_MOD ->
  let w2 := after_deallocate t p ptr (after_deallocate t p ptr w) in
  load_ptr (mem w2) ptr = ptr /\
  get_localCache t w2 = ptr /\
  fst (fst (alloc_seq fuel (repeat t k) p' w2)) = repeat ptr k /\
  snd (fst (alloc_seq fuel (repeat t k) p' w2)) = p'.
Proof.
  intros Hnz Hrange w2.
  assert (Hc : get_localCache t w2 = ptr).
  { unfold w2, after_deallocate. rewrite !deallocate_eq.
    rewrite get_set_localCache. now rewrite decide_True by reflexivity. }
  assert (Hl : load_ptr (mem w2) ptr = ptr).
  { unfold w2, after_deallocate. rewrite !deallocate_eq. simpl.
    rewrite get_set_localCache. rewrite decide_True by reflexivity.
    now apply load_store_ptr_same. }
  split; [exact Hl|]. split; [exact Hc|].
  clearbody w2. revert w2 Hc Hl.
  induction k as [|k IH]; intros w2 Hc Hl; simpl; [split; reflexivity|].
  rewrite allocate_fast by (rewrite Hc; exact Hnz).
  rewrite Hc, Hl.
  specialize (IH (set_localCache t ptr w2)).
  destruct (alloc_seq fuel (repeat t k) p' (set_localCache t ptr w2))
    as [[rs p''] w''].
  simpl in *. destruct IH as [-> ->]; [| |split; reflexivity].
  - rewrite get_set_localCache. now rewrite decide_True by reflexivity.
  - exact Hl.
Qed.

Lemma double_free_cycles_witness :
  let w2 := after_deallocate 0%nat order_pool 4352
              (after_deallocate 0%nat order_pool 4352
                 (world order_drained)) in
  load_ptr (mem w2) 4352 = 4352 /\
  get_localCache 0%nat w2 = 4352 /\
  fst (fst (alloc_seq 1 (repeat 0%nat 3) second_pool w2)) = repeat 4352 3 /\
  snd (fst (alloc_seq 1 (repeat 0%nat 3) second_pool w2)) = second_pool.
Proof.
  apply (double_free_cycles 1 0%nat order_pool second_pool 4352
           (world order_drained) 3).
  - discriminate.
  - rewrite SIZE_MOD_eq. lia.
Defined.

(** ** Construction followed by destruction *)

(** Building a pool in a block that was not live and destroying it at once
    restores the heap's set of live blocks and leaves the thread caches as
    they were; the node links written into the block stay in memory. *)
Theorem construct_destroy_no_leak
  (sizeT : Z) (poolSize : nat)
  (aligned_alloc : gmap Z Z -> Z -> Z -> option Z)
  (w w1 : World) (p : Pool) :
  construct sizeT poolSize aligned_alloc w = Ok (p, w1) ->
  blocks w !! buffer p = None ->
  exists w2,
    destroy p w1 = Ok (tt, w2) /\
    blocks w2 = blocks w /\
    _localCache w2 = _localCache w /\
    mem w2 = mem w1.
Proof.
  rewrite construct_eq.
  destruct (aligned_alloc _ _ _) as [b|]; [|discriminate].
  destruct (b =? nullptr); [discriminate|]. intros [= <- <-] Hfresh.
  eexists. split; [reflexivity|]. simpl in *.
  split; [|split; reflexivity].
  rewrite delete_insert_eq. now apply delete_id.
Qed.

Lemma construct_destroy_no_leak_witness :
  exists w2,
    destroy order_pool order_world = Ok (tt, w2) /\
    blocks w2 = blocks start_world /\
    _localCache w2 = _localCache start_world /\
    mem w2 = mem order_world.
Proof.
  apply (construct_destroy_no_leak 64 4 bump_aligned_alloc
           start_world order_world order_pool).
  - exact order_construct.
  - reflexivity.
Defined.

(** ** Facts about every reachable state *)

Lemma allocate_cases
  (fuel : nat) (t : tid) (p p' : Pool) (w w' : World) (r : Z) :
  allocate fuel t p w = Ok ((r, p'), w') ->
  (get_localCache t w <> nullptr /\ r = get_localCache t w /\ p' = p /\
   w' = set_localCache t (load_ptr (mem w) (get_localCache t w)) w) \/
  (get_localCache t w = nullptr /\ r = freeList p /\ w' = w /\
   buffer p' = buffer p).
Proof.
  intros Ha.
  destruct (Z.eq_dec (get_localCache t w) nullptr) as [Hc|Hc].
  - right. destruct fuel as [|fuel].
    { revert Ha. unfold allocate, bind, gets, ret. rewrite Hc. simpl.
      discriminate. }
    destruct (Z.eq_dec (freeList p) nullptr) as [Hh|Hh].
    + rewrite allocate_exhausted in Ha by (auto; lia).
      injection Ha as <- <- <-. auto.
    + rewrite allocate_slow in Ha by (auto; lia).
      injection Ha as <- <- <-. auto.
  - left. rewrite allocate_fast in Ha by exact Hc.
    injection Ha as <- <- <-. auto.
Qed.

Lemma exec_blocks (fuel : nat) (s : Sys) (o : Op) :
  blocks (world (exec fuel s o)) = blocks (world s).
Proof.
  destruct o as [t | t ptr | a off b]; simpl; try reflexivity.
  destruct (allocate fuel t (pool s) (world s)) as [[[r p'] w']| |] eqn:E;
    try reflexivity.
  simpl. now destruct (allocate_cases _ _ _ _ _ _ _ E)
    as [(_ & _ & _ & ->)|(_ & _ & -> & _)].
Qed.

Lemma run_blocks (fuel : nat) (ops : list Op) : forall s : Sys,
  blocks (world (run fuel s ops)) = blocks (world s).
Proof.
  induction ops as [|o ops IH]; intros s; [reflexivity|].
  change (run fuel s (o :: ops)) with (run fuel (exec fuel s o) ops).
  now rewrite IH, exec_blocks.
Qed.

(** A reachable state satisfies the pool invariant, its block is live and
    starts on a cache line. *)
Lemma reachable_inv (sizeT : Z) (poolSize : nat)
  (aligned_alloc : gmap Z Z -> Z -> Z -> option Z) (fuel : nat) (s : Sys) :
  valid_instance sizeT poolSize ->
  aligned_alloc_contract aligned_alloc ->
  (0 < fuel)%nat ->
  reachable sizeT poolSize aligned_alloc fuel s ->
  (exists G L own, pool_inv sizeT poolSize s G L own) /\
  buffer (pool s) mod CACHE_LINE = 0 /\
  blocks (world s) !! buffer (pool s) = Some (alloc_size sizeT poolSize).
Proof.
  intros Hvalid Hcontract Hfuel (w & w' & p & ops & Hempty & Hc & Hok & ->).
  pose proof (construct_inv _ _ _ Hvalid Hcontract _ _ _ Hempty Hc) as Hinv.
  destruct (run_preserves _ _ Hvalid fuel ops Hfuel _ _ _ _ Hinv Hok)
    as (G & L & own & Hinv' & _ & Hbuf & _).
  destruct (construct_block _ _ _ Hcontract _ _ _ Hc)
    as (_ & Hal & Hbl & _ & _).
  split; [eauto|]. rewrite Hbuf, run_blocks. simpl. now split.
Qed.

Lemma reachable_run (sizeT : Z) (poolSize : nat)
  (aligned_alloc : gmap Z Z -> Z -> Z -> option Z) (fuel : nat)
  (s : Sys) (ops : list Op) :
  reachable sizeT poolSize aligned_alloc fuel s ->
  trace_ok sizeT fuel s ops ->
  reachable sizeT poolSize aligned_alloc fuel (run fuel s ops).
Proof.
  intros (w & w' & p & ops0 & Hempty & Hc & Hok0 & ->) Hok.
  exists w, w', p, (ops0 ++ ops). split; [exact Hempty|].
  split; [exact Hc|]. split.
  - apply trace_ok_app. now split.
  - unfold run. now rewrite fold_left_app.
Qed.

Lemma order_drained_reachable :
  reachable 64 4 bump_aligned_alloc 1 order_drained.
Proof.
  exists start_world, order_world, order_pool,
    [Alloc 0%nat; Alloc 0%nat; Alloc 0%nat; Alloc 0%nat; Alloc 0%nat].
  split; [exact start_world_caches_empty|].
  split; [exact order_construct|].
  split; [simpl; tauto | reflexivity].
Qed.

(** *** Capacity *)

(** The held addresses, the global list and any one thread's cache together
    never have more than [poolSize] elements; in particular no more than
    [poolSize] addresses are held at any time. *)
Theorem capacity_bound
  (sizeT : Z) (poolSize : nat)
  (aligned_alloc : gmap Z Z -> Z -> Z -> option Z) (fuel : nat)
  (s : Sys) (t : tid) :
  valid_instance sizeT poolSize ->
  aligned_alloc_contract aligned_alloc ->
  (0 < fuel)%nat ->
  reachable sizeT poolSize aligned_alloc fuel s ->
  (length (inuse s) + length (global_free poolSize s)
   + length (local_free poolSize s t) <= poolSize)%nat.
Proof.
  intros Hvalid Hcontract Hfuel Hreach.
  destruct (reachable_inv _ _ _ _ _ Hvalid Hcontract Hfuel Hreach)
    as ((G & L & own & Hinv) & _).
  destruct (inv_walks _ _ _ _ _ _ Hvalid Hinv) as [-> HL]. rewrite HL.
  rewrite <- Nat.add_assoc, <- !length_app.
  rewrite <- (slots_length sizeT poolSize (buffer (pool s))).
  apply NoDup_incl_length.
  - apply List.NoDup_app; [exact (inv_nodup_U _ _ _ _ _ _ Hinv)| |].
    + apply List.NoDup_app;
        [exact (inv_nodup_G _ _ _ _ _ _ Hinv)
        |exact (inv_nodup_L _ _ _ _ _ _ Hinv t)|].
      intros a Ha%(G_owned _ _ _ _ _ _ Hinv) Hb%(L_owned _ _ _ _ _ _ Hinv).
      congruence.
    + intros a Ha%(U_owned _ _ _ _ _ _ Hinv) [Hb|Hb]%in_app_iff.
      * apply (G_owned _ _ _ _ _ _ Hinv) in Hb. congruence.
      * apply (L_owned _ _ _ _ _ _ Hinv) in Hb. congruence.
  - intros a [Ha|[Ha|Ha]%in_app_iff]%in_app_iff.
    + apply (U_owned _ _ _ _ _ _ Hinv) in Ha. eapply owned_slot; eauto.
    + apply (G_owned _ _ _ _ _ _ Hinv) in Ha. eapply owned_slot; eauto.
    + apply (L_owned _ _ _ _ _ _ Hinv) in Ha. eapply owned_slot; eauto.
Qed.

Lemma capacity_bound_witness :
  (length (inuse order_drained) + length (global_free 4 order_drained)
   + length (local_free 4 order_drained 0%nat) <= 4)%nat.
Proof.
  apply (capacity_bound 64 4 bump_aligned_alloc 1 order_drained 0%nat).
  - exact order_instance_valid.
  - exact bump_aligned_alloc_contract.
  - lia.
  - exact order_drained_reachable.
Defined.

(** *** Objects handed out *)



Lemma alloc_result_owned (sizeT : Z) (poolSize : nat) (fuel : nat) (s : Sys)
  (G : list Z) (L : tid -> list Z) (own : Z -> option Owner)
  (t : tid) (r : Z) :
  pool_inv sizeT poolSize s G L own ->
  alloc_result fuel t s = Some r -> r <> nullptr ->
  own r = Some InGlobal \/ own r = Some (InLocal t).
Proof.
  intros Hinv Hr Hnz. unfold alloc_result in Hr.
  destruct (allocate fuel t (pool s) (world s)) as [[[r' p'] w']| |] eqn:E;
    try discriminate.
  injection Hr as ->.
  destruct (allocate_cases _ _ _ _ _ _ _ E)
    as [(Hc & -> & _)|(Hc & -> & _)]; [right|left].
  - destruct (chain_nonnull _ _ _ Hc (inv_local _ _ _ _ _ _ Hinv t))
      as (l' & HL & _).
    apply (L_owned _ _ _ _ _ _ Hinv). rewrite HL. now left.
  - destruct (chain_nonnull _ _ _ Hnz (inv_global _ _ _ _ _ _ Hinv))
      as (G' & HG & _).
    apply (G_owned _ _ _ _ _ _ Hinv). rewrite HG. now left.
Qed.

(** Whatever [allocate] returns in a reachable state, if not null, is
    [buffer + i * sizeof(T)] for some [i < poolSize], has [sizeof(T)] bytes
    inside the block, is held by nobody, and is a multiple of every
    alignment that divides both 64 and [sizeof(T)]. *)
Theorem allocate_returns_aligned_slot
  (sizeT : Z) (poolSize : nat)
  (aligned_alloc : gmap Z Z -> Z -> Z -> option Z) (fuel : nat)
  (s : Sys) (t : tid) (r : Z) :
  valid_instance sizeT poolSize ->
  aligned_alloc_contract aligned_alloc ->
  (0 < fuel)%nat ->
  reachable sizeT poolSize aligned_alloc fuel s ->
  alloc_result fuel t s = Some r ->
  r <> nullptr ->
  (exists i, (i < poolSize)%nat /\ r = buffer (pool s) + Z.of_nat i * sizeT) /\
  buffer (pool s) <= r /\
  r + sizeT <= buffer (pool s) + alloc_size sizeT poolSize /\
  ~ In r (inuse s) /\
  (forall al, 0 < al -> 64 mod al = 0 -> sizeT mod al = 0 -> r mod al = 0).
Proof.
  intros Hvalid Hcontract Hfuel Hreach Hr Hnz.
  destruct (reachable_inv _ _ _ _ _ Hvalid Hcontract Hfuel Hreach)
    as ((G & L & own & Hinv) & Hal & _).
  pose proof (alloc_result_owned _ _ _ _ _ _ _ _ _ Hinv Hr Hnz) as Hown.
  assert (Hs : In r (slots sizeT poolSize (buffer (pool s))))
    by (destruct Hown; eapply owned_slot; eauto).
  pose proof (proj1 (slots_index _ _ _ Hvalid r) Hs) as (i & Hi & Hri).
  destruct (slots_in_block _ _ _ Hvalid _ Hs) as [Hlo Hhi].
  split; [eauto|]. split; [exact Hlo|]. split; [exact Hhi|].
  split.
  { intros Hin%(U_owned _ _ _ _ _ _ Hinv). destruct Hown; congruence. }
  intros al Hpos H64 HsT. unfold CACHE_LINE in Hal.
  apply Z.mod_divide in H64, HsT, Hal; try lia.
  apply Z.mod_divide; [lia|]. rewrite Hri.
  apply Z.divide_add_r.
  - now apply (Z.divide_trans _ 64).
  - now apply Z.divide_mul_r.
Qed.

Lemma allocate_returns_aligned_slot_witness :
  (exists i, (i < 4)%nat /\ 4352 = buffer (pool order_sys) + Z.of_nat i * 64) /\
  buffer (pool order_sys) <= 4352 /\
  4352 + 64 <= buffer (pool order_sys) + alloc_size 64 4 /\
  ~ In 4352 (inuse order_sys) /\
  (forall al, 0 < al -> 64 mod al = 0 -> 64 mod al = 0 -> 4352 mod al = 0).
Proof.
  apply (allocate_returns_aligned_slot 64 4 bump_aligned_alloc 1 order_sys
           0%nat 4352).
  - exact order_instance_valid.
  - exact bump_aligned_alloc_contract.
  - lia.
  - exists start_world, order_world, order_pool, [].
    split; [exact start_world_caches_empty|].
    split; [exact order_construct|]. split; [exact I | reflexivity].
  - vm_compute. reflexivity.
  - discriminate.
Defined.

(** No call of the pool writes into memory a caller holds: after an
    [allocate] or a [deallocate], every byte of every slot that is held
    after the call is what it was before the call. *)
Theorem held_bytes_untouched
  (sizeT : Z) (poolSize : nat)
  (aligned_alloc : gmap Z Z -> Z -> Z -> option Z) (fuel : nat)
  (s : Sys) (o : Op) (a x : Z) :
  valid_instance sizeT poolSize ->
  aligned_alloc_contract aligned_alloc ->
  (0 < fuel)%nat ->
  reachable sizeT poolSize aligned_alloc fuel s ->
  op_ok sizeT s o ->
  op_thread o <> None ->
  In a (inuse (exec fuel s o)) ->
  a <= x < a + sizeT ->
  mem (world (exec fuel s o)) x = mem (world s) x.
Proof.
  intros Hvalid Hcontract Hfuel Hreach Hok Hcall Ha Hx.
  destruct (reachable_inv _ _ _ _ _ Hvalid Hcontract Hfuel Hreach)
    as ((G & L & own & Hinv) & _).
  destruct o as [t | t ptr | b off v]; simpl in *; [| |contradiction].
  - destruct (allocate fuel t (pool s) (world s)) as [[[r p'] w']| |] eqn:E;
      try reflexivity.
    simpl. now rewrite (allocate_mem _ _ _ _ _ _ _ E).
  - apply in_remove_Z in Ha as [Ha Hne].
    apply store_ptr_outside.
    apply (U_owned _ _ _ _ _ _ Hinv) in Ha, Hok.
    destruct (owned_separate _ _ Hvalid _ _ _ _ Hinv _ _ _ _ Ha Hok Hne);
      destruct Hvalid as [Hn _]; lia.
Qed.

Lemma held_bytes_untouched_witness :
  mem (world (exec 1 order_drained (Dealloc 1%nat 4352))) 4300
  = mem (world order_drained) 4300.
Proof.
  apply (held_bytes_untouched 64 4 bump_aligned_alloc 1 order_drained
           (Dealloc 1%nat 4352) 4288 4300).
  - exact order_instance_valid.
  - exact bump_aligned_alloc_contract.
  - lia.
  - exact order_drained_reachable.
  - vm_compute. auto 10.
  - discriminate.
  - vm_compute. auto 10.
  - lia.
Defined.

(** *** Exhaustion *)

Lemma exec_starved (fuel : nat) (s : Sys) (o : Op) (t : tid) :
  (0 < fuel)%nat ->
  freeList (pool s) = nullptr ->
  get_localCache t (world s) = nullptr ->
  (forall ptr, o <> Dealloc t ptr) ->
  freeList (pool (exec fuel s o)) = nullptr /\
  get_localCache t (world (exec fuel s o)) = nullptr.
Proof.
  intros Hfuel Hh Hc Ho.
  destruct o as [t' | t' ptr | a off b]; cbn [exec].
  - destruct (Z.eq_dec (get_localCache t' (world s)) nullptr) as [Hc'|Hc'].
    + rewrite allocate_exhausted by assumption. cbn [pool world]. auto.
    + rewrite allocate_fast by assumption. cbn [pool world].
      split; [exact Hh|]. rewrite get_set_localCache.
      destruct (decide (t' = t)) as [->|]; [contradiction|exact Hc].
  - rewrite deallocate_eq. cbn [pool world]. split; [exact Hh|].
    rewrite get_set_localCache, get_localCache_set_mem.
    destruct (decide (t' = t)) as [->|]; [|exact Hc].
    now destruct (Ho ptr).
  - cbn [pool world]. now rewrite get_localCache_set_mem.
Qed.

(** Nothing ever goes back to the global list: once [freeList] is null and
    thread [t]'s cache is empty, they stay so through any sequence of calls
    in which [t] itself frees nothing, and [allocate] keeps returning null
    to [t], whatever the other threads free in the meantime. *)
Theorem starved_thread_stays_starved
  (fuel : nat) (ops : list Op) (t : tid) (s : Sys) :
  (0 < fuel)%nat ->
  freeList (pool s) = nullptr ->
  get_localCache t (world s) = nullptr ->
  Forall (fun o => forall ptr, o <> Dealloc t ptr) ops ->
  freeList (pool (run fuel s ops)) = nullptr /\
  get_localCache t (world (run fuel s ops)) = nullptr /\
  alloc_result fuel t (run fuel s ops) = Some nullptr.
Proof.
  intros Hfuel. revert s.
  induction ops as [|o ops IH]; intros s Hh Hc Hops.
  - cbn [run fold_left]. split; [exact Hh|]. split; [exact Hc|].
    unfold alloc_result. now rewrite allocate_exhausted by assumption.
  - apply Forall_cons_iff in Hops as [Ho Hops].
    destruct (exec_starved fuel s o t Hfuel Hh Hc Ho) as [Hh' Hc'].
    exact (IH (exec fuel s o) Hh' Hc' Hops).
Qed.

Lemma starved_thread_stays_starved_witness :
  let ops := [Dealloc 0%nat 4352; Dealloc 0%nat 4288; Alloc 1%nat;
              Alloc 0%nat; Write 4352 8 Byte.x01] in
  freeList (pool (run 1 order_drained ops)) = nullptr /\
  get_localCache 1%nat (world (run 1 order_drained ops)) = nullptr /\
  alloc_result 1 1%nat (run 1 order_drained ops) = Some nullptr.
Proof.
  apply (starved_thread_stays_starved 1
           [Dealloc 0%nat 4352; Dealloc 0%nat 4288; Alloc 1%nat;
            Alloc 0%nat; Write 4352 8 Byte.x01] 1%nat order_drained).
  - lia.
  - vm_compute. reflexivity.
  - vm_compute. reflexivity.
  - repeat constructor; discriminate.
Defined.

(** ** Every interleaving is a sequence of whole calls *)

Module LinFacts.
Import Conc Lin.

Lemma exec_alloc_fast (fuel : nat) (q : Sys) (t : tid) :
  get_localCache t (world q) <> nullptr ->
  exec fuel q (Alloc t) =
  {| pool := pool q;
     world := set_localCache t
                (load_ptr (mem (world q)) (get_localCache t (world q)))
                (world q);
     inuse := get_localCache t (world q) :: inuse q |}.
Proof.
  intros Hc. cbn [exec]. rewrite allocate_fast by exact Hc.
  now rewrite (proj2 (Z.eqb_neq _ _) Hc).
Qed.

Lemma exec_alloc_slow (fuel : nat) (q : Sys) (t : tid) :
  (0 < fuel)%nat ->
  get_localCache t (world q) = nullptr ->
  freeList (pool q) <> nullptr ->
  exec fuel q (Alloc t) =
  {| pool := {| buffer := buffer (pool q);
                freeList := load_ptr (mem (world q)) (freeList (pool q)) |};
     world := world q;
     inuse := freeList (pool q) :: inuse q |}.
Proof.
  intros Hfuel Hc Hh. cbn [exec]. rewrite allocate_slow by assumption.
  now rewrite (proj2 (Z.eqb_neq _ _) Hh).
Qed.

Lemma exec_alloc_exhausted (fuel : nat) (q : Sys) (t : tid) :
  (0 < fuel)%nat ->
  get_localCache t (world q) = nullptr ->
  freeList (pool q) = nullptr ->
  exec fuel q (Alloc t) =
  {| pool := pool q; world := world q; inuse := inuse q |}.
Proof.
  intros Hfuel Hc Hh. cbn [exec]. now rewrite allocate_exhausted by assumption.
Qed.

Lemma not_stored_cache (c : PC) (v : Z) :
  (forall a, c <> DeallocStored a) ->
  match c with DeallocStored a => a | _ => v end = v.
Proof. intros H. destruct c; try reflexivity. now destruct (H ptr). Qed.

Lemma agrees_set_pc (s : CState) (q : Sys) (t : tid) (c : PC) :
  agrees s q ->
  (forall a, pcs s t <> DeallocStored a) ->
  (forall a, c <> DeallocStored a) ->
  agrees {| sys := sys s; pcs := set_pc (pcs s) t c |} q.
Proof.
  intros [Hp Hm Hb Hc Hu] Hold Hnew.
  constructor; cbn [sys pcs]; try assumption.
  - intros t'. rewrite Hc. unfold set_pc.
    destruct (decide (t' = t)) as [->|]; [|reflexivity].
    rewrite (not_stored_cache (pcs s t)) by exact Hold.
    now rewrite (not_stored_cache c) by exact Hnew.
  - intros x. rewrite Hu. unfold set_pc. split; intros [Hin Hno].
    + split; [exact Hin|]. intros t'.
      destruct (decide (t' = t)); [apply Hnew | apply Hno].
    + split; [exact Hin|]. intros t'. specialize (Hno t').
      destruct (decide (t' = t)) as [->|]; [apply Hold | exact Hno].
Qed.

Lemma slow_set_pc (s : CState) (t : tid) (c : PC) :
  slow_inv s ->
  ((exists h, c = AllocLoop h) \/ (exists h n, c = AllocCas h n) ->
   get_localCache t (world (sys s)) = nullptr) ->
  (c = AllocLoop nullptr -> freeList (pool (sys s)) = nullptr) ->
  slow_inv {| sys := sys s; pcs := set_pc (pcs s) t c |}.
Proof.
  intros [Hc Hn] Hc' Hn'. constructor; cbn [sys pcs]; unfold set_pc; intros t'.
  - destruct (decide (t' = t)) as [->|]; [exact Hc' | apply Hc].
  - destruct (decide (t' = t)) as [->|]; [exact Hn' | apply Hn].
Qed.

(** A step that changes the shared state and leaves its thread outside the
    slow path. *)
Lemma slow_change (s : CState) (y' : Sys) (t : tid) (c : PC) :
  slow_inv s ->
  (forall t', t' <> t ->
     get_localCache t' (world y') = get_localCache t' (world (sys s))) ->
  (forall h, c <> AllocLoop h) ->
  (forall h n, c <> AllocCas h n) ->
  freeList (pool y') = freeList (pool (sys s)) \/
  freeList (pool (sys s)) <> nullptr ->
  slow_inv {| sys := y'; pcs := set_pc (pcs s) t c |}.
Proof.
  intros [Hc Hn] Hother Hl Hs Hfl.
  constructor; cbn [sys pcs]; unfold set_pc; intros t'.
  - destruct (decide (t' = t)) as [->|Hne].
    + intros [[h E]|(h & n & E)]; [now destruct (Hl h) | now destruct (Hs h n)].
    + intros H. rewrite Hother by exact Hne. now apply Hc.
  - destruct (decide (t' = t)) as [->|Hne].
    + intros E. now destruct (Hl nullptr).
    + intros E%Hn. destruct Hfl as [-> | Hfl]; [exact E | contradiction].
Qed.

Section LinStep.

Variable sizeT : Z.
Variable poolSize : nat.
Hypothesis Hvalid : valid_instance sizeT poolSize.

Variable s : CState.
Variable q : Sys.
Variable G : list Z.
Variable L : tid -> list Z.
Variable own : Z -> option Owner.
Hypothesis Hinv : cinv sizeT poolSize s G L own.
Hypothesis Hag : agrees s q.
Hypothesis Hslow : slow_inv s.

Local Abbreviation Hpool := (ci_pool _ _ _ _ _ _ Hinv).

(** A slot under deallocation is held, so it is not one that is free. *)
Lemma free_not_stored (r : Z) (o : Owner) :
  own r = Some o -> o <> InUse ->
  forall t, pcs s t <> DeallocStored r.
Proof.
  intros Ho Hne t E.
  assert (Hin : In r (inuse (sys s))).
  { apply (ci_called _ _ _ _ _ _ Hinv t). now rewrite E. }
  apply (U_owned _ _ _ _ _ _ Hpool) in Hin. congruence.
Qed.

Lemma lin_step (e : Event) :
  enabled sizeT s e ->
  trace_ok sizeT 1 q (lin_op s e) /\
  agrees (cstep s e) (run 1 q (lin_op s e)) /\
  slow_inv (cstep s e) /\
  (forall t r, returned s e = Some (t, r) -> alloc_result 1 t q = Some r).
Proof.
  intros Hen.
  pose proof Hag as [Hp Hm Hb Hc Hu].
  destruct e as [t | t | t | t | t | t | t ptr | t | t | a off b].
  - (* line 90 *)
    destruct Hen as [Hpc Hcache]. cbn [lin_op returned cstep run fold_left app].
    split; [exact I|]. split; [|split; [|discriminate]].
    + apply agrees_set_pc; [exact Hag | rewrite Hpc | ]; discriminate.
    + apply slow_set_pc; [exact Hslow | | discriminate].
      intros [[h E]|(h & n & E)]; discriminate.
  - (* lines 91-92 *)
    destruct Hen as [n Hpc]. cbn [lin_op returned cstep]. rewrite Hpc.
    cbn [run fold_left app trace_ok op_ok].
    destruct (ci_fast _ _ _ _ _ _ Hinv t n Hpc) as [Hnz Hcn].
    assert (Hcq : get_localCache t (world q) = n).
    { rewrite Hc, Hpc. exact Hcn. }
    assert (Hcq' : get_localCache t (world q) <> nullptr) by congruence.
    rewrite exec_alloc_fast by exact Hcq'. rewrite Hcq, Hm, Hp.
    split; [tauto|].
    assert (Hfree : forall t', pcs s t' <> DeallocStored n).
    { assert (Hc0 : get_localCache t (world (sys s)) <> nullptr) by congruence.
      assert (Hn : In n (L t)).
      { destruct (chain_nonnull _ _ _ Hc0
                    (inv_local _ _ _ _ _ _ Hpool t)) as (l' & -> & _).
        rewrite Hcn. now left. }
      apply (L_owned _ _ _ _ _ _ Hpool) in Hn.
      now apply (free_not_stored n (InLocal t)). }
    split; [|split].
    + constructor; cbn [sys pcs pool world inuse mem blocks set_localCache];
        try assumption; try reflexivity.
      * intros t'. rewrite !get_set_localCache. unfold set_pc.
        destruct (decide (t' = t)) as [->|Hne].
        -- now rewrite !decide_True by reflexivity.
        -- rewrite !decide_False by congruence. apply Hc.
      * intros x. cbn [In]. rewrite Hu. unfold set_pc. split.
        -- intros [<-|[Hin Hno]].
           ++ split; [now left|]. intros t'.
              destruct (decide (t' = t)); [discriminate | apply Hfree].
           ++ split; [now right|]. intros t'.
              destruct (decide (t' = t)); [discriminate | apply Hno].
        -- intros [[<-|Hin] Hno]; [now left | right].
           split; [exact Hin|]. intros t'. specialize (Hno t').
           destruct (decide (t' = t)) as [->|]; [|exact Hno].
           rewrite Hpc. discriminate.
    + apply slow_change; try assumption; try discriminate.
      * intros t' Hne. cbn [world]. rewrite get_set_localCache.
        now rewrite decide_False by congruence.
      * now left.
    + intros t0 r [= <- <-]. unfold alloc_result.
      now rewrite allocate_fast, Hcq by exact Hcq'.
  - (* line 96 *)
    destruct Hen as [Hpc Hcache]. cbn [lin_op returned cstep run fold_left app].
    split; [exact I|]. split; [|split; [|discriminate]].
    + apply agrees_set_pc; [exact Hag | rewrite Hpc | ]; discriminate.
    + apply slow_set_pc; [exact Hslow | intros _; exact Hcache |].
      now intros [= ->].
  - (* line 97 *)
    destruct Hen as [h Hpc]. cbn [lin_op returned cstep]. rewrite Hpc.
    assert (Hcache : get_localCache t (world (sys s)) = nullptr).
    { apply (sl_cache _ Hslow). left. eauto. }
    assert (Hcq : get_localCache t (world q) = nullptr).
    { rewrite Hc, Hpc. exact Hcache. }
    destruct (Z.eqb_spec h nullptr) as [->|Hh].
    + (* line 111 *)
      pose proof (sl_null _ Hslow t Hpc) as Hnull.
      cbn [run fold_left app trace_ok op_ok].
      rewrite exec_alloc_exhausted by (try lia; congruence).
      split; [tauto|]. split; [|split].
      * apply (agrees_set_pc s _ t Idle); [|rewrite Hpc|]; try discriminate.
        now constructor.
      * apply slow_set_pc; [exact Hslow | | discriminate].
        intros [[h E]|(h & n & E)]; discriminate.
      * intros t0 r [= <- <-]. unfold alloc_result.
        now rewrite allocate_exhausted by (try lia; congruence).
    + (* line 98 *)
      cbn [run fold_left app].
      split; [exact I|]. split; [|split; [|discriminate]].
      * apply agrees_set_pc; [exact Hag | rewrite Hpc | ]; discriminate.
      * apply slow_set_pc; [exact Hslow | intros _; exact Hcache |].
        discriminate.
  - (* line 101 *)
    destruct Hen as (h & n & Hpc). cbn [lin_op returned cstep]. rewrite Hpc.
    assert (Hcache : get_localCache t (world (sys s)) = nullptr).
    { apply (sl_cache _ Hslow). right. eauto. }
    assert (Hcq : get_localCache t (world q) = nullptr).
    { rewrite Hc, Hpc. exact Hcache. }
    destruct (ci_cas _ _ _ _ _ _ Hinv t h n Hpc) as [Hnz Hnext].
    unfold compare_exchange_weak.
    destruct (Z.eqb_spec (freeList (pool (sys s))) h) as [Hh|Hh].
    + (* the exchange succeeds, line 106 *)
      assert (Hh0 : freeList (pool (sys s)) <> nullptr) by congruence.
      assert (HhG : In h G).
      { destruct (chain_nonnull _ _ _ Hh0
                    (inv_global _ _ _ _ _ _ Hpool)) as (G' & -> & _).
        rewrite Hh. now left. }
      assert (Hfree : forall t', pcs s t' <> DeallocStored h).
      { apply (free_not_stored h InGlobal); [|discriminate].
        now apply (G_owned _ _ _ _ _ _ Hpool). }
      cbn [run fold_left app trace_ok op_ok].
      rewrite exec_alloc_slow by (try lia; congruence).
      rewrite Hp, Hm, Hh, <- (Hnext HhG).
      split; [tauto|]. split; [|split].
      * constructor; cbn [sys pcs pool world inuse]; try assumption;
          try reflexivity.
        -- intros t'. rewrite Hc. unfold set_pc.
           destruct (decide (t' = t)) as [->|Hne]; [|reflexivity].
           now rewrite Hpc.
        -- intros x. cbn [In]. rewrite Hu. unfold set_pc. split.
           ++ intros [<-|[Hin Hno]].
              ** split; [now left|]. intros t'.
                 destruct (decide (t' = t)); [discriminate | apply Hfree].
              ** split; [now right|]. intros t'.
                 destruct (decide (t' = t)); [discriminate | apply Hno].
           ++ intros [[<-|Hin] Hno]; [now left | right].
              split; [exact Hin|]. intros t'. specialize (Hno t').
              destruct (decide (t' = t)) as [->|]; [|exact Hno].
              rewrite Hpc. discriminate.
      * apply slow_change; try assumption; try discriminate.
        -- intros t' Hne. reflexivity.
        -- right. congruence.
      * intros t0 r [= <- <-]. unfold alloc_result.
        now rewrite allocate_slow, Hp, Hh by (try lia; congruence).
    + (* the exchange fails *)
      cbn [run fold_left app].
      split; [exact I|]. split; [|split; [|discriminate]].
      * apply agrees_set_pc; [exact Hag | rewrite Hpc | ]; discriminate.
      * apply slow_set_pc; [exact Hslow | intros _; exact Hcache |].
        now intros [= ->].
  - (* line 101 failing spuriously *)
    destruct Hen as (h & n & Hpc). cbn [lin_op returned cstep]. rewrite Hpc.
    assert (Hcache : get_localCache t (world (sys s)) = nullptr).
    { apply (sl_cache _ Hslow). right. eauto. }
    cbn [run fold_left app].
    split; [exact I|]. split; [|split; [|discriminate]].
    + apply agrees_set_pc; [exact Hag | rewrite Hpc | ]; discriminate.
    + apply slow_set_pc; [exact Hslow | intros _; exact Hcache |].
      now intros [= ->].
  - (* deallocate is called *)
    destruct Hen as (Hpc & Hin & Hnone).
    cbn [lin_op returned cstep run fold_left app].
    split; [exact I|]. split; [|split; [|discriminate]].
    + apply agrees_set_pc; [exact Hag | rewrite Hpc | ]; discriminate.
    + apply slow_set_pc; [exact Hslow | | discriminate].
      intros [[h E]|(h & n & E)]; discriminate.
  - (* line 122 *)
    destruct Hen as [a Hpc]. cbn [lin_op returned cstep]. rewrite Hpc.
    cbn [run fold_left app trace_ok op_ok exec]. rewrite deallocate_eq.
    assert (Hheld : In a (inuse (sys s))).
    { apply (ci_called _ _ _ _ _ _ Hinv t). now rewrite Hpc. }
    assert (Hfree : forall t', pcs s t' <> DeallocStored a).
    { intros t' E. destruct (decide (t = t')) as [<-|Hne]; [congruence|].
      apply (ci_once _ _ _ _ _ _ Hinv t t' a Hne); [now rewrite Hpc|].
      now rewrite E. }
    split; [split; [apply Hu; auto | exact I]|].
    split; [|split; [|discriminate]].
    + constructor;
        cbn [sys pcs pool world inuse mem blocks set_localCache set_mem
             with_world];
        try assumption.
      * now rewrite Hm, Hc, Hpc.
      * intros t'. rewrite get_set_localCache, get_localCache_set_mem.
        unfold set_pc. destruct (decide (t' = t)) as [->|Hne].
        -- now rewrite decide_True by reflexivity.
        -- rewrite decide_False by congruence. rewrite Hc.
           destruct (pcs s t'); reflexivity.
      * intros x. rewrite in_remove_Z, Hu. unfold set_pc. split.
        -- intros [[Hin Hno] Hne]. split; [exact Hin|]. intros t'.
           destruct (decide (t' = t)); [congruence | apply Hno].
        -- intros [Hin Hno]. split; [split; [exact Hin|]|].
           ++ intros t'. specialize (Hno t').
              destruct (decide (t' = t)) as [->|]; [|exact Hno].
              rewrite Hpc. discriminate.
           ++ specialize (Hno t). rewrite decide_True in Hno by reflexivity.
              congruence.
    + apply slow_change; try assumption; try discriminate.
      * intros t' Hne. reflexivity.
      * now left.
  - (* line 123 *)
    destruct Hen as [a Hpc]. cbn [lin_op returned cstep]. rewrite Hpc.
    cbn [run fold_left app].
    split; [exact I|]. split; [|split; [|discriminate]].
    + constructor; cbn [sys pcs pool world inuse mem blocks set_localCache];
        try assumption.
      * intros t'. rewrite Hc. unfold set_pc.
        destruct (decide (t' = t)) as [->|Hne].
        -- rewrite Hpc, get_set_localCache.
           now rewrite decide_True by reflexivity.
        -- destruct (pcs s t'); try reflexivity;
             rewrite get_set_localCache;
             now rewrite decide_False by congruence.
      * intros x. rewrite in_remove_Z, Hu. unfold set_pc. split.
        -- intros [Hin Hno]. split; [split; [exact Hin|]|].
           ++ specialize (Hno t). congruence.
           ++ intros t'.
              destruct (decide (t' = t)); [discriminate | apply Hno].
        -- intros [[Hin Hne] Hno]. split; [exact Hin|]. intros t'.
           specialize (Hno t').
           destruct (decide (t' = t)) as [->|]; [|exact Hno].
           congruence.
    + apply slow_change; try assumption; try discriminate.
      * intros t' Hne. cbn [world]. rewrite get_set_localCache.
        now rewrite decide_False by congruence.
      * now left.
  - (* a caller writes *)
    destruct Hen as (Hin & Hoff & Hnone).
    cbn [lin_op returned cstep run fold_left app trace_ok op_ok exec].
    assert (Hfree : forall t', pcs s t' <> DeallocStored a).
    { intros t' E. apply (Hnone t'). now rewrite E. }
    split; [split; [split; [apply Hu; auto | exact Hoff] | exact I]|].
    split; [|split; [|discriminate]].
    + constructor;
        cbn [sys pcs pool world inuse mem blocks set_mem with_world];
        try assumption.
      now rewrite Hm.
    + destruct Hslow as [Hsc Hsn]. constructor; assumption.
Qed.

End LinStep.

(** Along an interleaving the sequence of calls it stands for is a
    sequence the callers may make, and the two states agree. *)
Lemma lin_run (sizeT : Z) (poolSize : nat) (evs : list Event) :
  valid_instance sizeT poolSize ->
  forall (s : CState) (q : Sys) (G : list Z) (L : tid -> list Z)
         (own : Z -> option Owner),
  cinv sizeT poolSize s G L own ->
  agrees s q -> slow_inv s ->
  ctrace_ok sizeT s evs ->
  trace_ok sizeT 1 q (linearize s evs) /\
  agrees (crun s evs) (run 1 q (linearize s evs)) /\
  slow_inv (crun s evs).
Proof.
  intros Hvalid.
  induction evs as [|e evs IH]; intros s q G L own Hinv Hag Hslow Hok.
  - cbn. auto.
  - destruct Hok as [Hen Hok]. cbn [linearize crun fold_left].
    destruct (lin_step _ _ _ _ _ _ _ Hinv Hag Hslow e Hen)
      as (Hok1 & Hag1 & Hslow1 & _).
    destruct (ConcFacts.cstep_preserves _ _ Hvalid _ _ _ _ Hinv e Hen)
      as (G1 & L1 & own1 & Hinv1 & _).
    destruct (IH _ _ _ _ _ Hinv1 Hag1 Hslow1 Hok) as (Hok2 & Hag2 & Hslow2).
    unfold run in *. rewrite fold_left_app.
    split; [|split; assumption].
    apply trace_ok_app. split; assumption.
Qed.

(** However the threads' atomic actions interleave from a new pool, the
    calls taken in the order in which they take effect form a sequence of
    whole calls that respects [deallocate]'s precondition and leads to the
    same pool, memory and blocks, and to the same caches and held slots for
    every thread that is not between lines 122 and 123.  An [allocate] that
    returns with the next action returns what the sequential [allocate]
    returns in that state. *)
Theorem interleaving_is_sequential
  (sizeT : Z) (poolSize : nat)
  (aligned_alloc : gmap Z Z -> Z -> Z -> option Z)
  (w w' : World) (p : Pool) (evs : list Event) (e : Event) :
  valid_instance sizeT poolSize ->
  aligned_alloc_contract aligned_alloc ->
  caches_empty w ->
  construct sizeT poolSize aligned_alloc w = Ok (p, w') ->
  ctrace_ok sizeT (cinit p w') (evs ++ [e]) ->
  let s := crun (cinit p w') evs in
  let q0 := {| pool := p; world := w'; inuse := [] |} in
  let ops := linearize (cinit p w') evs in
  let q := run 1 q0 ops in
  trace_ok sizeT 1 q0 ops /\
  agrees s q /\
  ((forall t, pcs s t = Idle) ->
   (forall t, get_localCache t (world q) = get_localCache t (world (sys s))) /\
   (forall x, In x (inuse q) <-> In x (inuse (sys s)))) /\
  (forall t r, returned s e = Some (t, r) -> alloc_result 1 t q = Some r).
Proof.
  intros Hvalid Hcontract Hempty Hc Hok s q0 ops q.
  apply ConcFacts.ctrace_ok_app in Hok as [Hok [Hen _]]. fold s in Hen.
  pose proof (ConcFacts.cinit_inv _ _ _ _ _ _ Hvalid Hcontract Hempty Hc)
    as Hinit.
  assert (Hag0 : agrees (cinit p w') q0).
  { constructor; cbn; try reflexivity. intros x. tauto. }
  assert (Hslow0 : slow_inv (cinit p w')).
  { constructor; cbn.
    - intros t [[h E]|(h & n & E)]; discriminate.
    - discriminate. }
  destruct (lin_run _ _ evs Hvalid _ _ _ _ _ Hinit Hag0 Hslow0 Hok)
    as (Hseq & Hag & Hslow).
  fold s ops q in Hseq, Hag, Hslow.
  destruct (ConcFacts.crun_preserves _ _ evs Hvalid _ _ _ _ Hinit Hok)
    as (G & L & own & Hinv & _).
  fold s in Hinv.
  split; [exact Hseq|]. split; [exact Hag|]. split.
  - intros Hidle. split.
    + intros t. rewrite (ag_cache _ _ Hag t). now rewrite Hidle.
    + intros x. rewrite (ag_inuse _ _ Hag x). split; [tauto|].
      intros Hin. split; [exact Hin|]. intros t. now rewrite Hidle.
  - exact (proj2 (proj2 (proj2
             (lin_step _ _ _ _ _ _ _ Hinv Hag Hslow e Hen)))).
Qed.

Lemma interleaving_is_sequential_witness :
  let s := crun (cinit order_pool order_world) race_prefix in
  let q0 := {| pool := order_pool; world := order_world; inuse := [] |} in
  let ops := linearize (cinit order_pool order_world) race_prefix in
  let q := run 1 q0 ops in
  trace_ok 64 1 q0 ops /\
  agrees s q /\
  ((forall t, pcs s t = Idle) ->
   (forall t, get_localCache t (world q) = get_localCache t (world (sys s))) /\
   (forall x, In x (inuse q) <-> In x (inuse (sys s)))) /\
  (forall t r, returned s (EvCas 1%nat) = Some (t, r) ->
               alloc_result 1 t q = Some r).
Proof.
  apply (interleaving_is_sequential 64 4 bump_aligned_alloc
           start_world order_world order_pool race_prefix (EvCas 1%nat)).
  - exact order_instance_valid.
  - exact bump_aligned_alloc_contract.
  - exact start_world_caches_empty.
  - exact order_construct.
  - vm_compute. repeat split; eauto.
Defined.

(** *** The compare-and-swap loop *)

Lemma stale_step (t : tid) (s : CState) (e : Event) :
  ((if cas_fails t s e then 1 else 0) + stale (cstep s e) t
   <= (if cas_succeeds s e then 1 else 0) + stale s t)%nat.
Proof.
  unfold stale.
  destruct e as [t' | t' | t' | t' | t' | t' | t' ptr | t' | t' | a off b];
    cbn [cas_fails cas_succeeds cstep];
    unfold set_pc, compare_exchange_weak, with_world;
    repeat (case_match; cbn [sys pcs pool freeList negb] in *; simplify_eq);
    repeat match goal with
           | H : (_ =? _) = true |- _ => apply Z.eqb_eq in H
           | H : (_ =? _) = false |- _ => apply Z.eqb_neq in H
           end;
    try lia; try congruence.
Qed.

Lemma failures_le_pops (t : tid) (evs : list Event) : forall s : CState,
  (count_along (cas_fails t) s evs + stale (crun s evs) t
   <= count_along cas_succeeds s evs + stale s t)%nat.
Proof.
  induction evs as [|e evs IH]; intros s; cbn [count_along crun fold_left].
  - lia.
  - pose proof (stale_step t s e). specialize (IH (cstep s e)).
    unfold crun in IH. lia.
Qed.

Lemma pop_shrinks (sizeT : Z) (poolSize : nat) (s : CState)
  (G : list Z) (L : tid -> list Z) (own : Z -> option Owner) (e : Event) :
  valid_instance sizeT poolSize ->
  cinv sizeT poolSize s G L own ->
  enabled sizeT s e ->
  exists G' L' own',
    cinv sizeT poolSize (cstep s e) G' L' own' /\
    ((if cas_succeeds s e then 1 else 0) + length G' <= length G)%nat.
Proof.
  intros Hvalid Hinv Hen.
  destruct (ConcFacts.cstep_preserves _ _ Hvalid _ _ _ _ Hinv e Hen)
    as (G' & L' & own' & Hinv' & HG & _).
  exists G', L', own'. split; [exact Hinv'|].
  destruct (cas_succeeds s e) eqn:E.
  - destruct HG as [->| ->]; [exfalso | cbn [length]; lia].
    destruct e as [| | | |t| | | | |]; try discriminate.
    cbn [cas_succeeds] in E.
    destruct (pcs s t) as [| | |h n| |] eqn:Hpc; try discriminate.
    apply Z.eqb_eq in E.
    pose proof (inv_global _ _ _ _ _ _ (ci_pool _ _ _ _ _ _ Hinv')) as Hc'.
    cbn [cstep] in Hc'. rewrite Hpc in Hc'. unfold compare_exchange_weak in Hc'.
    rewrite (proj2 (Z.eqb_eq _ _) E) in Hc'. cbn in Hc'.
    destruct (ci_cas _ _ _ _ _ _ Hinv t h n Hpc) as [Hnz Hnext].
    assert (Hfl : freeList (pool (sys s)) <> nullptr) by congruence.
    destruct (chain_nonnull _ _ _ Hfl
                (inv_global _ _ _ _ _ _ (ci_pool _ _ _ _ _ _ Hinv)))
      as (G'' & HG & Hc'').
    rewrite E, <- Hnext in Hc'' by (rewrite HG, E; now left).
    pose proof (chain_functional _ _ _ _ Hc' Hc'') as Heq.
    rewrite HG in Heq. apply (f_equal (@length Z)) in Heq.
    cbn [length] in Heq. lia.
  - destruct HG as [->| ->]; cbn [length]; lia.
Qed.

Lemma pops_shrink (sizeT : Z) (poolSize : nat) (evs : list Event) :
  valid_instance sizeT poolSize ->
  forall (s : CState) (G : list Z) (L : tid -> list Z)
         (own : Z -> option Owner),
  cinv sizeT poolSize s G L own ->
  ctrace_ok sizeT s evs ->
  exists G' L' own',
    cinv sizeT poolSize (crun s evs) G' L' own' /\
    (count_along cas_succeeds s evs + length G' <= length G)%nat.
Proof.
  intros Hvalid. induction evs as [|e evs IH]; intros s G L own Hinv Hok.
  - exists G, L, own. split; [exact Hinv | cbn; lia].
  - destruct Hok as [Hen Hok]. cbn [count_along crun fold_left].
    destruct (pop_shrinks _ _ _ _ _ _ e Hvalid Hinv Hen)
      as (G1 & L1 & own1 & Hinv1 & Hlen1).
    destruct (IH _ _ _ _ Hinv1 Hok) as (G2 & L2 & own2 & Hinv2 & Hlen2).
    exists G2, L2, own2. split; [exact Hinv2 | lia].
Qed.

(** Over the whole life of a pool, however the threads interleave: every
    failure of a thread's compare-and-swap that is not spurious is paid for
    by another thread's successful one, and no more than [poolSize]
    compare-and-swaps ever succeed, because the global list only shrinks.
    So a thread's compare-and-swap fails at most [poolSize] times. *)
Theorem cas_failures_bounded
  (sizeT : Z) (poolSize : nat)
  (aligned_alloc : gmap Z Z -> Z -> Z -> option Z)
  (w w' : World) (p : Pool) (evs : list Event) (t : tid) :
  valid_instance sizeT poolSize ->
  aligned_alloc_contract aligned_alloc ->
  caches_empty w ->
  construct sizeT poolSize aligned_alloc w = Ok (p, w') ->
  ctrace_ok sizeT (cinit p w') evs ->
  let pops := count_along cas_succeeds (cinit p w') evs in
  (count_along (cas_fails t) (cinit p w') evs <= pops)%nat /\
  (pops + length (global_free poolSize (sys (crun (cinit p w') evs)))
   <= poolSize)%nat.
Proof.
  intros Hvalid Hcontract Hempty Hc Hok pops. split.
  - pose proof (failures_le_pops t evs (cinit p w')) as H.
    fold pops in H. unfold stale at 2 in H. cbn [cinit pcs] in H. lia.
  - pose proof (ConcFacts.cinit_inv _ _ _ _ _ _ Hvalid Hcontract Hempty Hc)
      as Hinit.
    destruct (pops_shrink _ _ evs Hvalid _ _ _ _ Hinit Hok)
      as (G & L & own & Hinv & Hlen).
    fold pops in Hlen.
    destruct (inv_walks _ _ _ _ _ _ Hvalid (ci_pool _ _ _ _ _ _ Hinv))
      as [-> _].
    rewrite length_rev, slots_length in Hlen. exact Hlen.
Qed.

Lemma cas_failures_bounded_witness :
  let evs := race_prefix ++ [EvCas 1%nat] in
  let pops := count_along cas_succeeds (cinit order_pool order_world) evs in
  (count_along (cas_fails 1%nat) (cinit order_pool order_world) evs
   <= pops)%nat /\
  (pops + length (global_free 4
                    (sys (crun (cinit order_pool order_world) evs)))
   <= 4)%nat.
Proof.
  apply (cas_failures_bounded 64 4 bump_aligned_alloc
           start_world order_world order_pool
           (race_prefix ++ [EvCas 1%nat]) 1%nat).
  - exact order_instance_valid.
  - exact bump_aligned_alloc_contract.
  - exact start_world_caches_empty.
  - exact order_construct.
  - vm_compute. repeat split; eauto.
Defined.

Example race_counts :
  let evs := race_prefix ++ [EvCas 1%nat] in
  count_along (cas_fails 1%nat) (cinit order_pool order_world) evs = 1%nat /\
  count_along (cas_fails 0%nat) (cinit order_pool order_world) evs = 0%nat /\
  count_along cas_succeeds (cinit order_pool order_world) evs = 2%nat.
Proof. vm_compute. repeat split. Qed.

End LinFacts.

(** ** The demonstration program *)

Lemma load_bytes_store_other (n : nat) (m : Mem) (a a' : Z) (bs : list byte) :
  a' + Z.of_nat n <= a \/ a + Z.of_nat (length bs) <= a' ->
  load_bytes (store_bytes m a bs) a' n = load_bytes m a' n.
Proof.
  intros H. apply load_bytes_ext. intros x Hx.
  apply store_bytes_outside. lia.
Qed.

Lemma load_bytes_store_same (n : nat) (m : Mem) (a a' v : Z) :
  a' = a ->
  load_bytes (store_bytes m a (le_split n v)) a' n = le_split n v.
Proof.
  intros ->.
  pose proof (load_store_bytes_same (le_split n v) m a) as H.
  now rewrite length_le_split in H.
Qed.

Lemma get_localCache_set_blocks (t : tid) (bl : gmap Z Z) (w : World) :
  get_localCache t (set_blocks bl w) = get_localCache t w.
Proof. reflexivity. Qed.

Lemma combine_split_ptr (v : Z) :
  0 <= v < 18446744073709551616 -> le_combine (le_split 8 v) = v.
Proof. intros Hv. rewrite le_combine_split. now apply Z.mod_small. Qed.

Lemma combine_split_int (v : Z) :
  0 <= v < 4294967296 -> le_combine (le_split 4 v) = v.
Proof. intros Hv. rewrite le_combine_split. now apply Z.mod_small. Qed.

Lemma set_mem_set_mem (m m' : Mem) (w : World) :
  set_mem m (set_mem m' w) = set_mem m w.
Proof. reflexivity. Qed.

Lemma set_mem_set_localCache (m : Mem) (t : tid) (v : Z) (w : World) :
  set_mem m (set_localCache t v w) = set_localCache t v (set_mem m w).
Proof. reflexivity. Qed.

Module DemoFacts.
Import Demo.

Lemma demo_alloc_size : alloc_size sizeof_Order 4 = 256.
Proof. vm_compute. reflexivity. Qed.

Lemma Order_new_eq (this : Z) (x : Order) (f : Frame) :
  this <> nullptr ->
  Order_new this x f =
  Fine (tt, {| fworld :=
                 set_mem
                   (store_bytes
                      (store_bytes
                         (store_bytes (mem (fworld f))
                            (this + offset_id) (le_split 8 (id_ x)))
                         (this + offset_price) (le_split 8 (price_ x)))
                      (this + offset_qty) (le_split 4 (qty_ x)))
                   (fworld f);
               fpool := fpool f; fout := fout f |}).
Proof.
  intros Hnz%Z.eqb_neq. unfold Order_new, pbind, object, store_field.
  now rewrite Hnz.
Qed.

Lemma Order_print_eq (this : Z) (f : Frame) :
  this <> nullptr ->
  Order_print this f =
  Fine (tt, {| fworld := fworld f; fpool := fpool f;
               fout := fout f ++
                 [Str "Order ID=";
                  U64 (le_combine (load_bytes (mem (fworld f))
                                     (this + offset_id) 8));
                  Str " Price=";
                  F64 (le_combine (load_bytes (mem (fworld f))
                                     (this + offset_price) 8));
                  Str " Qty=";
                  I32 (int_of_bits
                         (le_combine (load_bytes (mem (fworld f))
                                        (this + offset_qty) 4)));
                  Str newline] |}).
Proof.
  intros Hnz%Z.eqb_neq.
  unfold Order_print, pbind, object, load_field, print_items.
  now rewrite Hnz.
Qed.

Lemma Order_delete_eq (this : Z) (f : Frame) :
  this <> nullptr -> Order_delete this f = Fine (tt, f).
Proof.
  intros Hnz%Z.eqb_neq. unfold Order_delete, object. now rewrite Hnz.
Qed.

Lemma pool_deallocate_eq (t : tid) (ptr : Z) (f : Frame) :
  pool_deallocate t ptr f =
  Fine (tt, {| fworld :=
                 set_localCache t ptr
                   (set_mem (store_ptr (mem (fworld f)) ptr
                               (get_localCache t (fworld f))) (fworld f));
               fpool := fpool f; fout := fout f |}).
Proof. reflexivity. Qed.

Ltac mem_read :=
  unfold load_ptr, store_ptr, FreeNode_bytes,
    offset_id, offset_price, offset_qty;
  repeat first
    [ rewrite load_bytes_store_same by lia
    | rewrite load_bytes_store_other by (rewrite length_le_split; lia) ];
  rewrite ?combine_split_ptr
    by (cbv delta [nullptr f64_100_5 f64_101_0 f64_102_5 f64_103_0
                   f64_110_0]; lia);
  rewrite ?combine_split_int by lia.

Ltac cache_read H :=
  repeat first
    [ rewrite get_localCache_set_mem
    | rewrite get_localCache_set_blocks
    | rewrite get_set_localCache, decide_True by reflexivity
    | rewrite H ].

Ltac settle H :=
  cbv beta iota;
  cbn [fworld fpool fout freeList buffer mem set_mem set_localCache
       id_ price_ qty_ app];
  repeat first [rewrite set_mem_set_localCache | rewrite set_mem_set_mem];
  cache_read H; mem_read.

Ltac call_allocate lem H :=
  unfold pbind at 1; unfold pool_allocate at 1;
  cbv beta iota delta [fworld fpool fout];
  rewrite lem
    by (try assumption; cbn [freeList]; cache_read H;
        try reflexivity; unfold nullptr; lia);
  settle H.

Ltac call lem H :=
  unfold pbind at 1; rewrite lem by (unfold nullptr; lia); settle H.

Ltac call_deallocate H :=
  unfold pbind at 1; rewrite pool_deallocate_eq; settle H.

Lemma int_round_trip (v : Z) :
  - 2 ^ 31 <= v < 2 ^ 31 -> int_of_bits (le_combine (le_split 4 v)) = v.
Proof.
  intros Hv. rewrite le_combine_split.
  change (2 ^ (Z.of_nat 4 * 8)) with 4294967296.
  unfold int_of_bits.
  change (2 ^ 31) with 2147483648 in *. change (2 ^ 32) with 4294967296.
  destruct (Z.neg_nonneg_cases v) as [Hneg|Hpos].
  - rewrite <- (Z.mod_add _ 1) by lia. rewrite Z.mod_small by lia.
    destruct (Z.ltb_spec (v + 1 * 4294967296) 2147483648); lia.
  - rewrite Z.mod_small by lia.
    destruct (Z.ltb_spec v 2147483648); lia.
Qed.

(** Constructing an [Order] in place and printing it shows the constructor's
    arguments, whatever the slot held before; the constructor writes the
    object's first 20 bytes and nothing else, and [print] writes nothing. *)
Theorem Order_new_print_round_trip (this : Z) (x : Order) (f : Frame) :
  this <> nullptr ->
  0 <= id_ x < 2 ^ 64 ->
  0 <= price_ x < 2 ^ 64 ->
  - 2 ^ 31 <= qty_ x < 2 ^ 31 ->
  exists f1 f2,
    Order_new this x f = Fine (tt, f1) /\
    Order_print this f1 = Fine (tt, f2) /\
    fout f2 = fout f ++ [Str "Order ID="; U64 (id_ x);
                         Str " Price="; F64 (price_ x);
                         Str " Qty="; I32 (qty_ x); Str newline] /\
    fout f1 = fout f /\
    fworld f2 = fworld f1 /\
    fpool f2 = fpool f /\
    blocks (fworld f1) = blocks (fworld f) /\
    _localCache (fworld f1) = _localCache (fworld f) /\
    (forall a, a < this \/ this + 20 <= a ->
               mem (fworld f1) a = mem (fworld f) a).
Proof.
  intros Hnz Hid Hprice Hqty.
  eexists. eexists.
  split; [exact (Order_new_eq this x f Hnz)|].
  split; [exact (Order_print_eq this _ Hnz)|].
  cbn [fout fworld fpool mem set_mem blocks _localCache].
  split.
  { unfold offset_id, offset_price, offset_qty.
    repeat first
      [ rewrite load_bytes_store_same by lia
      | rewrite load_bytes_store_other by (rewrite length_le_split; lia) ].
    rewrite !combine_split_ptr by lia.
    now rewrite int_round_trip by exact Hqty. }
  repeat (split; [reflexivity|]).
  intros a Ha. unfold offset_id, offset_price, offset_qty.
  repeat rewrite store_bytes_outside by (rewrite length_le_split; lia).
  reflexivity.
Qed.

Lemma Order_new_print_round_trip_witness :
  let f := {| fworld := order_world; fpool := order_pool; fout := [] |} in
  let x := {| id_ := 7; price_ := f64_110_0; qty_ := -3 |} in
  exists f1 f2,
    Order_new 4352 x f = Fine (tt, f1) /\
    Order_print 4352 f1 = Fine (tt, f2) /\
    fout f2 = fout f ++ [Str "Order ID="; U64 (id_ x);
                         Str " Price="; F64 (price_ x);
                         Str " Qty="; I32 (qty_ x); Str newline] /\
    fout f1 = fout f /\
    fworld f2 = fworld f1 /\
    fpool f2 = fpool f /\
    blocks (fworld f1) = blocks (fworld f) /\
    _localCache (fworld f1) = _localCache (fworld f) /\
    (forall a, a < 4352 \/ 4352 + 20 <= a ->
               mem (fworld f1) a = mem (fworld f) a).
Proof.
  apply (Order_new_print_round_trip 4352
           {| id_ := 7; price_ := f64_110_0; qty_ := -3 |}
           {| fworld := order_world; fpool := order_pool; fout := [] |}).
  - discriminate.
  - cbn [id_]. lia.
  - cbn [price_]. unfold f64_110_0. lia.
  - cbn [qty_]. lia.
Defined.

(** [main] run by a thread whose cache is empty, on any C library that
    keeps [aligned_alloc]'s contract: if the library has no block,
    [std::bad_alloc] leaves [main]; otherwise [main] returns 0 and has
    printed orders 1 to 4 as constructed, then the exhaustion message, then
    order 6.  No null pointer is used as an object: the sixth [allocate]
    returns the slot of [o2], the one freed last.  On return the block has
    been freed, memory outside it is untouched, and the thread's cache is
    left pointing into the freed block, at the slot of [o6]. *)
Theorem main_outcome
  (aligned_alloc : gmap Z Z -> Z -> Z -> option Z)
  (fuel : nat) (t : tid) (w : World) :
  aligned_alloc_contract aligned_alloc ->
  (0 < fuel)%nat ->
  get_localCache t w = nullptr ->
  match aligned_alloc (blocks w) CACHE_LINE 256 with
  | None => main aligned_alloc fuel t w = Uncaught bad_alloc
  | Some b =>
    exists w',
      main aligned_alloc fuel t w =
      Fine (0, w',
            [Str "Order ID="; U64 1; Str " Price="; F64 f64_100_5;
             Str " Qty="; I32 10; Str newline;
             Str "Order ID="; U64 2; Str " Price="; F64 f64_101_0;
             Str " Qty="; I32 20; Str newline;
             Str "Order ID="; U64 3; Str " Price="; F64 f64_102_5;
             Str " Qty="; I32 30; Str newline;
             Str "Order ID="; U64 4; Str " Price="; F64 f64_103_0;
             Str " Qty="; I32 40; Str newline;
             Str (String.append "Pool exhausted" newline);
             Str "Order ID="; U64 6; Str " Price="; F64 f64_110_0;
             Str " Qty="; I32 60; Str newline]) /\
      blocks w' = delete b (blocks w) /\
      get_localCache t w' = b + 128 /\
      (forall t', t' <> t -> get_localCache t' w' = get_localCache t' w) /\
      (forall x, x < b \/ b + 256 <= x -> mem w' x = mem w x)
  end.
Proof.
  intros Hcontract Hfuel Hc.
  unfold main. rewrite construct_eq, demo_alloc_size.
  destruct (aligned_alloc (blocks w) CACHE_LINE 256) as [b|] eqn:Ea;
    [|reflexivity].
  destruct (Hcontract _ _ _ _ CACHE_LINE_pow2
              (eq_refl : 256 mod CACHE_LINE = 0) Ea)
    as (Hpos & _ & Htop).
  rewrite SIZE_MOD_eq in Htop.
  destruct (Z.eqb_spec b nullptr) as [E|_]; [unfold nullptr in E; lia|].
  set (st := build_free_list sizeof_Order 4 b (mem w)).
  assert (Hst : st = (store_ptr (store_ptr (store_ptr (store_ptr (mem w)
                        b nullptr) (b + 64) b) (b + 128) (b + 64))
                        (b + 192) (b + 128), b + 192)).
  { subst st. unfold build_free_list. cbn [seq fold_left link_slot].
    unfold slot_addr, size_mul, sizeof_Order.
    repeat match goal with
           | |- context [(Z.of_nat ?n * 64) mod SIZE_MOD] =>
             let v := eval vm_compute in ((Z.of_nat n * 64) mod SIZE_MOD) in
             change ((Z.of_nat n * 64) mod SIZE_MOD) with v
           end.
    now rewrite Z.add_0_r. }
  rewrite Hst. cbn [fst snd]. clear st Hst.
  unfold main_body.
  call_allocate allocate_slow Hc.
  call_allocate allocate_slow Hc.
  call_allocate allocate_slow Hc.
  call_allocate allocate_slow Hc.
  do 4 call Order_new_eq Hc.
  do 4 call Order_print_eq Hc.
  call_allocate allocate_exhausted Hc.
  change (nullptr =? nullptr) with true. cbv iota.
  unfold pbind at 1. unfold print_items at 1. settle Hc.
  call Order_delete_eq Hc. call_deallocate Hc.
  call Order_delete_eq Hc. call_deallocate Hc.
  call_allocate allocate_fast Hc.
  call Order_new_eq Hc. call Order_print_eq Hc.
  call Order_delete_eq Hc. call_deallocate Hc.
  call Order_delete_eq Hc. call_deallocate Hc.
  call Order_delete_eq Hc. call_deallocate Hc.
  unfold pret, destroy, std_free, modify. cbn [fworld fpool fout buffer].
  eexists. split; [reflexivity|].
  split.
  { cbn [blocks set_blocks set_localCache set_mem]. apply delete_insert_eq. }
  split.
  { rewrite get_localCache_set_blocks. cache_read Hc. reflexivity. }
  split.
  { intros t' Hne. rewrite get_localCache_set_blocks.
    repeat (rewrite get_set_localCache, decide_False by congruence).
    reflexivity. }
  intros x Hx. cbn [mem set_blocks set_localCache set_mem].
  repeat rewrite store_bytes_outside by (rewrite length_le_split; lia).
  reflexivity.
Qed.

Lemma main_outcome_witness :
  match bump_aligned_alloc (blocks start_world) CACHE_LINE 256 with
  | None => main bump_aligned_alloc 1 0%nat start_world = Uncaught bad_alloc
  | Some b =>
    exists w',
      main bump_aligned_alloc 1 0%nat start_world =
      Fine (0, w',
            [Str "Order ID="; U64 1; Str " Price="; F64 f64_100_5;
             Str " Qty="; I32 10; Str newline;
             Str "Order ID="; U64 2; Str " Price="; F64 f64_101_0;
             Str " Qty="; I32 20; Str newline;
             Str "Order ID="; U64 3; Str " Price="; F64 f64_102_5;
             Str " Qty="; I32 30; Str newline;
             Str "Order ID="; U64 4; Str " Price="; F64 f64_103_0;
             Str " Qty="; I32 40; Str newline;
             Str (String.append "Pool exhausted" newline);
             Str "Order ID="; U64 6; Str " Price="; F64 f64_110_0;
             Str " Qty="; I32 60; Str newline]) /\
      blocks w' = delete b (blocks start_world) /\
      get_localCache 0%nat w' = b + 128 /\
      (forall t', t' <> 0%nat ->
         get_localCache t' w' = get_localCache t' start_world) /\
      (forall x, x < b \/ b + 256 <= x -> mem w' x = mem start_world x)
  end.
Proof.
  apply (main_outcome bump_aligned_alloc 1 0%nat start_world).
  - exact bump_aligned_alloc_contract.
  - lia.
  - reflexivity.
Defined.
End DemoFacts.

(** ** Whole calls and interleavings: instances *)

Lemma reachable_partition_witness :
  partition_ok 64 4
    (Conc.sys (Conc.crun (Conc.cinit order_pool order_world)
                 (Conc.race_prefix ++ [Conc.EvCas 1%nat]))).
Proof.
  apply (ConcFacts.reachable_partition 64 4 bump_aligned_alloc
           start_world order_world order_pool
           (Conc.race_prefix ++ [Conc.EvCas 1%nat])).
  - exact order_instance_valid.
  - exact bump_aligned_alloc_contract.
  - exact start_world_caches_empty.
  - exact order_construct.
  - vm_compute. repeat split; eauto.
Defined.

Lemma allocate_solo_witness :
  let s := Conc.cinit order_pool order_world in
  Conc.ctrace_ok 64 s (Conc.alloc_actions s 0%nat) /\
  Conc.sys (Conc.crun s (Conc.alloc_actions s 0%nat))
  = exec 1 (Conc.sys s) (Alloc 0%nat) /\
  Conc.pcs (Conc.crun s (Conc.alloc_actions s 0%nat)) 0%nat = Conc.Idle.
Proof.
  apply (ConcFacts.allocate_solo 64 (Conc.cinit order_pool order_world)
           0%nat).
  reflexivity.
Defined.

Lemma deallocate_solo_witness :
  let s := {| Conc.sys := order_drained; Conc.pcs := fun _ => Conc.Idle |} in
  Conc.ctrace_ok 64 s (Conc.dealloc_actions 1%nat 4352) /\
  Conc.sys (Conc.crun s (Conc.dealloc_actions 1%nat 4352))
  = exec 1 (Conc.sys s) (Dealloc 1%nat 4352) /\
  Conc.pcs (Conc.crun s (Conc.dealloc_actions 1%nat 4352)) 1%nat = Conc.Idle.
Proof.
  apply (ConcFacts.deallocate_solo 64
           {| Conc.sys := order_drained; Conc.pcs := fun _ => Conc.Idle |}
           1%nat 4352).
  - reflexivity.
  - vm_compute. auto 10.
  - intros t'. discriminate.
Defined.

(** ** A read of a slot that is already held *)

Module RaceFacts.
Import Conc.

(** Line 98 reads [head->next] without knowing that [head] is still free.
    Between line 96 and line 98 of one thread another thread can take the
    same head and its caller can write into the slot, so that the first
    thread reads the caller's byte; the compare-and-swap then fails, the
    value read is dropped and the thread starts again from the new head. *)
Theorem stale_read_is_discarded
  (sizeT : Z) (poolSize : nat)
  (aligned_alloc : gmap Z Z -> Z -> Z -> option Z)
  (w w' : World) (p : Pool) (t1 t2 : tid) (b : byte) :
  valid_instance sizeT poolSize ->
  aligned_alloc_contract aligned_alloc ->
  caches_empty w ->
  construct sizeT poolSize aligned_alloc w = Ok (p, w') ->
  (0 < poolSize)%nat ->
  t1 <> t2 ->
  let h := freeList p in
  let evs := [EvLoadHead t2; EvLoadHead t1; EvTest t1; EvCas t1;
              EvWrite h 0 b; EvTest t2] in
  let s := crun (cinit p w') evs in
  ctrace_ok sizeT (cinit p w') (evs ++ [EvCas t2]) /\
  inuse (sys s) = [h] /\
  pcs s t2 = AllocCas h (load_ptr (mem_set (mem w') (h + 0) b) h) /\
  returned s (EvCas t2) = None /\
  pcs (cstep s (EvCas t2)) t2 = AllocLoop (load_ptr (mem w') h).
Proof.
  intros Hvalid Hcontract Hempty Hc Hpos Hne h evs s.
  pose proof (ConcFacts.cinit_inv _ _ _ _ _ _ Hvalid Hcontract Hempty Hc)
    as Hinit.
  pose proof (ci_pool _ _ _ _ _ _ Hinit) as Hpool.
  assert (Hcache : forall t, get_localCache t w' = nullptr).
  { intros t. destruct (construct_block _ _ _ Hcontract _ _ _ Hc)
      as (_ & _ & _ & Hlc & _).
    unfold get_localCache. rewrite Hlc. apply Hempty. }
  pose proof (inv_global _ _ _ _ _ _ Hpool) as Hchain.
  pose proof (inv_nodup_G _ _ _ _ _ _ Hpool) as Hnd.
  cbn [cinit sys pool world] in Hchain.
  destruct (rev (slots sizeT poolSize (buffer p))) as [|a G'] eqn:HG.
  { apply (f_equal (@length Z)) in HG.
    rewrite length_rev, slots_length in HG. cbn in HG. lia. }
  destruct Hchain as (Hh & Hnz & Hchain). fold h in Hh. subst a.
  assert (Hnext : load_ptr (mem w') h <> h).
  { apply NoDup_cons_iff in Hnd as [Hnot _].
    destruct (chain_head _ _ _ Hchain) as [E|Hin]; congruence. }
  assert (Hhz : (h =? nullptr) = false) by now apply Z.eqb_neq.
  assert (Hnx : (load_ptr (mem w') h =? h) = false) by now apply Z.eqb_neq.
  subst s evs. clear Hc Hinit Hpool HG.
  destruct p as [buf fl]. cbn [freeList] in h. subst h.
  repeat progress
    (cbn [crun fold_left app ctrace_ok cstep enabled returned cinit
          sys pcs pool world inuse freeList buffer mem set_mem dealloc_of];
     unfold set_pc, compare_exchange_weak, with_world;
     rewrite ?decide_True by congruence;
     rewrite ?decide_False by congruence;
     rewrite ?Hhz, ?Hnx, ?Z.eqb_refl).
  destruct Hvalid as [Hsz _]. unfold sizeof_FreeNode in Hsz.
  repeat split; eauto; try lia; try (now left).
  intros t'. repeat case_decide; discriminate.
Qed.

Lemma stale_read_is_discarded_witness :
  let h := freeList order_pool in
  let evs := [EvLoadHead 1%nat; EvLoadHead 0%nat; EvTest 0%nat; EvCas 0%nat;
              EvWrite h 0 Byte.xff; EvTest 1%nat] in
  let s := crun (cinit order_pool order_world) evs in
  ctrace_ok 64 (cinit order_pool order_world) (evs ++ [EvCas 1%nat]) /\
  inuse (sys s) = [h] /\
  pcs s 1%nat
  = AllocCas h (load_ptr (mem_set (mem order_world) (h + 0) Byte.xff) h) /\
  returned s (EvCas 1%nat) = None /\
  pcs (cstep s (EvCas 1%nat)) 1%nat
  = AllocLoop (load_ptr (mem order_world) h).
Proof.
  apply (stale_read_is_discarded 64 4 bump_aligned_alloc
           start_world order_world order_pool 0%nat 1%nat Byte.xff).
  - exact order_instance_valid.
  - exact bump_aligned_alloc_contract.
  - exact start_world_caches_empty.
  - exact order_construct.
  - lia.
  - discriminate.
Defined.

(** In the demonstration pool the byte the caller wrote is part of what the
    slow thread read: it saw [0x10ff] where the link was [0x10c0]. *)
Example stale_read_value :
  load_ptr (mem_set (mem order_world) (4352 + 0) Byte.xff) 4352 = 4351 /\
  load_ptr (mem order_world) 4352 = 4288.
Proof. vm_compute. split; reflexivity. Qed.

End RaceFacts.

(** ** Where the pool reads and writes *)

Module AccessFacts.
Import Conc.

Lemma cstep_blocks (s : CState) (e : Event) :
  blocks (world (sys (cstep s e))) = blocks (world (sys s)).
Proof.
  destruct e; cbn [cstep]; unfold compare_exchange_weak, with_world;
    repeat case_match; reflexivity.
Qed.

Lemma crun_blocks (evs : list Event) : forall s : CState,
  blocks (world (sys (crun s evs))) = blocks (world (sys s)).
Proof.
  induction evs as [|e evs IH]; intros s; [reflexivity|].
  cbn [crun fold_left]. unfold crun in IH. now rewrite IH, cstep_blocks.
Qed.

(** Where a head on the slow path comes from. *)
Lemma cstep_loop_head (s : CState) (e : Event) (t : tid) (h : Z) :
  pcs (cstep s e) t = AllocLoop h ->
  pcs s t = AllocLoop h \/ h = freeList (pool (sys s)).
Proof.
  intros H.
  destruct e; cbn [cstep] in H; unfold set_pc, compare_exchange_weak in H;
    cbn [sys pcs pool freeList] in H;
    repeat (case_match; cbn [sys pcs pool freeList] in *; simplify_eq);
    auto.
Qed.

Lemma cstep_cas_head (s : CState) (e : Event) (t : tid) (h n : Z) :
  pcs (cstep s e) t = AllocCas h n ->
  pcs s t = AllocCas h n \/ pcs s t = AllocLoop h.
Proof.
  intros H.
  destruct e; cbn [cstep] in H; unfold set_pc, compare_exchange_weak in H;
    cbn [sys pcs pool freeList] in H;
    repeat (case_match; cbn [sys pcs pool freeList] in *; simplify_eq);
    auto.
Qed.

Import Lin.

Lemma head_is_slot (sizeT : Z) (poolSize : nat) (s : CState)
  (G : list Z) (L : tid -> list Z) (own : Z -> option Owner) :
  cinv sizeT poolSize s G L own ->
  freeList (pool (sys s)) = nullptr \/
  In (freeList (pool (sys s))) (slots sizeT poolSize (buffer (pool (sys s)))).
Proof.
  intros Hinv. pose proof (ci_pool _ _ _ _ _ _ Hinv) as Hpool.
  destruct (chain_head _ _ _ (inv_global _ _ _ _ _ _ Hpool)) as [E|Hin];
    [now left | right].
  apply (G_owned _ _ _ _ _ _ Hpool) in Hin.
  eapply owned_slot; eauto.
Qed.

Lemma heads_step (sizeT : Z) (poolSize : nat) (s : CState)
  (G : list Z) (L : tid -> list Z) (own : Z -> option Owner) (e : Event) :
  valid_instance sizeT poolSize ->
  cinv sizeT poolSize s G L own ->
  heads_are_slots sizeT poolSize s ->
  enabled sizeT s e ->
  heads_are_slots sizeT poolSize (cstep s e).
Proof.
  intros Hvalid Hinv Hheads Hen t h Hpc.
  destruct (ConcFacts.cstep_preserves _ _ Hvalid _ _ _ _ Hinv e Hen)
    as (_ & _ & _ & _ & _ & ->).
  destruct Hpc as [Hpc|[n Hpc]].
  - destruct (cstep_loop_head _ _ _ _ Hpc) as [Hold| ->].
    + apply (Hheads t). now left.
    + exact (head_is_slot _ _ _ _ _ _ Hinv).
  - destruct (cstep_cas_head _ _ _ _ _ Hpc) as [Hold|Hold].
    + apply (Hheads t). right. eauto.
    + apply (Hheads t). now left.
Qed.

Lemma heads_run (sizeT : Z) (poolSize : nat) (evs : list Event) :
  valid_instance sizeT poolSize ->
  forall (s : CState) (G : list Z) (L : tid -> list Z)
         (own : Z -> option Owner),
  cinv sizeT poolSize s G L own ->
  heads_are_slots sizeT poolSize s ->
  ctrace_ok sizeT s evs ->
  heads_are_slots sizeT poolSize (crun s evs).
Proof.
  intros Hvalid. induction evs as [|e evs IH]; intros s G L own Hinv Hh Hok.
  - exact Hh.
  - destruct Hok as [Hen Hok]. cbn [crun fold_left].
    destruct (ConcFacts.cstep_preserves _ _ Hvalid _ _ _ _ Hinv e Hen)
      as (G1 & L1 & own1 & Hinv1 & _).
    apply (IH _ _ _ _ Hinv1); [|exact Hok].
    exact (heads_step _ _ _ _ _ _ e Hvalid Hinv Hh Hen).
Qed.

(** Memory safety of the pool's own accesses: along every interleaving from
    a new pool, each node the code reads or writes through (line 91, line
    98, line 122) occupies eight bytes inside the pool's block, and the
    block is live at that moment.  This includes the read at line 98 of a
    head that another thread has taken in the meantime. *)
Theorem accesses_stay_in_block
  (sizeT : Z) (poolSize : nat)
  (aligned_alloc : gmap Z Z -> Z -> Z -> option Z)
  (w w' : World) (p : Pool) (evs : list Event) (e : Event) (a : Z) :
  valid_instance sizeT poolSize ->
  aligned_alloc_contract aligned_alloc ->
  caches_empty w ->
  construct sizeT poolSize aligned_alloc w = Ok (p, w') ->
  ctrace_ok sizeT (cinit p w') (evs ++ [e]) ->
  let s := crun (cinit p w') evs in
  node_access s e = Some a ->
  buffer p <= a /\
  a + sizeof_FreeNode <= buffer p + alloc_size sizeT poolSize /\
  a <> nullptr /\
  blocks (world (sys s)) !! buffer p = Some (alloc_size sizeT poolSize).
Proof.
  intros Hvalid Hcontract Hempty Hc Hok s Ha.
  apply ConcFacts.ctrace_ok_app in Hok as [Hok _].
  pose proof (ConcFacts.cinit_inv _ _ _ _ _ _ Hvalid Hcontract Hempty Hc)
    as Hinit.
  destruct (ConcFacts.crun_preserves _ _ evs Hvalid _ _ _ _ Hinit Hok)
    as (G & L & own & Hinv & _ & Hbuf).
  fold s in Hinv, Hbuf. cbn [cinit sys pool] in Hbuf.
  pose proof (ci_pool _ _ _ _ _ _ Hinv) as Hpool.
  assert (Hheads : heads_are_slots sizeT poolSize s).
  { apply (heads_run _ _ evs Hvalid _ _ _ _ Hinit); [|exact Hok].
    intros t h [E|[n E]]; discriminate. }
  assert (Hslot : In a (slots sizeT poolSize (buffer p))).
  { rewrite <- Hbuf.
    destruct e as [| t | | t | | | | t | |]; cbn [node_access] in Ha;
      try discriminate.
    - destruct (pcs s t) as [|n| | | |] eqn:Hpc; try discriminate.
      injection Ha as ->.
      destruct (ci_fast _ _ _ _ _ _ Hinv t a Hpc) as [Hnz Hcache].
      assert (Hc0 : get_localCache t (world (sys s)) <> nullptr)
        by congruence.
      destruct (chain_nonnull _ _ _ Hc0 (inv_local _ _ _ _ _ _ Hpool t))
        as (l' & HL & _).
      assert (Hin : In a (L t)) by (rewrite HL, Hcache; now left).
      apply (L_owned _ _ _ _ _ _ Hpool) in Hin.
      eapply owned_slot; eauto.
    - destruct (pcs s t) as [| |h| | |] eqn:Hpc; try discriminate.
      destruct (Z.eqb_spec h nullptr) as [|Hnz]; [discriminate|].
      injection Ha as ->.
      destruct (Hheads t a) as [E|Hin]; [now left | contradiction | exact Hin].
    - destruct (pcs s t) as [| | | |ptr|] eqn:Hpc; try discriminate.
      injection Ha as ->.
      assert (Hin : In a (inuse (sys s))).
      { apply (ci_called _ _ _ _ _ _ Hinv t). now rewrite Hpc. }
      apply (U_owned _ _ _ _ _ _ Hpool) in Hin.
      eapply owned_slot; eauto. }
  destruct (construct_block _ _ _ Hcontract _ _ _ Hc)
    as (Hblock & _ & Hlive & _).
  destruct (slots_in_block _ _ _ Hvalid _ Hslot) as [Hlo Hhi].
  destruct (slots_pointer _ _ _ Hvalid Hblock _ Hslot) as [Hnz _].
  destruct Hvalid as [Hsz _].
  split; [exact Hlo|]. split; [lia|]. split; [exact Hnz|].
  unfold s. rewrite crun_blocks. exact Hlive.
Qed.

Lemma accesses_stay_in_block_witness :
  let s := crun (cinit order_pool order_world)
             [EvLoadHead 1%nat; EvLoadHead 0%nat; EvTest 0%nat; EvCas 0%nat] in
  buffer order_pool <= 4352 /\
  4352 + sizeof_FreeNode <= buffer order_pool + alloc_size 64 4 /\
  4352 <> nullptr /\
  blocks (world (sys s)) !! buffer order_pool = Some (alloc_size 64 4).
Proof.
  apply (accesses_stay_in_block 64 4 bump_aligned_alloc
           start_world order_world order_pool
           [EvLoadHead 1%nat; EvLoadHead 0%nat; EvTest 0%nat; EvCas 0%nat]
           (EvTest 1%nat) 4352).
  - exact order_instance_valid.
  - exact bump_aligned_alloc_contract.
  - exact start_world_caches_empty.
  - exact order_construct.
  - vm_compute. repeat split; eauto.
  - vm_compute. reflexivity.
Defined.

End AccessFacts.

(** ** Failure modes *)

Section Failure.
Import Conc Lin.

(** Running alone, a thread ends its call in at most four actions. *)
Lemma finish_solo (sizeT : Z) (s : CState) (t : tid) :
  ctrace_ok sizeT s (finish_actions s t) /\
  pcs (crun s (finish_actions s t)) t = Idle /\
  (length (finish_actions s t) <= 4)%nat /\
  Forall (fun e => actor e = Some t) (finish_actions s t).
Proof.
  unfold finish_actions, last_round.
  destruct (pcs s t) as [|n|h|h n|a|a] eqn:Hpc;
    repeat match goal with
           | |- context [?a =? ?b] =>
             let E := fresh "E" in destruct (a =? b) eqn:E
           end;
    repeat progress
      (cbn [crun fold_left app ctrace_ok cstep enabled length
            sys pcs pool world inuse freeList buffer];
       unfold set_pc, compare_exchange_weak, with_world;
       rewrite ?Hpc;
       rewrite ?decide_True by reflexivity;
       repeat match goal with
              | E : (_ =? _) = _ |- _ => rewrite E
              end;
       rewrite ?Z.eqb_refl);
    (split; [repeat split; eauto|]);
    (split; [reflexivity|]);
    (split; [lia|]);
    repeat constructor.
Qed.

Lemma slot_dereferenceable (sizeT : Z) (poolSize : nat) (buf : Z)
  (w : World) (a : Z) :
  valid_instance sizeT poolSize ->
  block_ok sizeT poolSize buf ->
  blocks w !! buf = Some (alloc_size sizeT poolSize) ->
  In a (slots sizeT poolSize buf) ->
  dereferenceable w a = true.
Proof.
  intros Hvalid Hblock Hlive Ha.
  destruct (slots_in_block _ _ _ Hvalid _ Ha) as [Hlo Hhi].
  destruct (slots_pointer _ _ _ Hvalid Hblock _ Ha) as [Hnz _].
  destruct Hvalid as [Hsz _].
  apply (dereferenceable_in_block w a buf _ Hlive Hnz Hlo). lia.
Qed.

Lemma allocate_deref_slot (sizeT : Z) (poolSize : nat) (s : Sys)
  (G : list Z) (L : tid -> list Z) (own : Z -> option Owner)
  (t : tid) (a : Z) :
  pool_inv sizeT poolSize s G L own ->
  In a (allocate_deref t (pool s) (world s)) ->
  In a (slots sizeT poolSize (buffer (pool s))).
Proof.
  intros Hinv Ha.
  destruct (allocate_deref_cases t (pool s) (world s))
    as [(Hc & E)|[(Hc & Hh & E)|(Hc & Hh & E)]];
    rewrite E in Ha; cbn [In] in Ha; [| |contradiction];
    destruct Ha as [<-|[]].
  - destruct (chain_nonnull _ _ _ Hc (inv_local _ _ _ _ _ _ Hinv t))
      as (l' & HL & _).
    apply (owned_slot _ _ _ _ _ _ Hinv _ (InLocal t)).
    apply (L_owned _ _ _ _ _ _ Hinv). rewrite HL. now left.
  - destruct (chain_nonnull _ _ _ Hh (inv_global _ _ _ _ _ _ Hinv))
      as (G' & HG & _).
    apply (owned_slot _ _ _ _ _ _ Hinv _ InGlobal).
    apply (G_owned _ _ _ _ _ _ Hinv). rewrite HG. now left.
Qed.

(** C6: what can go wrong, with pointers that may not be followed told
    apart.  For a well-formed instantiation on a C library that keeps
    [aligned_alloc]'s contract: the constructor throws [bad_alloc] exactly
    when [aligned_alloc] has no block, and otherwise returns a pool in that
    block.  In every state reached from a new pool by calls that respect
    [deallocate]'s precondition, [allocate] returns, and returns null
    exactly when the caller's cache and the global list are both empty;
    [deallocate] of a held slot returns; the destructor returns.  Between
    threads nobody waits for anybody: from any point of any interleaving a
    thread running alone ends the call it is in within four actions of its
    own, and over the whole interleaving its compare-and-swap has failed for
    a reason at most [poolSize] times. *)
Theorem C6_error_shape
  (sizeT : Z) (poolSize : nat)
  (aligned_alloc : gmap Z Z -> Z -> Z -> option Z)
  (fuel : nat) (w0 : World) (s : Sys) (t : tid)
  (w w' : World) (p : Pool) (evs : list Event) :
  valid_instance sizeT poolSize ->
  aligned_alloc_contract aligned_alloc ->
  (0 < fuel)%nat ->
  reachable sizeT poolSize aligned_alloc fuel s ->
  caches_empty w ->
  construct sizeT poolSize aligned_alloc w = Ok (p, w') ->
  ctrace_ok sizeT (cinit p w') evs ->
  (construct_checked sizeT poolSize aligned_alloc w0 = Throws bad_alloc <->
   aligned_alloc (blocks w0) CACHE_LINE (alloc_size sizeT poolSize) = None) /\
  (forall b,
     aligned_alloc (blocks w0) CACHE_LINE (alloc_size sizeT poolSize)
     = Some b ->
     exists p1 w1,
       construct_checked sizeT poolSize aligned_alloc w0 = Returns p1 w1 /\
       buffer p1 = b /\ b <> nullptr) /\
  (exists r p1 w1,
     allocate_checked fuel t (pool s) (world s) = Returns (r, p1) w1 /\
     (r = nullptr <->
      get_localCache t (world s) = nullptr /\
      freeList (pool s) = nullptr)) /\
  (forall ptr, In ptr (inuse s) ->
     exists w1, deallocate_checked t (pool s) ptr (world s) = Returns tt w1) /\
  (exists w1, destroy_checked (pool s) (world s) = Returns tt w1) /\
  (let sc := crun (cinit p w') evs in
   ctrace_ok sizeT sc (finish_actions sc t) /\
   pcs (crun sc (finish_actions sc t)) t = Idle /\
   (length (finish_actions sc t) <= 4)%nat /\
   Forall (fun e => actor e = Some t) (finish_actions sc t) /\
   (count_along (cas_fails t) (cinit p w') evs <= poolSize)%nat).
Proof.
  intros Hvalid Hcontract Hfuel Hreach Hempty Hc Hok.
  destruct (reachable_inv _ _ _ _ _ Hvalid Hcontract Hfuel Hreach)
    as ((G & L & own & Hinv) & _ & Hlive).
  pose proof (inv_block _ _ _ _ _ _ Hinv) as Hblock.
  assert (Hcon : forall b,
            aligned_alloc (blocks w0) CACHE_LINE (alloc_size sizeT poolSize)
            = Some b ->
            exists p1 w1,
              construct_checked sizeT poolSize aligned_alloc w0
              = Returns p1 w1 /\ buffer p1 = b /\ b <> nullptr).
  { intros b Hb.
    destruct (Hcontract _ _ _ _ CACHE_LINE_pow2
                (alloc_size_aligned sizeT poolSize) Hb) as (Hpos & _ & Htop).
    assert (Hnz : b <> nullptr) by (unfold nullptr; lia).
    assert (Hc1 : exists p1 w1,
              construct sizeT poolSize aligned_alloc w0 = Ok (p1, w1) /\
              buffer p1 = b).
    { rewrite construct_eq, Hb.
      destruct (Z.eqb_spec b nullptr) as [|_]; [contradiction|]. eauto. }
    destruct Hc1 as (p1 & w1 & Hc1 & Hbuf).
    exists p1, w1. split; [|split; [exact Hbuf | exact Hnz]].
    unfold construct_checked. rewrite Hc1.
    destruct (construct_block _ _ _ Hcontract _ _ _ Hc1)
      as (Hblock1 & _ & Hlive1 & _).
    rewrite checked_all; [reflexivity|].
    intros a Ha.
    exact (slot_dereferenceable _ _ _ _ _ Hvalid Hblock1 Hlive1 Ha). }
  split.
  { split.
    - intros Hthrow.
      destruct (aligned_alloc (blocks w0) CACHE_LINE
                  (alloc_size sizeT poolSize)) as [b|] eqn:Hb; [|reflexivity].
      destruct (Hcon b eq_refl) as (p1 & w1 & E & _). congruence.
    - intros Hnone. unfold construct_checked.
      now rewrite construct_eq, Hnone. }
  split; [exact Hcon|].
  split.
  { unfold allocate_checked. rewrite checked_all.
    - destruct (allocate_returns (Nat.pred fuel) t (pool s) (world s))
        as (r & p1 & w1 & E & Hiff).
      replace (S (Nat.pred fuel)) with fuel in E by lia.
      rewrite E. eauto.
    - intros a Ha.
      apply (slot_dereferenceable _ _ _ _ _ Hvalid Hblock Hlive).
      exact (allocate_deref_slot _ _ _ _ _ _ _ _ Hinv Ha). }
  split.
  { intros ptr Hin. unfold deallocate_checked. rewrite checked_all.
    - rewrite deallocate_eq. eauto.
    - intros a [<-|[]].
      apply (slot_dereferenceable _ _ _ _ _ Hvalid Hblock Hlive).
      apply (owned_slot _ _ _ _ _ _ Hinv _ InUse).
      now apply (U_owned _ _ _ _ _ _ Hinv). }
  split.
  { unfold destroy_checked. rewrite Hlive. eexists. reflexivity. }
  cbn zeta.
  destruct (finish_solo sizeT (crun (cinit p w') evs) t)
    as (Hrun & Hidle & Hlen & Hown).
  split; [exact Hrun|]. split; [exact Hidle|]. split; [exact Hlen|].
  split; [exact Hown|].
  pose proof (LinFacts.failures_le_pops t evs (cinit p w')) as Hfail.
  unfold stale at 2 in Hfail. cbn [cinit pcs] in Hfail.
  pose proof (ConcFacts.cinit_inv _ _ _ _ _ _ Hvalid Hcontract Hempty Hc)
    as Hinit.
  destruct (LinFacts.pops_shrink _ _ evs Hvalid _ _ _ _ Hinit Hok)
    as (G1 & L1 & own1 & _ & Hlen1).
  rewrite length_rev, slots_length in Hlen1. lia.
Qed.

Lemma order_mixed_reachable :
  reachable 64 4 bump_aligned_alloc 1 order_mixed.
Proof.
  exists start_world, order_world, order_pool,
    [Alloc 0%nat; Alloc 1%nat; Dealloc 1%nat 4288].
  split; [exact start_world_caches_empty|].
  split; [exact order_construct|].
  split; [vm_compute; auto 10 | reflexivity].
Qed.

Lemma C6_error_shape_witness :
  let evs := [EvLoadHead 0%nat; EvLoadHead 1%nat; EvTest 0%nat; EvTest 1%nat;
              EvCas 0%nat] in
  (construct_checked 64 4 bump_aligned_alloc order_world = Throws bad_alloc <->
   bump_aligned_alloc (blocks order_world) CACHE_LINE (alloc_size 64 4)
   = None) /\
  (forall b,
     bump_aligned_alloc (blocks order_world) CACHE_LINE (alloc_size 64 4)
     = Some b ->
     exists p1 w1,
       construct_checked 64 4 bump_aligned_alloc order_world
       = Returns p1 w1 /\
       buffer p1 = b /\ b <> nullptr) /\
  (exists r p1 w1,
     allocate_checked 1 1%nat (pool order_mixed) (world order_mixed)
     = Returns (r, p1) w1 /\
     (r = nullptr <->
      get_localCache 1%nat (world order_mixed) = nullptr /\
      freeList (pool order_mixed) = nullptr)) /\
  (forall ptr, In ptr (inuse order_mixed) ->
     exists w1,
       deallocate_checked 1%nat (pool order_mixed) ptr (world order_mixed)
       = Returns tt w1) /\
  (exists w1,
     destroy_checked (pool order_mixed) (world order_mixed) = Returns tt w1) /\
  (let sc := crun (cinit order_pool order_world) evs in
   ctrace_ok 64 sc (finish_actions sc 1%nat) /\
   pcs (crun sc (finish_actions sc 1%nat)) 1%nat = Idle /\
   (length (finish_actions sc 1%nat) <= 4)%nat /\
   Forall (fun e => actor e = Some 1%nat) (finish_actions sc 1%nat) /\
   (count_along (cas_fails 1%nat) (cinit order_pool order_world) evs
    <= 4)%nat).
Proof.
  apply (C6_error_shape 64 4 bump_aligned_alloc 1 order_world order_mixed
           1%nat start_world order_world order_pool
           [EvLoadHead 0%nat; EvLoadHead 1%nat; EvTest 0%nat; EvTest 1%nat;
            EvCas 0%nat]).
  - exact order_instance_valid.
  - exact bump_aligned_alloc_contract.
  - lia.
  - exact order_mixed_reachable.
  - exact start_world_caches_empty.
  - exact order_construct.
  - vm_compute. repeat split; eauto.
Defined.

(** In that interleaving thread 1 holds a stale head: alone, it needs a
    failed exchange, one more test and a successful exchange. *)
Example stale_thread_finishes :
  let sc := crun (cinit order_pool order_world)
              [EvLoadHead 0%nat; EvLoadHead 1%nat; EvTest 0%nat;
               EvTest 1%nat; EvCas 0%nat] in
  finish_actions sc 1%nat = [EvCas 1%nat; EvTest 1%nat; EvCas 1%nat] /\
  inuse (sys (crun sc (finish_actions sc 1%nat))) = [4288; 4352].
Proof. vm_compute. split; reflexivity. Qed.

(** Where the calls do fault: the destructor run twice, and [allocate]
    through a cache that still points into the destroyed pool. *)
Example after_destroy_wild :
  let w1 := set_blocks (delete 4160 (blocks (world order_mixed)))
              (world order_mixed) in
  destroy_checked (pool order_mixed) (world order_mixed) = Returns tt w1 /\
  destroy_checked (pool order_mixed) w1 = Wild 4160 /\
  allocate_checked 1 1%nat (pool order_mixed) w1 = Wild 4288.
Proof. vm_compute. repeat split. Qed.

End Failure.
